(** * Durable webhook delivery queue of the WhatsApp gateway

    A shallow embedding of the delivery record store (the queue functions
    of [db] in [config/database.js]), of the reduced store of
    [config/database.lite.js], of the webhook test routes
    ([index.optimized.js], [index.lite.js]) and of the call sites of the
    delivery service in the two WhatsApp managers, followed by the
    properties of the delivery queue.

    Around the queue, the embedding also covers what the same files use
    next to it: the retry helper [withRetry], the two in-memory caches
    and the cached per-number settings, the two message log queues, the
    reply route [POST /api/webhook-reply], and, in the managers, the
    recipient addresses ([formatPhoneNumber]) and the collection of the
    files of a browser session.

    Conventions of the embedding:
    - timestamps are milliseconds since the epoch, as [Z]; every function
      that reads the clock ([new Date()], [Date.now()], Postgres [NOW()])
      takes the reading as its argument [now];
    - the queue table is explicit state: an operation takes the table and
      returns its completion together with the table afterwards;
    - a JavaScript call either returns a value or throws: [completion];
    - a Supabase call never throws, it answers [{ data, error }]: [Reply]. *)

From Stdlib Require Import Ascii String.
From stdpp Require Import base numbers option list strings pretty sorting gmap.

Local Open Scope Z_scope.

(** ** JavaScript and PostgREST vocabulary *)

(** The error object PostgREST puts in [error]. *)
Record PostgrestError := mkPostgrestError {
  code : string;
  message : string
}.

(** What a [throw] can carry in the modelled code. *)
Inductive exn :=
| MissingWebhookQueueTableError
| PostgrestFailure (e : PostgrestError)
| JsError (msg : string).

(** Completion of a JavaScript call. *)
Inductive completion (A : Type) :=
| Returned (a : A)
| Thrown (e : exn).
Arguments Returned {A} a.
Arguments Thrown {A} e.

(** [try { body } catch (error) { handler(error) }] *)
Definition try_catch {A} (body : completion A) (handler : exn -> completion A)
  : completion A :=
  match body with
  | Returned a => Returned a
  | Thrown e => handler e
  end.

(** The answer of a Supabase query: [{ data, error }]. *)
Record Reply (A : Type) := mkReply {
  data : option A;
  error : option PostgrestError
}.
Arguments mkReply {A} data error.
Arguments data {A} r.
Arguments error {A} r.

(** Sequencing of calls that may throw ([await] in an [async] body). *)
Global Instance completion_ret : MRet completion := @Returned.
Global Instance completion_bind : MBind completion :=
  fun A B f c =>
    match c with
    | Returned a => f a
    | Thrown e => Thrown e
    end.

(** JSON values, as far as the payloads of this subsystem need them. *)
#[warnings="-register-all"] Inductive Json :=
| JString (s : string)
| JNumber (z : Z)
| JObject (fields : list (string * Json)).

(** ASCII case folding, as the [i] flag of a regular expression without the
    [u] flag does it on code units below 128. *)
Definition lower (c : ascii) : ascii :=
  let n := nat_of_ascii c in
  if (Nat.leb 65 n && Nat.leb n 90)%bool then ascii_of_nat (n + 32) else c.

Fixpoint lowercase (s : string) : string :=
  match s with
  | EmptyString => EmptyString
  | String c s' => String (lower c) (lowercase s')
  end.

(** [/needle/i.test(hay)] for a pattern without metacharacters. *)
Definition regex_test_ci (needle hay : string) : bool :=
  match String.index 0 (lowercase needle) (lowercase hay) with
  | Some _ => true
  | None => false
  end.

(** [s || null] for a nullable string: the empty string is falsy. *)
Definition truthy (s : option string) : option string :=
  match s with
  | Some EmptyString => None
  | other => other
  end.

(** ** The delivery record and the queue table *)

(** [status VARCHAR(20) CHECK (status IN (...))] of the table
    [webhook_delivery_queue]. *)
Inductive Status := pending | processing | success | failed | dead_letter.

Global Instance Status_eq_dec : EqDecision Status.
Proof. solve_decision. Defined.

(** One row of [webhook_delivery_queue] (schema.sql). *)
Record Delivery := mkDelivery {
  id : nat;
  account_id : string;
  webhook_id : string;
  webhook_url : string;
  webhook_secret : option string;
  payload : Json;
  max_retries : Z;
  attempt_count : Z;
  status : Status;
  response_status : option Z;
  last_error : option string;
  next_attempt_at : Z;
  created_at : Z;
  updated_at : Z
}.

(** A row of [webhooks]: what [db.getWebhooks] yields. *)
Record Webhook := mkWebhook {
  wh_id : string;
  wh_url : string;
  wh_secret : option string;
  wh_headers : option (gmap string string);
  wh_max_retries : Z;
  wh_is_active : bool
}.

(** The table is either there with its rows, in insertion order, or every
    query on it is answered with an error. *)
Inductive QueueTable :=
| Rows (rs : list Delivery)
| Unavailable (e : PostgrestError).

(** The error of PostgREST for a relation that is not in its schema cache. *)
Definition missing_table_error : PostgrestError :=
  mkPostgrestError "PGRST205"
    "Could not find the table 'public.webhook_delivery_queue' in the schema cache".

(** Field updates, one per column the code writes. *)
Definition set_status (s : Status) (r : Delivery) : Delivery :=
  mkDelivery (id r) (account_id r) (webhook_id r) (webhook_url r)
    (webhook_secret r) (payload r) (max_retries r) (attempt_count r) s
    (response_status r) (last_error r) (next_attempt_at r) (created_at r)
    (updated_at r).

Definition set_attempt_count (n : Z) (r : Delivery) : Delivery :=
  mkDelivery (id r) (account_id r) (webhook_id r) (webhook_url r)
    (webhook_secret r) (payload r) (max_retries r) n (status r)
    (response_status r) (last_error r) (next_attempt_at r) (created_at r)
    (updated_at r).

Definition set_response_status (c : option Z) (r : Delivery) : Delivery :=
  mkDelivery (id r) (account_id r) (webhook_id r) (webhook_url r)
    (webhook_secret r) (payload r) (max_retries r) (attempt_count r) (status r)
    c (last_error r) (next_attempt_at r) (created_at r) (updated_at r).

Definition set_last_error (e : option string) (r : Delivery) : Delivery :=
  mkDelivery (id r) (account_id r) (webhook_id r) (webhook_url r)
    (webhook_secret r) (payload r) (max_retries r) (attempt_count r) (status r)
    (response_status r) e (next_attempt_at r) (created_at r) (updated_at r).

Definition set_next_attempt_at (t : Z) (r : Delivery) : Delivery :=
  mkDelivery (id r) (account_id r) (webhook_id r) (webhook_url r)
    (webhook_secret r) (payload r) (max_retries r) (attempt_count r) (status r)
    (response_status r) (last_error r) t (created_at r) (updated_at r).

Definition set_updated_at (t : Z) (r : Delivery) : Delivery :=
  mkDelivery (id r) (account_id r) (webhook_id r) (webhook_url r)
    (webhook_secret r) (payload r) (max_retries r) (attempt_count r) (status r)
    (response_status r) (last_error r) (next_attempt_at r) (created_at r) t.

(** ** The Supabase query builder on the queue table *)

Module Supabase.

(** [status IN (...)] *)
Definition status_in (ss : list Status) (r : Delivery) : bool :=
  bool_decide (status r ∈ ss).

(** The trigger [update_webhook_queue_updated_at]: before every UPDATE of
    a row, [NEW.updated_at = NOW()]. *)
Definition update_updated_at_column (now : Z) (r : Delivery) : Delivery :=
  set_updated_at now r.

(** A fresh primary key ([gen_random_uuid()]): one no row has. *)
Definition fresh_id (rs : list Delivery) : nat :=
  S (foldr Nat.max 0%nat (id <$> rs)).

(** The columns [enqueueWebhookDelivery] sends; the others take their
    defaults ([attempt_count 0], [created_at] and [updated_at NOW()]). *)
Record NewDelivery := mkNewDelivery {
  new_account_id : string;
  new_webhook_id : string;
  new_webhook_url : string;
  new_webhook_secret : option string;
  new_payload : Json;
  new_max_retries : Z;
  new_status : Status;
  new_next_attempt_at : Z
}.

Definition with_defaults (now : Z) (i : nat) (n : NewDelivery) : Delivery :=
  mkDelivery i (new_account_id n) (new_webhook_id n) (new_webhook_url n)
    (new_webhook_secret n) (new_payload n) (new_max_retries n) 0
    (new_status n) None None (new_next_attempt_at n) now now.

(** [.from('webhook_delivery_queue').insert([record]).select()] *)
Definition insert (now : Z) (n : NewDelivery) (t : QueueTable)
  : Reply (list Delivery) * QueueTable :=
  match t with
  | Rows rs =>
      let r := with_defaults now (fresh_id rs) n in
      (mkReply (Some [r]) None, Rows (rs ++ [r]))
  | Unavailable e => (mkReply None (Some e), t)
  end.

(** [ORDER BY key ASC] compares rows by one column. *)
Definition by_key (key : Delivery -> Z) : relation Delivery :=
  fun a b => key a <= key b.

Global Instance by_key_dec key : RelDecision (by_key key).
Proof. intros a b. unfold by_key. apply _. Defined.

Global Instance by_key_transitive key : Transitive (by_key key).
Proof. unfold by_key. intros a b c. lia. Qed.

Global Instance by_key_total key : Total (by_key key).
Proof. unfold by_key. intros a b. lia. Qed.

(** [.select('*').<filters>.order(key, { ascending: true }).limit(n)].
    Postgres leaves the order of rows with equal keys open; the model
    fixes one such order (a merge sort of the rows in table order). *)
Definition select_ordered (where_ : Delivery -> bool) (key : Delivery -> Z)
    (limit : nat) (t : QueueTable) : Reply (list Delivery) :=
  match t with
  | Rows rs =>
      mkReply
        (Some (take limit
                 (merge_sort (by_key key)
                    (List.filter where_ rs))))
        None
  | Unavailable e => mkReply None (Some e)
  end.

(** [.update(values).<filters>.select()]: the rows that satisfy the
    filters when the statement runs are rewritten, and are the [data]. *)
Definition update (now : Z) (values : Delivery -> Delivery)
    (where_ : Delivery -> bool) (t : QueueTable)
  : Reply (list Delivery) * QueueTable :=
  match t with
  | Rows rs =>
      let write r := update_updated_at_column now (values r) in
      (mkReply (Some (write <$> List.filter where_ rs)) None,
       Rows ((fun r => if where_ r then write r else r) <$> rs))
  | Unavailable e => (mkReply None (Some e), t)
  end.

(** PostgREST answers a query on a relation it does not find with HTTP
    status 404. *)
Definition not_found (e : PostgrestError) : bool :=
  String.eqb (code e) "PGRST205" || String.eqb (code e) "42P01".

(** The error supabase-js makes of a failed response without a body: the
    message is the body, and there is no code. *)
Definition bodyless : PostgrestError := mkPostgrestError "" "".

(** [.select('id', { count: 'exact', head: true }).<filters>]: an HTTP
    HEAD, whose answer carries [count] instead of rows and, when the query
    fails, no body. supabase-js then has no error object to read: a 404
    without a body is reported as no error and no count, any other failure
    as the error [bodyless]. *)
Definition count (where_ : Delivery -> bool) (t : QueueTable) : Reply nat :=
  match t with
  | Rows rs => mkReply (Some (length (List.filter where_ rs))) None
  | Unavailable e =>
      if not_found e then mkReply None None else mkReply None (Some bodyless)
  end.

End Supabase.

(** ** The delivery record store: the queue functions of [db] in
    [config/database.js] *)

Module Database.

Import Supabase.

Definition isWebhookQueueMissingError (e : PostgrestError) : bool :=
  String.eqb (code e) "PGRST205"
  && regex_test_ci "webhook_delivery_queue" (message e).

(** The check every queue function makes on the answer:
    [if (error) { if (isWebhookQueueMissingError(error)) throw new
    MissingWebhookQueueTableError(); throw error; }] *)
Definition check {A} (r : Reply A) : completion (option A) :=
  match error r with
  | Some e =>
      if isWebhookQueueMissingError e
      then Thrown MissingWebhookQueueTableError
      else Thrown (PostgrestFailure e)
  | None => Returned (data r)
  end.

Definition enqueueWebhookDelivery (now : Z) (accountId : string)
    (webhook : Webhook) (payload : Json) (maxRetries : Z) (t : QueueTable)
  : completion (option Delivery) * QueueTable :=
  let record :=
    mkNewDelivery accountId (wh_id webhook) (wh_url webhook)
      (truthy (wh_secret webhook)) payload maxRetries pending now in
  let '(reply, t') := insert now record t in
  (try_catch
     (d ← check reply; mret (d ≫= head))
     (fun e => Thrown e),
   t').

Definition getDueWebhookDeliveries (now : Z) (limit : nat) (t : QueueTable)
  : completion (list Delivery) :=
  let reply :=
    select_ordered
      (fun r => status_in [pending; failed] r
                && bool_decide (next_attempt_at r ≤ now))
      next_attempt_at limit t in
  try_catch
    (d ← check reply; mret (default [] d))
    (fun _ => Returned []).

Definition markWebhookDeliveryProcessing (now : Z) (job : Delivery)
    (t : QueueTable) : completion (option Delivery) * QueueTable :=
  let '(reply, t') :=
    update now
      (fun r => set_updated_at now
                  (set_last_error None
                     (set_attempt_count (attempt_count job + 1)
                        (set_status processing r))))
      (fun r => bool_decide (id r = id job)
                && status_in [pending; failed] r)
      t in
  (try_catch
     (d ← check reply; mret (d ≫= head))
     (fun _ => Returned None),
   t').

Definition completeWebhookDelivery (now : Z) (jobId : nat)
    (responseStatus : Z) (t : QueueTable) : completion bool * QueueTable :=
  let '(reply, t') :=
    update now
      (fun r => set_updated_at now
                  (set_last_error None
                     (set_response_status (Some responseStatus)
                        (set_status success r))))
      (fun r => bool_decide (id r = jobId))
      t in
  (try_catch
     (_ ← check reply; mret true)
     (fun _ => Returned false),
   t').

Definition failWebhookDelivery (now : Z) (job : Delivery)
    (errorMessage : string) (nextAttemptAt : Z) (isDeadLetter : bool)
    (t : QueueTable) : completion bool * QueueTable :=
  let '(reply, t') :=
    update now
      (fun r => set_updated_at now
                  (set_next_attempt_at nextAttemptAt
                     (set_last_error (Some errorMessage)
                        (set_status
                           (if isDeadLetter then dead_letter else failed)
                           r))))
      (fun r => bool_decide (id r = id job))
      t in
  (try_catch
     (_ ← check reply; mret true)
     (fun _ => Returned false),
   t').

Definition resetStuckWebhookDeliveries (now : Z) (minutes : Z)
    (t : QueueTable) : completion unit * QueueTable :=
  let cutoff := now - minutes * 60000 in
  let '(reply, t') :=
    update now
      (fun r => set_last_error (Some "Recovered from unexpected shutdown")
                  (set_next_attempt_at now (set_status failed r)))
      (fun r => bool_decide (status r = processing)
                && bool_decide (updated_at r ≤ cutoff))
      t in
  (try_catch
     (_ ← check reply; mret ())
     (fun e => Thrown e),
   t').

(** The loop of [getWebhookQueueStats] over the statuses left to count;
    [stats] is the object filled so far. *)
Fixpoint count_statuses (statuses : list Status) (t : QueueTable)
    (stats : list (Status * nat)) : completion (list (Status * nat)) :=
  match statuses with
  | [] => Returned stats
  | s :: rest =>
      n ← try_catch
            (c ← check (count (fun r => bool_decide (status r = s)) t);
             mret (default 0%nat c))
            (fun e =>
               match e with
               | MissingWebhookQueueTableError => Thrown e
               | _ => Returned 0%nat
               end);
      count_statuses rest t (stats ++ [(s, n)])
  end.

Definition getWebhookQueueStats (t : QueueTable)
  : completion (list (Status * nat)) :=
  count_statuses [pending; processing; failed; dead_letter] t [].

End Database.

(** ** The reduced store of [config/database.lite.js]

    The lite server keeps its own, shorter queue functions. They name the
    counter [attempts], the due time [next_retry_at], a column
    [completed_at] and the final status ['completed']. The table
    [webhook_delivery_queue] of the repository, as [schema.sql] and the
    setup script define it, names the counter [attempt_count] and the due
    time [next_attempt_at] and has no [completed_at]: PostgREST refuses a
    statement that names a column the table does not have, so that on this
    table such a statement reads nothing, writes nothing and is answered
    with an error. [Naming] says which table the functions run on: the one
    of [schema.sql], or one whose columns have the names of the lite
    functions. On the latter the row type keeps the counter in
    [attempt_count] and the due time in [next_attempt_at], ['completed'] is
    read as [success], and [completed_at] is left out.

    The functions are here for comparison with the store above; the
    delivery queue of the specification (five statuses, count taken at
    claim time, recovery by age) is the one of [config/database.js]. *)

Module Lite.

Import Supabase.

(** The table the functions run on. *)
Inductive Naming := schema_sql | lite_names.

(** The error for a column the table does not have: in a body to write
    (PGRST204), in a filter or a column list (42703 of Postgres). *)
Definition unknown_column (name : string) : PostgrestError :=
  mkPostgrestError "PGRST204"
    ("Could not find the '" +:+ name
     +:+ "' column of 'webhook_delivery_queue' in the schema cache").

Definition undefined_column (name : string) : PostgrestError :=
  mkPostgrestError "42703"
    ("column webhook_delivery_queue." +:+ name +:+ " does not exist").

(** A statement that writes, and that names a column only a table with the
    lite names has. A table that is not there answers with its own error
    first. *)
Definition naming {A} (names : Naming) (e : PostgrestError) (t : QueueTable)
    (statement : Reply A * QueueTable) : Reply A * QueueTable :=
  match names, t with
  | schema_sql, Rows _ => (mkReply None (Some e), t)
  | _, _ => statement
  end.

(** The same for a statement that reads. *)
Definition naming_read {A} (names : Naming) (e : PostgrestError)
    (t : QueueTable) (statement : Reply A) : Reply A :=
  match names, t with
  | schema_sql, Rows _ => mkReply None (Some e)
  | _, _ => statement
  end.

Definition isWebhookQueueMissing (err : PostgrestError) : bool :=
  String.eqb (code err) "PGRST205"
  && regex_test_ci "webhook_delivery_queue" (message err).

(** [x || 3] for a number: 0 is falsy. *)
Definition or_three (x : Z) : Z := if bool_decide (x = 0) then 3 else x.

(** [if (error && isWebhookQueueMissing(error)) throw new
    MissingWebhookQueueTableError(); if (error) throw error;] *)
Definition check {A} (r : Reply A) : completion (option A) :=
  match error r with
  | Some e =>
      if isWebhookQueueMissing e
      then Thrown MissingWebhookQueueTableError
      else Thrown (PostgrestFailure e)
  | None => Returned (data r)
  end.

(** The inserted object names [attempts] and [next_retry_at]. *)
Definition enqueueWebhookDelivery (names : Naming) (now : Z)
    (accountId : string) (webhook : Webhook) (body : Json) (maxRetries : Z)
    (t : QueueTable) : completion unit * QueueTable :=
  let record :=
    mkNewDelivery accountId (wh_id webhook) (wh_url webhook)
      (truthy (wh_secret webhook)) body (or_three maxRetries) pending now in
  let '(reply, t') :=
    naming names (unknown_column "attempts") t (insert now record t) in
  (_ ← check reply; mret (), t').

(** The filter names [next_retry_at]. *)
Definition getDueWebhookDeliveries (names : Naming) (now : Z) (limit : nat)
    (t : QueueTable) : completion (list Delivery) :=
  let reply :=
    naming_read names (undefined_column "next_retry_at") t
      (select_ordered
         (fun r => bool_decide (status r = pending)
                   && bool_decide (next_attempt_at r ≤ now))
         created_at limit t) in
  d ← check reply; mret (default [] d).

(** Only the missing table is looked at; any other error is ignored and
    the answer is [null]. The statement names [status], [updated_at] and
    [id], which both tables have. *)
Definition markWebhookDeliveryProcessing (now : Z) (job : Delivery)
    (t : QueueTable) : completion (option Delivery) * QueueTable :=
  let '(reply, t') :=
    update now
      (fun r => set_updated_at now (set_status processing r))
      (fun r => bool_decide (id r = id job)
                && bool_decide (status r = pending))
      t in
  (match error reply with
   | Some e =>
       if isWebhookQueueMissing e then Thrown MissingWebhookQueueTableError
       else Returned None
   | None => Returned (data reply ≫= head)
   end,
   t').

(** The written object names [completed_at]; the answer of the update is
    not looked at. *)
Definition completeWebhookDelivery (names : Naming) (now : Z) (jobId : nat)
    (responseStatus : Z) (t : QueueTable) : completion unit * QueueTable :=
  let '(_, t') :=
    naming names (unknown_column "completed_at") t
      (update now
         (fun r => set_response_status (Some responseStatus)
                     (set_status success r))
         (fun r => bool_decide (id r = jobId))
         t) in
  (Returned (), t').

(** [.select('attempts, max_retries').eq('id', id).single()]: [data] is the
    row when exactly one row has the key, and [null] otherwise, as also
    when the query fails, which it does when the table has no column
    [attempts]. *)
Definition select_single (names : Naming) (jobId : nat) (t : QueueTable)
  : option Delivery :=
  match names, t with
  | lite_names, Rows rs =>
      match List.filter (fun r => bool_decide (id r = jobId)) rs with
      | [r] => Some r
      | _ => None
      end
  | _, _ => None
  end.

(** The count is read from the table, incremented and written back; the
    ceiling is decided here, and the final status is [failed]. Neither
    answer is looked at; both written objects name [attempts]. *)
Definition failWebhookDelivery (names : Naming) (now : Z) (jobId : nat)
    (errorMsg : string) (nextRetry : Z) (t : QueueTable)
  : completion unit * QueueTable :=
  let job := select_single names jobId t in
  let attempts := default 0 (attempt_count <$> job) + 1 in
  let maxRetries := or_three (default 0 (max_retries <$> job)) in
  let '(_, t') :=
    naming names (unknown_column "attempts") t
      (if bool_decide (maxRetries ≤ attempts) then
         update now
           (fun r => set_attempt_count attempts
                       (set_last_error (Some errorMsg) (set_status failed r)))
           (fun r => bool_decide (id r = jobId))
           t
       else
         update now
           (fun r => set_next_attempt_at nextRetry
                       (set_attempt_count attempts
                          (set_last_error (Some errorMsg)
                             (set_status pending r))))
           (fun r => bool_decide (id r = jobId))
           t) in
  (Returned (), t').

(** No threshold: every [processing] row goes back to [pending]. The
    statement names [status] and [updated_at], which both tables have. *)
Definition resetStuckWebhookDeliveries (now : Z) (t : QueueTable)
  : completion unit * QueueTable :=
  let '(_, t') :=
    update now
      (fun r => set_updated_at now (set_status pending r))
      (fun r => bool_decide (status r = processing))
      t in
  (Returned (), t').

End Lite.

(** ** Outbound HTTP: [axios.post] *)

Inductive Method := GET | POST.

(** What the network does with a request: an HTTP response with its status
    code, or no response at all (timeout, DNS, connection refused). *)
Inductive HttpOutcome :=
| Response (status_code : Z)
| NetworkFailure (msg : string).

(** One call of axios: URL, body and the options the code passes. *)
Record Request := mkRequest {
  req_method : Method;
  req_url : string;
  req_body : Json;
  req_headers : gmap string string;
  req_timeout : Z;
  req_validateStatus : Z -> bool
}.

(** The network answers a request knowing the requests made before it. *)
Definition Network := list Request -> Request -> HttpOutcome.

(** Everything the subsystem acts on: the queue table, the requests sent so
    far (oldest first), the lines handed to the logger, and the process-wide
    flag of the delivery service (see [DeliveryService]). *)
Record World := mkWorld {
  queue : QueueTable;
  sent : list Request;
  logged : list string;
  queueUnavailable : bool
}.

Definition with_queue (q : QueueTable) (w : World) : World :=
  mkWorld q (sent w) (logged w) (queueUnavailable w).

Definition with_sent (rq : Request) (w : World) : World :=
  mkWorld (queue w) (sent w ++ [rq]) (logged w) (queueUnavailable w).

Definition with_logged (line : string) (w : World) : World :=
  mkWorld (queue w) (sent w) (logged w ++ [line]) (queueUnavailable w).

Definition with_queueUnavailable (b : bool) (w : World) : World :=
  mkWorld (queue w) (sent w) (logged w) b.

(** The default [validateStatus] of axios: only 2xx resolves. *)
Definition axios_default_validateStatus (s : Z) : bool :=
  (200 <=? s) && (s <? 300).

(** [await axios.post(url, body, options)]: resolves with the status when
    there is a response and [validateStatus] accepts it, rejects
    otherwise; the message of the rejection names the status. *)
Definition axios_post (net : Network) (rq : Request) (w : World)
  : completion Z * World :=
  let w' := with_sent rq w in
  match net (sent w) rq with
  | Response s =>
      if req_validateStatus rq s then (Returned s, w')
      else
        (Thrown (JsError ("Request failed with status code " +:+ pretty s)),
         w')
  | NetworkFailure msg => (Thrown (JsError msg), w')
  end.

(** [e.message] *)
Definition exn_message (e : exn) : string :=
  match e with
  | MissingWebhookQueueTableError => "webhook_delivery_queue table not found"
  | PostgrestFailure pe => message pe
  | JsError msg => msg
  end.

(** ** The webhook test routes
    [POST /api/accounts/:accountId/webhooks/:webhookId/test] *)

Module TestRoute.

Definition content_type : string := "Content-Type".
Definition application_json : string := "application/json".
Definition x_webhook_secret : string := "X-Webhook-Secret".
Definition user_agent : string := "User-Agent".

(** What the route answers: 404, the JSON with [success], or 500. *)
Inductive RouteReply :=
| NotFound
| Tested (success : bool) (statusCode : Z)
| ServerError (msg : string).

(** [if (webhook.secret) headers['X-Webhook-Secret'] = webhook.secret] *)
Definition add_secret (webhook : Webhook) (headers : gmap string string)
  : gmap string string :=
  match truthy (wh_secret webhook) with
  | Some secret => <[x_webhook_secret := secret]> headers
  | None => headers
  end.

(** The request of [index.optimized.js]. *)
Definition optimized_request (now : Z) (accountId : string)
    (webhook : Webhook) : Request :=
  let testPayload :=
    JObject [("event"%string, JString "test");
             ("timestamp"%string, JNumber now);
             ("account_id"%string, JString accountId);
             ("message"%string,
              JString "Test webhook from WhatsApp Gateway")] in
  let headers := {[content_type := application_json]} in
  mkRequest POST (wh_url webhook) testPayload (add_secret webhook headers)
    10000 (fun _ => true).

(** The request of [index.lite.js]: the webhook's own headers are spread
    over the two defaults. *)
Definition lite_request (now : Z) (accountId : string) (webhook : Webhook)
  : Request :=
  let testPayload :=
    JObject [("event"%string, JString "test");
             ("account_id"%string, JString accountId);
             ("timestamp"%string, JNumber now);
             ("message"%string,
              JString "This is a test webhook from WhatsApp Gateway")] in
  let headers :=
    default ∅ (wh_headers webhook)
    ∪ <[user_agent := "WhatsApp-Gateway-Lite/1.0"%string]>
        {[content_type := application_json]} in
  mkRequest POST (wh_url webhook) testPayload (add_secret webhook headers)
    10000 (fun _ => true).

(** The handler, for either request: [getWebhook] is the completion of
    [await db.getWebhook(webhookId)]. *)
Definition handler (request : Z -> string -> Webhook -> Request)
    (net : Network) (now : Z) (accountId : string)
    (getWebhook : completion (option Webhook)) (w : World)
  : RouteReply * World :=
  match getWebhook with
  | Thrown e => (ServerError (exn_message e), w)
  | Returned None => (NotFound, w)
  | Returned (Some webhook) =>
      match axios_post net (request now accountId webhook) w with
      | (Returned st, w') => (Tested ((200 <=? st) && (st <? 300)) st, w')
      | (Thrown e, w') => (ServerError (exn_message e), w')
      end
  end.

End TestRoute.

(** ** The call sites in the WhatsApp managers *)

Module Manager.

(** A delivery service as the managers use it:
    [queueDeliveries(accountId, webhooks, msgData)]. *)
Definition Service :=
  Z -> string -> list Webhook -> Json -> World -> completion unit * World.

(** The request of the inline fallback of [_getWebhookService]. *)
Definition inline_request (now : Z) (accountId : string) (msgData : Json)
    (webhook : Webhook) : Request :=
  mkRequest POST (wh_url webhook)
    (JObject [("event"%string, JString "message");
              ("account_id"%string, JString accountId);
              ("data"%string, msgData);
              ("timestamp"%string, JNumber now)])
    (default ∅ (wh_headers webhook)) 10000 axios_default_validateStatus.

(** The inline fallback [queueDeliveries]: the [for ... of] loop with its
    [try]/[catch] around each post. *)
Fixpoint inline_queueDeliveries (net : Network) (now : Z)
    (accountId : string) (webhooks : list Webhook) (msgData : Json)
    (w : World) : completion unit * World :=
  match webhooks with
  | [] => (Returned (), w)
  | webhook :: rest =>
      let w' :=
        match axios_post net (inline_request now accountId msgData webhook) w
        with
        | (Returned _, w1) => w1
        | (Thrown err, w1) =>
            with_logged
              ("Webhook failed " +:+ wh_url webhook +:+ ": "
               +:+ exn_message err) w1
        end in
      inline_queueDeliveries net now accountId rest msgData w'
  end.

(** What [require('./webhookDeliveryService')] can export. *)
Inductive ModuleExport :=
| ExportsClass (instance : Service)
| ExportsObject (queueDeliveries : option Service).

(** [_getWebhookService()]: the cached service, else the required module,
    else (the module fails to load or exports neither shape) the inline
    fallback. *)
Definition _getWebhookService (net : Network) (cached : option Service)
    (required : completion ModuleExport) : Service :=
  match cached with
  | Some svc => svc
  | None =>
      match required with
      | Returned (ExportsClass svc) => svc
      | Returned (ExportsObject (Some svc)) => svc
      | Returned (ExportsObject None) => inline_queueDeliveries net
      | Thrown _ => inline_queueDeliveries net
      end
  end.

(** [queueWebhookDeliveries(accountId, messageData)] of the Baileys manager
    and [_queueWebhooks(accountId, msgData)] of the lite manager: the body
    is one [try] whose [catch] only logs. [getWebhooks] is the completion of
    [await db.getWebhooks(accountId)]. *)
Definition queueWebhookDeliveries (svc : Service) (now : Z)
    (accountId : string) (messageData : Json)
    (getWebhooks : completion (option (list Webhook))) (w : World)
  : completion unit * World :=
  match getWebhooks with
  | Thrown e => (Returned (), with_logged (exn_message e) w)
  | Returned webhooks =>
      let activeWebhooks := List.filter wh_is_active (default [] webhooks) in
      if bool_decide (0 < length activeWebhooks)%nat then
        match svc now accountId activeWebhooks messageData w with
        | (Returned _, w') => (Returned (), w')
        | (Thrown e, w') => (Returned (), with_logged (exn_message e) w')
        end
      else (Returned (), w)
  end.

End Manager.

(** ** The delivery service ([utils/webhookDeliveryService.js])

    The module is required by both managers and by [index.optimized.js] but
    is not among the sources; its policy, HTTP client, worker step and facade
    are written down from the specification, on top of the store above. *)

Module DeliveryService.

Import Database.

(** Modelled from the spec: the base delay of the Retry/Backoff Policy of
    [webhookDeliveryService.js], 30 seconds. *)
Definition baseDelay : Z := 30000.

(** Modelled from the spec: the delay of the Retry/Backoff Policy of
    [webhookDeliveryService.js], [base * 2^(attemptCount-1)], uncapped. *)
Definition backoffDelay (attemptCount : Z) : Z :=
  baseDelay * 2 ^ (attemptCount - 1).

(** Modelled from the spec: the outcome classification of the HTTP Delivery
    Client of [webhookDeliveryService.js]: 2xx is success; any other status,
    or a network-level failure, is a failure that carries the status code if
    any and the message otherwise. *)
Inductive Outcome :=
| Delivered (status_code : Z)
| Failed (status_code : option Z) (msg : string).

(** Modelled from the spec: the result of [decide] of
    [webhookDeliveryService.js]. *)
Record Verdict := mkVerdict {
  retry : bool;
  nextAttemptAt : Z;
  deadLetter : bool
}.

(** Modelled from the spec: [decide(attemptCount, maxRetries, outcome)] of
    [webhookDeliveryService.js]: success short-circuits; a failure with
    [attemptCount >= maxRetries] after this attempt dead-letters; any other
    failure is rescheduled after the backoff delay. *)
Definition decide (now attemptCount maxRetries : Z) (o : Outcome) : Verdict :=
  match o with
  | Delivered _ => mkVerdict false now false
  | Failed _ _ =>
      let dead := bool_decide (maxRetries ≤ attemptCount) in
      mkVerdict (negb dead) (now + backoffDelay attemptCount) dead
  end.

(** Modelled from the spec: the request of the HTTP Delivery Client of
    [webhookDeliveryService.js]: a JSON POST with [Content-Type], the
    secret-bearing header when there is a secret, a 10 second timeout, and
    every status accepted as a response. *)
Definition delivery_request (url : string) (secret : option string)
    (body : Json) : Request :=
  let headers := {[TestRoute.content_type := TestRoute.application_json]} in
  let headers :=
    match truthy secret with
    | Some s => <[TestRoute.x_webhook_secret := s]> headers
    | None => headers
    end in
  mkRequest POST url body headers 10000 (fun _ => true).

(** Modelled from the spec: one attempt of the HTTP Delivery Client of
    [webhookDeliveryService.js], classified. *)
Definition deliver (net : Network) (url : string) (secret : option string)
    (body : Json) (w : World) : Outcome * World :=
  match axios_post net (delivery_request url secret body) w with
  | (Returned st, w') =>
      (if axios_default_validateStatus st then Delivered st
       else Failed (Some st) "Non-2xx response", w')
  | (Thrown e, w') => (Failed None (exn_message e), w')
  end.

(** Modelled from the spec: step 2 of a tick of the Delivery Worker Loop of
    [webhookDeliveryService.js] for one due record: claim (skip silently if
    the claim is lost), deliver, then [complete] or consult the policy and
    [fail]. *)
Definition processDelivery (net : Network) (now : Z) (job : Delivery)
    (w : World) : World :=
  match markWebhookDeliveryProcessing now job (queue w) with
  | (Returned (Some record), q1) =>
      let '(outcome, w2) :=
        deliver net (webhook_url record) (webhook_secret record)
          (payload record) (with_queue q1 w) in
      match outcome with
      | Delivered st =>
          with_queue (completeWebhookDelivery now (id record) st (queue w2)).2
            w2
      | Failed _ msg =>
          let v :=
            decide now (attempt_count record) (max_retries record) outcome in
          with_queue
            (failWebhookDelivery now record msg (nextAttemptAt v)
               (deadLetter v) (queue w2)).2
            w2
      end
  | (_, q1) => with_queue q1 w
  end.

(** Modelled from the spec: one tick of the Delivery Worker Loop of
    [webhookDeliveryService.js]: the due batch, one record after the
    other. *)
Definition tick (net : Network) (now : Z) (batchLimit : nat) (w : World)
  : World :=
  match getDueWebhookDeliveries now batchLimit (queue w) with
  | Returned due => foldl (fun w' job => processDelivery net now job w') w due
  | Thrown _ => w
  end.

(** Modelled from the spec: the fallback of the Queue Facade of
    [webhookDeliveryService.js]: one direct POST through the HTTP Delivery
    Client, no retry, no persistence; a failure is logged and dropped. *)
Definition sendDirect (net : Network) (webhook : Webhook) (body : Json)
    (w : World) : World :=
  match deliver net (wh_url webhook) (wh_secret webhook) body w with
  | (Delivered _, w') => w'
  | (Failed _ msg, w') => with_logged msg w'
  end.

(** Modelled from the spec: [queueDeliveries(accountId, activeWebhooks,
    eventPayload)] of [webhookDeliveryService.js]: per webhook, enqueue;
    when enqueue raises the distinguished signal, remember it for the process
    lifetime and fall back to the direct attempt; any other enqueue error is
    caught and logged. *)
Fixpoint queueDeliveries (net : Network) (now : Z) (accountId : string)
    (activeWebhooks : list Webhook) (eventPayload : Json) (w : World)
  : completion unit * World :=
  match activeWebhooks with
  | [] => (Returned (), w)
  | webhook :: rest =>
      let w' :=
        if queueUnavailable w then sendDirect net webhook eventPayload w
        else
          match
            enqueueWebhookDelivery now accountId webhook eventPayload
              (wh_max_retries webhook) (queue w)
          with
          | (Returned _, q) => with_queue q w
          | (Thrown MissingWebhookQueueTableError, q) =>
              sendDirect net webhook eventPayload
                (with_queueUnavailable true (with_queue q w))
          | (Thrown e, q) => with_logged (exn_message e) (with_queue q w)
          end in
      queueDeliveries net now accountId rest eventPayload w'
  end.

End DeliveryService.

(** ** Vocabulary of the statements *)

(** The row with primary key [i]. *)
Definition row_of (i : nat) (q : QueueTable) : option Delivery :=
  match q with
  | Rows rs => List.find (fun r => bool_decide (id r = i)) rs
  | Unavailable _ => None
  end.

(** The table exists and [id] is its primary key. *)
Definition well_formed (q : QueueTable) : Prop :=
  match q with
  | Rows rs => NoDup (id <$> rs)
  | Unavailable _ => False
  end.

(** The statuses a claim accepts. *)
Definition claimable (s : Status) : Prop := s = pending \/ s = failed.

(** The row a recovered record becomes. *)
Definition recovered (now : Z) (r : Delivery) : Delivery :=
  set_updated_at now
    (set_last_error (Some "Recovered from unexpected shutdown"%string)
       (set_next_attempt_at now (set_status failed r))).

(** Every endpoint answers outside 2xx or not at all. *)
Definition always_failing (net : Network) : Prop :=
  forall history rq,
    match net history rq with
    | Response s => axios_default_validateStatus s = false
    | NetworkFailure _ => True
    end.

(** The attempt the worker makes for row [r] in world [w] is answered with
    a 2xx status. *)
Definition delivered (net : Network) (w : World) (r : Delivery) : bool :=
  match
    net (sent w)
      (DeliveryService.delivery_request (webhook_url r) (webhook_secret r)
         (payload r))
  with
  | Response st => axios_default_validateStatus st
  | NetworkFailure _ => false
  end.

(** The endpoint of row [r] never answers its delivery with 2xx. *)
Definition failing_for (net : Network) (r : Delivery) : Prop :=
  forall history,
    match
      net history
        (DeliveryService.delivery_request (webhook_url r) (webhook_secret r)
           (payload r))
    with
    | Response s => axios_default_validateStatus s = false
    | NetworkFailure _ => True
    end.

(** Where a record stands after [k] failed attempts out of [m] allowed. *)
Definition status_after (k : nat) (m : Z) : Status :=
  match k with
  | O => pending
  | S _ => if bool_decide (Z.of_nat k < m) then failed else dead_letter
  end.

(** Where record [i] stands: [c] failed attempts out of [m] so far. *)
Definition standing (i : nat) (m : Z) (c : nat) (w : World) : Prop :=
  well_formed (queue w)
  /\ Z.of_nat c <= m
  /\ exists r,
       row_of i (queue w) = Some r
       /\ attempt_count r = Z.of_nat c
       /\ max_retries r = m
       /\ status r = status_after c m.

(** What happens to the table while record [i] is being retried, labelled
    by whether it is a failed attempt on [i]:
    - the worker processes [i] out of the due batch of some tick, and the
      attempt is not answered with 2xx;
    - the worker processes another record of some due batch, with whatever
      outcome;
    - a record is enqueued.
    In the first two the job the worker holds is the record as the due
    query returns it from the table as it stands when the step starts. A
    step made with an older snapshot of the record (two workers that have
    read the same batch) is not an [activity]: the store accepts such a
    claim, and writes the count of the snapshot. *)
Inductive activity (net : Network) (i : nat) : bool -> World -> World -> Prop :=
| failed_attempt now batchLimit due job w :
    Database.getDueWebhookDeliveries now batchLimit (queue w) = Returned due ->
    job ∈ due ->
    id job = i ->
    delivered net w job = false ->
    activity net i true w (DeliveryService.processDelivery net now job w)
| other_attempt now batchLimit due job w :
    Database.getDueWebhookDeliveries now batchLimit (queue w) = Returned due ->
    job ∈ due ->
    id job <> i ->
    activity net i false w (DeliveryService.processDelivery net now job w)
| other_enqueue now accountId webhook body maxRetries w :
    activity net i false w
      (with_queue
         (Database.enqueueWebhookDelivery now accountId webhook body
            maxRetries (queue w)).2
         w).

(** A run with [k] failed attempts on record [i] and none that succeeds. *)
Inductive run (net : Network) (i : nat) : nat -> World -> World -> Prop :=
| run_done w : run net i 0 w w
| run_failure k w w1 w' :
    activity net i true w w1 -> run net i k w1 w' -> run net i (S k) w w'
| run_other k w w1 w' :
    activity net i false w w1 -> run net i k w1 w' -> run net i k w w'.

(** Record [i] has left the pool for good: no due batch contains it and no
    claim on it succeeds, whatever the time and the snapshot used. *)
Definition never_again (i : nat) (q : QueueTable) : Prop :=
  (forall now limit due job,
     Database.getDueWebhookDeliveries now limit q = Returned due ->
     job ∈ due -> id job <> i)
  /\ (forall now job,
       id job = i ->
       Database.markWebhookDeliveryProcessing now job q = (Returned None, q)).

(** ** Histories of the store *)

(** One call of a queue function of [db], with its arguments. *)
Inductive StoreCall :=
| CallEnqueue (accountId : string) (webhook : Webhook) (body : Json)
    (maxRetries : Z)
| CallClaim (job : Delivery)
| CallComplete (jobId : nat) (responseStatus : Z)
| CallFail (job : Delivery) (errorMessage : string) (nextAttemptAt : Z)
    (isDeadLetter : bool)
| CallReset (minutes : Z).

(** The table after one call made at time [now]. *)
Definition after_call (now : Z) (c : StoreCall) (t : QueueTable)
  : QueueTable :=
  match c with
  | CallEnqueue accountId webhook body maxRetries =>
      (Database.enqueueWebhookDelivery now accountId webhook body maxRetries
         t).2
  | CallClaim job => (Database.markWebhookDeliveryProcessing now job t).2
  | CallComplete jobId responseStatus =>
      (Database.completeWebhookDelivery now jobId responseStatus t).2
  | CallFail job errorMessage nextAttemptAt isDeadLetter =>
      (Database.failWebhookDelivery now job errorMessage nextAttemptAt
         isDeadLetter t).2
  | CallReset minutes => (Database.resetStuckWebhookDeliveries now minutes t).2
  end.

(** The table after a history of calls, each with its clock reading. *)
Definition after_calls (h : list (Z * StoreCall)) (t : QueueTable)
  : QueueTable :=
  foldl (fun t' c => after_call c.1 c.2 t') t h.

Definition is_enqueue (c : Z * StoreCall) : bool :=
  match c.2 with
  | CallEnqueue _ _ _ _ => true
  | _ => false
  end.

(** The columns no queue function writes after the insertion. *)
Definition same_record (r r' : Delivery) : Prop :=
  id r' = id r
  /\ account_id r' = account_id r
  /\ webhook_id r' = webhook_id r
  /\ webhook_url r' = webhook_url r
  /\ webhook_secret r' = webhook_secret r
  /\ payload r' = payload r
  /\ max_retries r' = max_retries r
  /\ created_at r' = created_at r.

(** The number of rows with status [s]. *)
Definition rows_with (s : Status) (rs : list Delivery) : nat :=
  length (List.filter (fun r => bool_decide (status r = s)) rs).

(** The table after the failures [fs] of record [i] have been recorded in
    the reduced store, one call of [failWebhookDelivery] each, with its
    clock reading, message and next retry time. *)
Definition lite_failures (names : Lite.Naming) (i : nat)
    (fs : list (Z * string * Z)) (t : QueueTable) : QueueTable :=
  foldl (fun t' f => (Lite.failWebhookDelivery names f.1.1 i f.1.2 f.2 t').2)
    t fs.

(** ** The retry helper of [config/database.js]: [withRetry] *)

Module Retry.

(** [hay.includes(needle)] *)
Definition includes (needle hay : string) : bool :=
  match String.index 0 needle hay with
  | Some _ => true
  | None => false
  end.

(** [error?.code]: only the errors of PostgREST carry one. *)
Definition exn_code (e : exn) : option string :=
  match e with
  | PostgrestFailure pe => Some (code pe)
  | _ => None
  end.

(** The test [isRetryable] of the [catch] block. *)
Definition isRetryable (e : exn) : bool :=
  bool_decide (exn_code e = Some "PGRST500"%string)
  || bool_decide (exn_code e = Some "PGRST520"%string)
  || includes "520" (exn_message e)
  || includes "502" (exn_message e)
  || includes "503" (exn_message e)
  || includes "504" (exn_message e)
  || includes "fetch failed" (exn_message e)
  || includes "network" (exn_message e)
  || includes "ECONNRESET" (exn_message e)
  || includes "ETIMEDOUT" (exn_message e).

(** How the promise of [withRetry] settles: [throw lastError] after a loop
    that never ran throws [undefined]. *)
Inductive Settled (A : Type) :=
| Resolved (a : A)
| Rejected (lastError : option exn).
Arguments Resolved {A} a.
Arguments Rejected {A} lastError.

Section WithRetry.

Context {St A : Type}.

(** [fn] acts on the state [St] of whatever it closes over. *)
Variable fn : St -> completion A * St.

(** The [for] loop from [attempt] on, with [remaining] iterations to go
    ([maxRetries - attempt + 1]); the result carries the state afterwards
    and the delays slept, in order. *)
Fixpoint attempts (maxRetries remaining attempt : nat)
    (lastError : option exn) (s : St) : Settled A * St * list Z :=
  match remaining with
  | O => (Rejected lastError, s, [])
  | S remaining' =>
      match fn s with
      | (Returned a, s') => (Resolved a, s', [])
      | (Thrown error, s') =>
          if negb (isRetryable error) || (attempt =? maxRetries)%nat
          then (Rejected (Some error), s', [])
          else
            let delay := 1000 * 2 ^ (Z.of_nat attempt - 1) in
            let '(r, s'', delays) :=
              attempts maxRetries remaining' (S attempt) (Some error) s' in
            (r, s'', delay :: delays)
      end
  end.

Definition withRetry (maxRetries : nat) (s : St)
  : Settled A * St * list Z :=
  attempts maxRetries maxRetries 1 None s.

(** The outcome and the state after call number [k] (from 0) when [fn] is
    called again and again from [s]. *)
Fixpoint nth_call (k : nat) (s : St) : completion A * St :=
  match k with
  | O => fn s
  | S k' => nth_call k' (fn s).2
  end.

End WithRetry.

(** The first [k] delays of the schedule: 1000, 2000, 4000, ... *)
Definition schedule (k : nat) : list Z :=
  (fun j => 1000 * 2 ^ Z.of_nat j) <$> seq 0 k.

(** Call number [k] throws an error the helper retries. *)
Definition retryable_failure {St A} (fn : St -> completion A * St)
    (s : St) (k : nat) : Prop :=
  exists e, (nth_call fn k s).1 = Thrown e /\ isRetryable e = true.

(** [fn] instrumented with a counter of its calls. *)
Definition counted {St A} (fn : St -> completion A * St)
    (s : St * nat) : completion A * (St * nat) :=
  ((fn s.1).1, ((fn s.1).2, S s.2)).

End Retry.

(** ** Recipient addresses: [formatPhoneNumber] of the three managers

    A string is its sequence of characters; the functions look at the
    ASCII digits and at [@] only. *)

Module Phone.

(** [\d] *)
Definition is_digit (c : ascii) : bool :=
  let n := nat_of_ascii c in (Nat.leb 48 n && Nat.leb n 57)%bool.

(** [s.replace(/[^\d]/g, '')] *)
Fixpoint keep_digits (s : string) : string :=
  match s with
  | EmptyString => EmptyString
  | String c s' =>
      if is_digit c then String c (keep_digits s') else keep_digits s'
  end.

(** [s.replace(/^0+/, '')] *)
Fixpoint strip_zeros (s : string) : string :=
  match s with
  | String c s' => if Ascii.eqb c "0" then strip_zeros s' else s
  | EmptyString => EmptyString
  end.

(** [s.includes('@')] *)
Fixpoint includes_at (s : string) : bool :=
  match s with
  | EmptyString => false
  | String c s' => Ascii.eqb c "@" || includes_at s'
  end.

(** [if (cleaned.length === 10) cleaned = '91' + cleaned] *)
Definition add_country_code (cleaned : string) : string :=
  if (String.length cleaned =? 10)%nat then "91" +:+ cleaned else cleaned.

(** Every character is a digit. *)
Fixpoint digits_only (s : string) : bool :=
  match s with
  | EmptyString => true
  | String c s' => is_digit c && digits_only s'
  end.

(** The first character, if any, is not [0]. *)
Definition no_leading_zero (s : string) : Prop :=
  match s with
  | EmptyString => True
  | String c _ => c <> "0"%char
  end.

End Phone.

(** [formatPhoneNumber] of [WhatsAppManagerLite] (whatsapp-web.js, lite). *)
Module WhatsAppManagerLite.

Import Phone.

Definition formatPhoneNumber (number : string) : completion string :=
  if String.eqb number "" then Thrown (JsError "Phone number required")
  else if includes_at number then Returned number
  else
    let cleaned := strip_zeros (keep_digits number) in
    let cleaned := add_country_code cleaned in
    if (String.length cleaned <? 10)%nat
    then Thrown (JsError "Invalid phone number")
    else Returned (cleaned +:+ "@c.us").

End WhatsAppManagerLite.

(** [formatPhoneNumber] of the Baileys [WhatsAppManager]. *)
Module BaileysManager.

Import Phone.

Definition formatPhoneNumber (number : string) : string :=
  if includes_at number then number
  else
    let cleaned := strip_zeros (keep_digits number) in
    let cleaned := add_country_code cleaned in
    cleaned +:+ "@s.whatsapp.net".

End BaileysManager.

(** [formatPhoneNumber] of the whatsapp-web.js [WhatsAppManager]. *)
Module WebManager.

Import Phone.

Definition formatPhoneNumber (number : string) : string :=
  if includes_at number then number
  else
    let cleaned := strip_zeros (keep_digits number) in
    let cleaned := add_country_code cleaned in
    cleaned +:+ "@c.us".

End WebManager.

(** ** The in-memory caches *)

(** A JavaScript [Map] with string keys: its entries in insertion order,
    one per key. *)
Module JsMap.

Section JsMap.

Context {V : Type}.

(** [map.set(key, v)]: a key that is there keeps its place. *)
Fixpoint set (key : string) (v : V) (m : list (string * V))
  : list (string * V) :=
  match m with
  | [] => [(key, v)]
  | (k, x) :: m' =>
      if String.eqb k key then (k, v) :: m' else (k, x) :: set key v m'
  end.

(** [map.delete(key)] *)
Definition delete (key : string) (m : list (string * V))
  : list (string * V) :=
  List.filter (fun e => negb (String.eqb e.1 key)) m.

(** [map.get(key)] *)
Definition get (key : string) (m : list (string * V)) : option V :=
  snd <$> List.find (fun e => String.eqb e.1 key) m.

(** [map.keys().next().value] *)
Definition first_key (m : list (string * V)) : option string :=
  fst <$> head m.

(** [map.delete(map.keys().next().value)]; on an empty map the key is
    [undefined] and nothing is deleted. *)
Definition delete_first (m : list (string * V)) : list (string * V) :=
  match first_key m with
  | Some firstKey => delete firstKey m
  | None => m
  end.

(** [[...map.keys()]] *)
Definition keys (m : list (string * V)) : list string := fst <$> m.

End JsMap.

End JsMap.

(** [TinyCache] of [config/database.lite.js]. *)
Module TinyCache.

Record Item (V : Type) := mkItem {
  value : V;
  exp : Z
}.
Arguments mkItem {V} value exp.
Arguments value {V} i.
Arguments exp {V} i.

Definition maxSize : nat := 50.
Definition ttl : Z := 120000.

Section TinyCache.

Context {V : Type}.

Definition Cache := list (string * Item V).

Definition set (now : Z) (key : string) (v : V) (cache : Cache) : Cache :=
  let cache1 :=
    if (maxSize <=? length cache)%nat then JsMap.delete_first cache
    else cache in
  JsMap.set key (mkItem v (now + ttl)) cache1.

(** [null] is [None]. *)
Definition get (now : Z) (key : string) (cache : Cache)
  : option V * Cache :=
  match JsMap.get key cache with
  | None => (None, cache)
  | Some item =>
      if exp item <? now then (None, JsMap.delete key cache)
      else (Some (value item), cache)
  end.

Definition invalidate (key : string) (cache : Cache) : Cache :=
  JsMap.delete key cache.

Definition clear (cache : Cache) : Cache := [].

(** [getStats().size] *)
Definition getStats (cache : Cache) : nat := length cache.

(** One call on the cache. *)
Inductive Call :=
| CallSet (now : Z) (key : string) (v : V)
| CallGet (now : Z) (key : string)
| CallInvalidate (key : string)
| CallClear.

Definition after_call (c : Call) (cache : Cache) : Cache :=
  match c with
  | CallSet now key v => set now key v cache
  | CallGet now key => (get now key cache).2
  | CallInvalidate key => invalidate key cache
  | CallClear => clear cache
  end.

Definition after_calls (cs : list Call) (cache : Cache) : Cache :=
  foldl (fun cache' c => after_call c cache') cache cs.

End TinyCache.

Arguments Cache V : clear implicits.
Arguments Call V : clear implicits.

End TinyCache.

(** [CacheManager] of [config/database.js]. *)
Module CacheManager.

Record Item (V : Type) := mkItem {
  value : V;
  expiry : Z
}.
Arguments mkItem {V} value expiry.
Arguments value {V} i.
Arguments expiry {V} i.

(** The fields of the object; [stats] is flattened into [hits] and
    [misses]. *)
Record State (V : Type) := mkState {
  cache : list (string * Item V);
  maxSize : Z;
  defaultTTL : Z;
  hits : nat;
  misses : nat
}.
Arguments mkState {V} cache maxSize defaultTTL hits misses.
Arguments cache {V} s.
Arguments maxSize {V} s.
Arguments defaultTTL {V} s.
Arguments hits {V} s.
Arguments misses {V} s.

Section CacheManager.

Context {V : Type}.

(** [new CacheManager(maxSize, defaultTTL)] *)
Definition new (maxSize defaultTTL : Z) : State V :=
  mkState [] maxSize defaultTTL 0 0.

Definition with_cache (c : list (string * Item V)) (s : State V) : State V :=
  mkState c (maxSize s) (defaultTTL s) (hits s) (misses s).

(** [set(key, value, ttl = this.defaultTTL)] *)
Definition set (now : Z) (key : string) (v : V) (ttl : option Z)
    (s : State V) : State V :=
  let ttl := default (defaultTTL s) ttl in
  let cache1 :=
    if maxSize s <=? Z.of_nat (length (cache s))
    then JsMap.delete_first (cache s)
    else cache s in
  with_cache (JsMap.set key (mkItem v (now + ttl)) cache1) s.

Definition get (now : Z) (key : string) (s : State V)
  : option V * State V :=
  match JsMap.get key (cache s) with
  | None =>
      (None, mkState (cache s) (maxSize s) (defaultTTL s) (hits s)
               (S (misses s)))
  | Some item =>
      if expiry item <? now
      then (None, mkState (JsMap.delete key (cache s)) (maxSize s)
                    (defaultTTL s) (hits s) (S (misses s)))
      else (Some (value item),
            mkState (cache s) (maxSize s) (defaultTTL s) (S (hits s))
              (misses s))
  end.

Definition invalidate (key : string) (s : State V) : State V :=
  with_cache (JsMap.delete key (cache s)) s.

(** [invalidatePattern(pattern)]; [regex] is [new RegExp(pattern).test].
    The loop deletes while it iterates over the keys, which a [Map]
    allows: every key is visited once. *)
Definition invalidatePattern (regex : string -> bool) (s : State V)
  : State V :=
  with_cache
    (foldl (fun c key => if regex key then JsMap.delete key c else c)
       (cache s) (JsMap.keys (cache s)))
    s.

Definition clear (s : State V) : State V := with_cache [] s.

(** One call on the cache manager. *)
Inductive Call :=
| CallSet (now : Z) (key : string) (v : V) (ttl : option Z)
| CallGet (now : Z) (key : string)
| CallInvalidate (key : string)
| CallInvalidatePattern (regex : string -> bool)
| CallClear.

Definition after_call (c : Call) (s : State V) : State V :=
  match c with
  | CallSet now key v ttl => set now key v ttl s
  | CallGet now key => (get now key s).2
  | CallInvalidate key => invalidate key s
  | CallInvalidatePattern regex => invalidatePattern regex s
  | CallClear => clear s
  end.

Definition after_calls (cs : list Call) (s : State V) : State V :=
  foldl (fun s' c => after_call c s') s cs.

Definition is_get (c : Call) : bool :=
  match c with
  | CallGet _ _ => true
  | _ => false
  end.

(** One entry per key, and no more entries than [maxSize] allows. *)
Definition well_sized (s : State V) : Prop :=
  NoDup (JsMap.keys (cache s))
  /\ Z.of_nat (length (cache s)) <= Z.max 1 (maxSize s).

End CacheManager.

Arguments Call V : clear implicits.

End CacheManager.

(** ** The message log queues *)

(** A message to log: a JavaScript object, its properties by name. A
    property that is [undefined] is one that is not there. *)
Abbreviation Message := (gmap string Json).

(** [MessageQueue] of [config/database.js].

    [flush] is [async]: it runs up to the [await] on the insert, and takes
    up again when the insert has settled. In between, the batch it has
    taken off the queue is its local variable [batch]: [in_flight]. *)
Module MessageQueue.

Record State := mkState {
  queue : list Message;
  processing : bool;
  batchSize : Z;
  lastFlush : Z;
  in_flight : option (list Message)
}.

(** [new MessageQueue()] at time [now], [batchSize] being
    [parseInt(process.env.WA_MESSAGE_BATCH_SIZE) || 10]. *)
Definition new (now : Z) (batchSize : Z) : State :=
  mkState [] false batchSize now None.

Definition validColumns : list string :=
  ["account_id"; "webhook_id"; "direction"; "message_id"; "sender";
   "recipient"; "message"; "media"; "timestamp"; "type"; "chat_id";
   "is_group"; "group_name"; "status"; "error_message"; "created_at"]%string.

(** The body of [batch.map]: [clean] is filled column by column. *)
Definition sanitize (m : Message) : Message :=
  foldl (fun clean col =>
           match m !! col with
           | Some v => <[col := v]> clean
           | None => clean
           end)
    ∅ validColumns.

(** [flush()] up to its [await]: the state, and the rows handed to
    [supabase.from('message_logs').insert] if an insert is started.
    [splice(0, batchSize)] takes nothing when [batchSize] is negative. *)
Definition flush (now : Z) (s : State) : State * option (list Message) :=
  if processing s || bool_decide (length (queue s) = 0%nat) then (s, None)
  else
    let batch := take (Z.to_nat (batchSize s)) (queue s) in
    (mkState (drop (Z.to_nat (batchSize s)) (queue s)) true (batchSize s) now
       (Some batch),
     Some (sanitize <$> batch)).

(** How the insert settles. *)
Inductive Settlement :=
| Inserted
| Refused (e : PostgrestError)
| Threw (e : exn).

(** [flush()] from its [await] on: the batch goes back to the front of the
    queue unless the rows were inserted. *)
Definition flush_settled (o : Settlement) (s : State) : State :=
  match in_flight s with
  | None => s
  | Some batch =>
      let queue' :=
        match o with
        | Inserted => queue s
        | Refused _ | Threw _ => batch ++ queue s
        end in
      mkState queue' false (batchSize s) (lastFlush s) None
  end.

(** [add(message)] *)
Definition add (now : Z) (message : Message) (s : State)
  : State * option (list Message) :=
  let s1 :=
    mkState (queue s ++ [<["queued_at"%string := JNumber now]> message])
      (processing s) (batchSize s) (lastFlush s) (in_flight s) in
  if bool_decide (batchSize s1 <= Z.of_nat (length (queue s1)))
  then flush now s1
  else (s1, None).

(** What happens to the queue: a message is added, [flush] is called (by
    the interval timer or by [db.flushMessageQueue]), the insert in flight
    settles. *)
Inductive Event :=
| Add (now : Z) (message : Message)
| Flush (now : Z)
| Settle (o : Settlement).

(** The queue and the table [message_logs] after an event. *)
Definition step (e : Event) (w : State * list Message)
  : State * list Message :=
  let '(s, message_logs) := w in
  match e with
  | Add now message => ((add now message s).1, message_logs)
  | Flush now => ((flush now s).1, message_logs)
  | Settle o =>
      match in_flight s, o with
      | Some batch, Inserted =>
          (flush_settled o s, message_logs ++ (sanitize <$> batch))
      | _, _ => (flush_settled o s, message_logs)
      end
  end.

Definition run (es : list Event) (w : State * list Message)
  : State * list Message :=
  foldl (fun w' e => step e w') w es.

(** The messages added, as queued, in order. *)
Definition added (es : list Event) : list Message :=
  es ≫= fun e =>
          match e with
          | Add now message => [<["queued_at"%string := JNumber now]> message]
          | _ => []
          end.

(** What the queue accounts for: the messages inserted, the batch in
    flight and the messages waiting, in that order. *)
Definition accounted (delivered : list Message) (s : State) : list Message :=
  delivered ++ default [] (in_flight s) ++ queue s.

(** The flag [processing] is set exactly while an insert is in flight. *)
Definition consistent (s : State) : Prop :=
  processing s = bool_decide (is_Some (in_flight s)).

End MessageQueue.

(** The [messageQueue] object of [config/database.lite.js]. *)
Module LiteMessageQueue.

(** [flush()]: the queue afterwards, and the batch handed to the insert,
    whose outcome is not looked at. *)
Definition flush (queue : list Message)
  : list Message * option (list Message) :=
  if bool_decide (length queue = 0%nat) then (queue, None)
  else (drop 20 queue, Some (take 20 queue)).

(** [add(msg)] *)
Definition add (msg : Message) (queue : list Message)
  : list Message * option (list Message) :=
  let queue1 := queue ++ [msg] in
  if bool_decide (20 <= length queue1)%nat then flush queue1
  else (queue1, None).

Inductive Event :=
| Add (msg : Message)
| Flush.

(** The queue and the batches handed to the insert so far. *)
Definition step (e : Event) (w : list Message * list (list Message))
  : list Message * list (list Message) :=
  let '(queue, batches) := w in
  let '(queue', batch) :=
    match e with
    | Add msg => add msg queue
    | Flush => flush queue
    end in
  (queue', batches ++ option_list batch).

Definition run (es : list Event) (w : list Message * list (list Message))
  : list Message * list (list Message) :=
  foldl (fun w' e => step e w') w es.

Definition added (es : list Event) : list Message :=
  es ≫= fun e => match e with Add msg => [msg] | Flush => [] end.

End LiteMessageQueue.

(** ** The reply route [POST /api/webhook-reply]

    The route is not behind [requireAuth]: the secret of a webhook of the
    account is what admits a request. *)

Module ReplyRoute.

(** The values a field of the JSON body can have, the field being absent
    included. *)
Inductive JsValue :=
| JsUndefined
| JsNull
| JsBool (b : bool)
| JsNumber (z : Z)
| JsString (s : string).

(** [!!v] *)
Definition truthy (v : JsValue) : bool :=
  match v with
  | JsUndefined | JsNull => false
  | JsBool b => b
  | JsNumber z => negb (z =? 0)
  | JsString s => negb (String.eqb s "")
  end.

(** [a || b] *)
Definition js_or (a b : JsValue) : JsValue := if truthy a then a else b.

(** [webhook.secret === webhook_secret], the left side being a column of
    type TEXT: a string or [null]. *)
Definition strict_eq (secret : option string) (v : JsValue) : bool :=
  match secret, v with
  | Some s, JsString s' => String.eqb s s'
  | None, JsNull => true
  | _, _ => false
  end.

(** The field [media]: absent (or otherwise falsy), or an object with its
    properties [data], [url] and [mimetype]; a truthy value that is not an
    object has none of the three. *)
Inductive Media :=
| NoMedia
| MediaObject (data url mimetype : JsValue).

Record Body := mkBody {
  account_id : JsValue;
  number : JsValue;
  message : JsValue;
  webhook_secret : JsValue;
  media : Media;
  caption : JsValue
}.

(** A call of the WhatsApp manager. *)
Inductive Send :=
| SendMessage (accountId number message : JsValue)
| SendMedia (accountId number : JsValue) (media : Media) (caption : JsValue).

Inductive Reply :=
| BadRequest (error : string)
| NotFound
| Unauthorized
| ServerError (message : string)
| Accepted
| Result (result : Json).

(** [webhooks.find(w => w.secret === webhook_secret && w.is_active)] *)
Definition validWebhook (webhooks : list Webhook) (secret : JsValue)
  : option Webhook :=
  List.find (fun w => strict_eq (wh_secret w) secret && wh_is_active w)
    webhooks.

(** The answer once the request is admitted: at once for n8n, the send
    going on in the background with its outcome only logged; after the
    send otherwise. *)
Definition respond (isN8n : bool) (send : Send -> completion Json)
    (s : Send) : Reply * list Send :=
  if isN8n then (Accepted, [s])
  else
    match send s with
    | Returned result => (Result result, [s])
    | Thrown e => (ServerError (exn_message e), [s])
    end.

(** The handler of [index.lite.js]: the reply, and the calls of the
    WhatsApp manager it makes. *)
Definition lite_handler (isN8n : bool) (body : Body)
    (getWebhooks : completion (option (list Webhook)))
    (send : Send -> completion Json) : Reply * list Send :=
  if negb (truthy (account_id body)) || negb (truthy (number body))
  then (BadRequest "account_id and number are required", [])
  else if negb (truthy (message body))
          && match media body with
             | NoMedia => true
             | MediaObject data url _ => negb (truthy data) && negb (truthy url)
             end
  then (BadRequest
          "Either message text or media (with data or url) is required", [])
  else
    match getWebhooks with
    | Thrown e => (ServerError (exn_message e), [])
    | Returned None => (NotFound, [])
    | Returned (Some webhooks) =>
        if bool_decide (length webhooks = 0%nat) then (NotFound, [])
        else
          match validWebhook webhooks (webhook_secret body) with
          | None => (Unauthorized, [])
          | Some _ =>
              let s :=
                match media body with
                | MediaObject data url mimetype =>
                    if (truthy data || truthy url) && truthy mimetype
                    then SendMedia (account_id body) (number body)
                           (media body)
                           (js_or (caption body)
                              (js_or (message body) (JsString "")))
                    else SendMessage (account_id body) (number body)
                           (message body)
                | NoMedia =>
                    SendMessage (account_id body) (number body)
                      (message body)
                end in
              respond isN8n send s
          end
    end.

(** The handler of [index.optimized.js]. [webhooks.find] on [null] is a
    [TypeError]. *)
Definition optimized_handler (isN8n : bool) (body : Body)
    (getWebhooks : completion (option (list Webhook)))
    (send : Send -> completion Json) : Reply * list Send :=
  if negb (truthy (account_id body)) || negb (truthy (number body))
  then (BadRequest "account_id and number required", [])
  else if negb (truthy (message body))
          && match media body with NoMedia => true | _ => false end
  then (BadRequest "message or media required", [])
  else
    match getWebhooks with
    | Thrown e => (ServerError (exn_message e), [])
    | Returned None =>
        (ServerError "Cannot read properties of null (reading 'find')", [])
    | Returned (Some webhooks) =>
        match validWebhook webhooks (webhook_secret body) with
        | None => (Unauthorized, [])
        | Some _ =>
            let s :=
              match media body with
              | MediaObject data url mimetype =>
                  if truthy mimetype
                  then SendMedia (account_id body) (number body)
                         (media body)
                         (js_or (caption body)
                            (js_or (message body) (JsString "")))
                  else SendMessage (account_id body) (number body)
                         (message body)
              | NoMedia =>
                  SendMessage (account_id body) (number body) (message body)
              end in
            respond isN8n send s
        end
    end.

(** Some active webhook of the list has the secret [v]. *)
Definition admits (webhooks : list Webhook) (v : JsValue) : Prop :=
  exists w, w ∈ webhooks /\ wh_is_active w = true
            /\ strict_eq (wh_secret w) v = true.

End ReplyRoute.

(** ** [db.getWebhook] *)

Module Webhooks.

(** The table [webhooks]: there with its rows, or every query on it is
    answered with an error. *)
Inductive Table :=
| Stored (ws : list Webhook)
| Failing (e : PostgrestError).

(** What PostgREST answers to [.single()] when the rows are not exactly
    one (HTTP 406). *)
Definition not_single : PostgrestError :=
  mkPostgrestError "PGRST116"
    "Cannot coerce the result to a single JSON object".

(** [.from('webhooks').select('*').eq('id', id)] *)
Definition select_eq_id (webhookId : string) (ws : list Webhook)
  : list Webhook :=
  List.filter (fun x => String.eqb (wh_id x) webhookId) ws.

(** [.single()]: the one row, or the error. *)
Definition single (ws : list Webhook) : Reply Webhook :=
  match ws with
  | [x] => mkReply (Some x) None
  | _ => mkReply None (Some not_single)
  end.

(** [getWebhook(id)] of both stores: [if (error) throw error; return
    data;] (the full store logs the error and throws it again). *)
Definition getWebhook (webhookId : string) (t : Table)
  : completion (option Webhook) :=
  let reply :=
    match t with
    | Stored ws => single (select_eq_id webhookId ws)
    | Failing e => mkReply None (Some e)
    end in
  match error reply with
  | Some e => Thrown (PostgrestFailure e)
  | None => Returned (data reply)
  end.

End Webhooks.

(** ** Per-number settings: the cached functions of [db] on
    [account_number_settings] *)

Module NumberSettings.

(** A row of [account_number_settings] (the columns the functions use);
    [None] is SQL [NULL]. *)
Record Row := mkRow {
  account_id : string;
  phone_number : string;
  webhook_enabled : option bool;
  chatbot_enabled : option bool;
  flow_enabled : option bool;
  notes : option string;
  updated_at : Z
}.

(** What [getNumberSettings] returns: a row, or the object
    [{ webhook_enabled: true, chatbot_enabled: true, flow_enabled: true }]. *)
Inductive Settings :=
| Stored (r : Row)
| Defaults.


Inductive Table :=
| Rows (rs : list Row)
| Unavailable (e : PostgrestError).

(** The table and the process-wide [cacheManager]. *)
Definition State : Type := Table * CacheManager.State Settings.

(** [x !== false] *)
Definition not_false (x : option bool) : bool :=
  match x with
  | Some false => false
  | _ => true
  end.

(** [`number_settings:${accountId}:${normalizedPhone}`] *)
Definition cacheKey (accountId normalizedPhone : string) : string :=
  "number_settings:" +:+ accountId +:+ ":" +:+ normalizedPhone.

Definition matches (accountId normalizedPhone : string) (r : Row) : bool :=
  String.eqb (account_id r) accountId
  && String.eqb (phone_number r) normalizedPhone.

(** The error of [.single()] when the rows are not exactly one. *)
Definition not_single : PostgrestError :=
  mkPostgrestError "PGRST116"
    "JSON object requested, multiple (or no) rows returned".

(** [.select('*').eq('account_id', ...).eq('phone_number', ...).single()] *)
Definition select_single (accountId normalizedPhone : string) (t : Table)
  : Reply Row :=
  match t with
  | Rows rs =>
      match List.filter (matches accountId normalizedPhone) rs with
      | [r] => mkReply (Some r) None
      | _ => mkReply None (Some not_single)
      end
  | Unavailable e => mkReply None (Some e)
  end.

(** The whole body is in a [try] whose [catch] returns the defaults. *)
Definition getNumberSettings (now : Z) (accountId phoneNumber : string)
    (st : State) : Settings * State :=
  let '(t, c) := st in
  let normalizedPhone := Phone.keep_digits phoneNumber in
  let key := cacheKey accountId normalizedPhone in
  match CacheManager.get now key c with
  | (Some cached, c1) => (cached, (t, c1))
  | (None, c1) =>
      let reply := select_single accountId normalizedPhone t in
      let throws :=
        match error reply with
        | Some e => negb (String.eqb (code e) "PGRST116")
        | None => false
        end in
      if throws then (Defaults, (t, c1))
      else
        let settings := default Defaults (Stored <$> data reply) in
        (settings, (t, CacheManager.set now key settings (Some 300000) c1))
  end.




(** [settings.webhook_enabled !== false] *)
Definition webhook_flag (s : Settings) : bool :=
  match s with
  | Stored r => not_false (webhook_enabled r)
  | Defaults => true
  end.

Definition isWebhookEnabledForNumber (now : Z) (accountId phoneNumber : string)
    (st : State) : bool * State :=
  let '(settings, st') := getNumberSettings now accountId phoneNumber st in
  (webhook_flag settings, st').


End NumberSettings.

(** ** Saving a browser session: [_collectSessionFiles] of the lite
    manager *)

Module SessionFiles.

(** What [fs.readdir(dir, { withFileTypes: true })] lists: a file with its
    content ([stat.size] is the length of what [readFile] returns), a file
    on which [fs.stat] or [fs.readFile] throws, or a directory, whose own
    listing is [None] when [readdir] throws on it. *)
#[warnings="-register-all"] Inductive Entry :=
| File (name : string) (content : string)
| Unreadable (name : string)
| Directory (name : string) (listing : option (list Entry)).

(** The two objects the walk fills: [files] and [stats]. *)
Record Collected := mkCollected {
  files : gmap string string;
  totalSize : Z
}.

Definition MAX_TOTAL : Z := 10 * 1024 * 1024.
Definition MAX_FILE : Z := 3 * 1024 * 1024.

(** [ESSENTIAL_DIRS.includes(name)] *)
Definition essential_name (name : string) : bool :=
  String.eqb name "IndexedDB" || String.eqb name "Local Storage".

(** [dir.includes('IndexedDB') || dir.includes('Local Storage')] *)
Definition inside_essential (dir : string) : bool :=
  Retry.includes "IndexedDB" dir || Retry.includes "Local Storage" dir.

(** [['LOCK', 'SingletonLock', 'SingletonCookie',
    'SingletonSocket'].includes(name)] *)
Definition lock_file (name : string) : bool :=
  String.eqb name "LOCK" || String.eqb name "SingletonLock"
  || String.eqb name "SingletonCookie" || String.eqb name "SingletonSocket".

(** [path.join(dir, name)] for a name of the listing of [dir]. *)
Definition join (dir name : string) : string := dir +:+ "/" +:+ name.

(** [path.relative(baseDir, path.join(dir, name))], [rel] being
    [path.relative(baseDir, dir)]. *)
Definition join_relative (rel name : string) : string :=
  if String.eqb rel "" then name else rel +:+ "/" +:+ name.

Section Walk.

(** [content.toString('base64')] *)
Variable base64 : string -> string.

(** The body of the [for] loop for one entry of the listing of [dir]:
    what has been collected afterwards, and whether an exception has left
    the loop. A recursive call has its own [try]/[catch]: it never
    throws. *)
Fixpoint visit (dir rel : string) (entry : Entry) (acc : Collected)
  {struct entry} : Collected * bool :=
  match entry with
  | Directory name listing =>
      if String.eqb name "Default" || essential_name name
         || inside_essential dir
      then
        (match listing with
         | None => acc
         | Some entries =>
             (fix entries_loop (es : list Entry) (acc : Collected)
                : Collected :=
                match es with
                | [] => acc
                | e :: es' =>
                    if MAX_TOTAL <? totalSize acc then acc
                    else
                      let '(acc', threw) :=
                        visit (join dir name) (join_relative rel name) e acc
                      in
                      if threw then acc' else entries_loop es' acc'
                end) entries acc
         end,
         false)
      else (acc, false)
  | File name content =>
      if negb (inside_essential dir) then (acc, false)
      else if lock_file name then (acc, false)
      else
        let size := Z.of_nat (String.length content) in
        if (size =? 0) || (MAX_FILE <? size) then (acc, false)
        else
          (mkCollected
             (<[join_relative rel name := base64 content]> (files acc))
             (totalSize acc + size),
           false)
  | Unreadable name =>
      if negb (inside_essential dir) then (acc, false)
      else if lock_file name then (acc, false)
      else (acc, true)
  end.

(** The [for] loop over the listing of [dir]. *)
Fixpoint entries_loop (dir rel : string) (es : list Entry)
    (acc : Collected) : Collected :=
  match es with
  | [] => acc
  | e :: es' =>
      if MAX_TOTAL <? totalSize acc then acc
      else
        let '(acc', threw) := visit dir rel e acc in
        if threw then acc' else entries_loop dir rel es' acc'
  end.

(** [_collectSessionFiles(dir, baseDir, files, stats)], [listing] being
    what [readdir(dir)] answers and [rel] the path of [dir] below
    [baseDir]. *)
Definition _collectSessionFiles (dir rel : string)
    (listing : option (list Entry)) (acc : Collected) : Collected :=
  match listing with
  | None => acc
  | Some entries => entries_loop dir rel entries acc
  end.

End Walk.

(** What has been collected has only grown, and by no more than the
    budget and one file. *)
Definition within_budget (acc acc' : Collected) : Prop :=
  totalSize acc <= totalSize acc'
  /\ totalSize acc' <= Z.max (totalSize acc) MAX_TOTAL + MAX_FILE
  /\ dom (files acc) ⊆ dom (files acc').

End SessionFiles.

(** ** Sample data *)

Module Sample.

Definition body : Json := JObject [("event"%string, JString "message")].

(** A webhook with a secret and no headers of its own. *)
Definition hook : Webhook :=
  mkWebhook "wh-1" "https://example.test/hook" (Some "s3cr3t"%string) None 3
    true.

(** A record as [enqueueWebhookDelivery] leaves it at time 0. *)
Definition fresh : Delivery :=
  mkDelivery 1 "acc-1" "wh-1" "https://example.test/hook"
    (Some "s3cr3t"%string) body 3 0 pending None None 0 0 0.

Definition table : QueueTable := Rows [fresh].

Definition world : World := mkWorld table [] [] false.

(** A network whose endpoints answer 500 to everything. *)
Definition refusing : Network := fun _ _ => Response 500.

(** A second webhook, without a secret. *)
Definition open_hook : Webhook :=
  mkWebhook "wh-2" "https://example.test/open" None None 3 true.

(** A world whose queue table is missing. *)
Definition offline : World :=
  mkWorld (Unavailable missing_table_error) [] [] false.

(** The table once the record has been claimed and failed twice, each claim
    made with the record as the due query returned it. *)
Definition failed_twice : QueueTable :=
  let q0 := table in
  let '(c1, q1) := Database.markWebhookDeliveryProcessing 10 fresh q0 in
  let r1 := default fresh (default None (match c1 with
                                          | Returned d => Some d
                                          | Thrown _ => None
                                          end)) in
  let q2 := (Database.failWebhookDelivery 11 r1 "HTTP 500" 40 false q1).2 in
  let due := match Database.getDueWebhookDeliveries 50 10 q2 with
             | Returned l => l
             | Thrown _ => []
             end in
  let snapshot := default fresh (head due) in
  let '(c3, q3) := Database.markWebhookDeliveryProcessing 50 snapshot q2 in
  let r3 := default fresh (default None (match c3 with
                                          | Returned d => Some d
                                          | Thrown _ => None
                                          end)) in
  (Database.failWebhookDelivery 51 r3 "HTTP 500" 110 false q3).2.

(** The record while a worker holds it: [processing], last written at
    time 0. *)
Definition claimed : Delivery := set_status processing fresh.

(** Two pending records: the one created first is due last. *)
Definition late : Delivery :=
  mkDelivery 1 "acc-1" "wh-1" "https://example.test/hook"
    (Some "s3cr3t"%string) body 3 0 pending None None 1900 0 0.

Definition early : Delivery :=
  mkDelivery 2 "acc-1" "wh-1" "https://example.test/hook"
    (Some "s3cr3t"%string) body 3 0 pending None None 100 1 1.

End Sample.

(** * Properties *)

(** ** Rows and keys *)

Section Keys.

Implicit Types (rs : list Delivery) (r : Delivery) (i j : nat).
Implicit Types (sel : Delivery -> bool) (f : Delivery -> Delivery).

Lemma find_key_elem rs i r :
  List.find (fun x => bool_decide (id x = i)) rs = Some r ->
  r ∈ rs /\ id r = i.
Proof.
  induction rs as [|x rs IH]; simpl; [done|].
  destruct (bool_decide_reflect (id x = i)) as [Hx|Hx].
  - intros Heq. injection Heq as ->. split; [left | done].
  - intros Hf. destruct (IH Hf) as [? ?]. split; [by right | done].
Qed.

Lemma elem_find_key rs r :
  NoDup (id <$> rs) -> r ∈ rs ->
  List.find (fun x => bool_decide (id x = id r)) rs = Some r.
Proof.
  induction rs as [|x rs IH]; simpl; intros Hnd Hin.
  - by apply elem_of_nil in Hin.
  - apply NoDup_cons in Hnd as [Hx Hnd].
    apply elem_of_cons in Hin as [-> | Hin].
    + by rewrite bool_decide_true.
    + rewrite bool_decide_false; [by apply IH|].
      intros Heq. apply Hx. rewrite Heq. by apply list_elem_of_fmap_2.
Qed.

(** In a table with a primary key, two rows with one key are one row. *)
Lemma key_unique rs r1 r2 :
  NoDup (id <$> rs) -> r1 ∈ rs -> r2 ∈ rs -> id r1 = id r2 -> r1 = r2.
Proof.
  intros Hnd H1 H2 Heq.
  pose proof (elem_find_key rs r1 Hnd H1) as E1.
  pose proof (elem_find_key rs r2 Hnd H2) as E2.
  rewrite Heq in E1. congruence.
Qed.

Lemma filter_none rs sel :
  (forall x, x ∈ rs -> sel x = false) -> List.filter sel rs = [].
Proof.
  induction rs as [|x rs IH]; intros Hsel; [done|].
  cbn [List.filter]. rewrite Hsel by left.
  apply IH. intros y Hy. apply Hsel. by right.
Qed.

(** The rows a filter on the key selects. *)
Lemma filter_by_key rs r sel :
  NoDup (id <$> rs) -> r ∈ rs ->
  (forall x, sel x = true -> id x = id r) ->
  List.filter sel rs = if sel r then [r] else [].
Proof.
  intros Hnd Hin Hsel.
  induction rs as [|x rs IH]; [by apply elem_of_nil in Hin|].
  rewrite fmap_cons in Hnd. apply NoDup_cons in Hnd as [Hx Hnd].
  cbn [List.filter].
  apply elem_of_cons in Hin as [-> | Hin].
  - rewrite filter_none; [by destruct (sel x)|].
    intros y Hy. destruct (sel y) eqn:Ey; [|done].
    exfalso. apply Hx. rewrite <- (Hsel y Ey). by apply list_elem_of_fmap_2.
  - rewrite (IH Hnd Hin). destruct (sel x) eqn:Ex; [|done].
    exfalso. apply Hx. rewrite (Hsel x Ex). by apply list_elem_of_fmap_2.
Qed.

(** The row with key [i] after an UPDATE whose values keep the key. *)
Lemma find_key_update rs i r sel f :
  (forall x, id (f x) = id x) ->
  List.find (fun x => bool_decide (id x = i)) rs = Some r ->
  List.find (fun x => bool_decide (id x = i))
    ((fun x => if sel x then f x else x) <$> rs)
  = Some (if sel r then f r else r).
Proof.
  intros Hf. induction rs as [|x rs IH]; simpl; [done|].
  assert (id (if sel x then f x else x) = id x)
    as Hid by (destruct (sel x); [apply Hf | done]).
  rewrite Hid. destruct (bool_decide_reflect (id x = i)) as [Hx|Hx].
  - intros Heq. injection Heq as Heq. subst x i. done.
  - done.
Qed.

(** The other rows are found as before. *)
Lemma find_key_frame rs i j sel f :
  (forall x, id (f x) = id x) ->
  (forall x, sel x = true -> id x = i) ->
  j <> i ->
  List.find (fun x => bool_decide (id x = j))
    ((fun x => if sel x then f x else x) <$> rs)
  = List.find (fun x => bool_decide (id x = j)) rs.
Proof.
  intros Hf Hsel Hj. induction rs as [|x rs IH]; [done|].
  rewrite fmap_cons. cbn [List.find]. rewrite IH.
  destruct (sel x) eqn:Ex; [|done].
  rewrite Hf. rewrite (bool_decide_false (id x = j)); [done|].
  rewrite (Hsel x Ex). auto.
Qed.

Lemma find_app_Some {A} (p : A -> bool) (l l' : list A) x :
  List.find p l = Some x -> List.find p (l ++ l') = Some x.
Proof.
  induction l as [|y l IH]; simpl; [done|]. destruct (p y); [done|exact IH].
Qed.

Lemma update_keeps_keys rs sel f :
  (forall x, id (f x) = id x) ->
  id <$> ((fun x => if sel x then f x else x) <$> rs) = id <$> rs.
Proof.
  intros Hf. rewrite <- list_fmap_compose. apply list_fmap_ext.
  intros _ x _. simpl. destruct (sel x); [apply Hf | done].
Qed.

(** An UPDATE that selects no row leaves the table as it is. *)
Lemma update_nothing rs sel f :
  (forall x, x ∈ rs -> sel x = false) ->
  (fun x => if sel x then f x else x) <$> rs = rs.
Proof.
  intros Hp. induction rs as [|x rs IH]; simpl; [done|].
  rewrite Hp by left. f_equal. apply IH. intros y Hy. apply Hp. by right.
Qed.

Lemma row_of_Rows i q r :
  row_of i q = Some r -> exists rs, q = Rows rs /\ r ∈ rs /\ id r = i.
Proof.
  destruct q as [rs|e]; simpl; [|done].
  intros Hf. apply find_key_elem in Hf as [? ?]. eauto.
Qed.

(** An UPDATE filtered on the key [i], on a table that has the row [r]
    under that key: the answer carries the row as written when the filters
    accept [r] and nothing otherwise, and only that row can change. *)
Lemma update_by_key now f sel q i r :
  (forall x, id (f x) = id x) ->
  (forall x, sel x = true -> id x = i) ->
  well_formed q -> row_of i q = Some r ->
  let written := Supabase.update_updated_at_column now (f r) in
  exists q',
    Supabase.update now f sel q
      = (mkReply (Some (if sel r then [written] else [])) None, q')
    /\ well_formed q'
    /\ row_of i q' = Some (if sel r then written else r)
    /\ (forall j, j <> i -> row_of j q' = row_of j q)
    /\ (sel r = false -> q' = q).
Proof.
  intros Hf Hsel Hwf Hrow written.
  destruct (row_of_Rows _ _ _ Hrow) as (rs & -> & Hin & Hid).
  simpl in Hwf, Hrow. unfold Supabase.update.
  assert (forall x, id (Supabase.update_updated_at_column now (f x)) = id x)
    as Hw by (intros x; simpl; apply Hf).
  eexists. split; [|split; [|split; [|split]]].
  - f_equal. f_equal. f_equal.
    rewrite (filter_by_key rs r sel Hwf Hin).
    + by destruct (sel r).
    + intros x Hx. rewrite Hid. by apply Hsel.
  - simpl. by rewrite update_keeps_keys.
  - simpl. by rewrite (find_key_update rs i r sel _ Hw Hrow).
  - intros j Hj. simpl. by apply find_key_frame with (i := i).
  - intros Hr. f_equal. apply update_nothing.
    intros x Hx. destruct (sel x) eqn:Ex; [|done].
    assert (x = r) as ->; [|congruence].
    apply (key_unique rs); auto. rewrite Hid. by apply Hsel.
Qed.

End Keys.

(** ** The claim: [markWebhookDeliveryProcessing] *)

Section Claim.

Import Supabase Database.

Implicit Types (rs : list Delivery) (r job : Delivery) (q : QueueTable).

Lemma status_in_claimable r :
  status_in [pending; failed] r = true <-> claimable (status r).
Proof.
  unfold status_in, claimable. rewrite bool_decide_eq_true.
  rewrite !elem_of_cons, elem_of_nil. tauto.
Qed.

Lemma status_in_not_claimable r :
  ~ claimable (status r) -> status_in [pending; failed] r = false.
Proof.
  intros Hn. destruct (status_in [pending; failed] r) eqn:E; [|done].
  by apply status_in_claimable in E.
Qed.

(** A claim on a row that is not [pending] or [failed] when the statement
    runs answers [null] and writes nothing. *)
Lemma claim_lost now job q r :
  well_formed q -> row_of (id job) q = Some r -> ~ claimable (status r) ->
  markWebhookDeliveryProcessing now job q = (Returned None, q).
Proof.
  intros Hwf Hrow Hst. unfold markWebhookDeliveryProcessing.
  edestruct (update_by_key now) as (q' & -> & _ & _ & _ & Hsame);
    [| |exact Hwf|exact Hrow|].
  - done.
  - intros x [Hx _]%andb_true_iff. by apply bool_decide_eq_true in Hx.
  - rewrite (status_in_not_claimable r Hst), andb_false_r in *.
    by rewrite Hsame.
Qed.

(** A claim on a row that is [pending] or [failed] answers the row as
    written: [processing], with the snapshot's count plus one. *)
Lemma claim_won now job q r :
  well_formed q -> row_of (id job) q = Some r -> claimable (status r) ->
  exists r' q',
    markWebhookDeliveryProcessing now job q = (Returned (Some r'), q')
    /\ well_formed q'
    /\ row_of (id job) q' = Some r'
    /\ (forall j, j <> id job -> row_of j q' = row_of j q)
    /\ status r' = processing
    /\ attempt_count r' = attempt_count job + 1
    /\ id r' = id r /\ max_retries r' = max_retries r
    /\ webhook_url r' = webhook_url r /\ webhook_secret r' = webhook_secret r
    /\ payload r' = payload r.
Proof.
  intros Hwf Hrow Hst. unfold markWebhookDeliveryProcessing.
  assert (id r = id job) as Hid.
  { destruct (row_of_Rows _ _ _ Hrow) as (? & _ & _ & ?). done. }
  edestruct (update_by_key now) as (q' & -> & Hwf' & Hrow' & Hframe & _);
    [| |exact Hwf|exact Hrow|].
  - done.
  - intros x [Hx _]%andb_true_iff. by apply bool_decide_eq_true in Hx.
  - rewrite (proj2 (status_in_claimable r) Hst) in *.
    rewrite bool_decide_true in * by done. simpl in *.
    eexists _, _. split; [reflexivity|]. repeat split; done.
Qed.

End Claim.

(** C1. A claim is a compare-and-swap on [status]. For a record of a
    well-formed table whose status is [pending] or [failed], two claims
    racing with the record as both have read it settle as follows: the first
    to be written receives the updated record, now [processing] with
    [attempt_count] one above the record's, and the other (whatever snapshot
    of the record it holds) receives [null] and writes nothing, so the count
    has grown by exactly one. For a record in any other status every claim
    receives [null] and writes nothing. *)
Theorem claim_race_single_winner :
  forall q i r,
    well_formed q -> row_of i q = Some r ->
    (claimable (status r) ->
     forall now1 now2 job2, id job2 = i ->
       exists r' q1,
         Database.markWebhookDeliveryProcessing now1 r q
           = (Returned (Some r'), q1)
         /\ Database.markWebhookDeliveryProcessing now2 job2 q1
            = (Returned None, q1)
         /\ row_of i q1 = Some r'
         /\ status r' = processing
         /\ attempt_count r' = attempt_count r + 1)
    /\ (~ claimable (status r) ->
        forall now job, id job = i ->
          Database.markWebhookDeliveryProcessing now job q
            = (Returned None, q)).
Proof.
  intros q i r Hwf Hrow.
  assert (id r = i) as Hid.
  { destruct (row_of_Rows _ _ _ Hrow) as (? & _ & _ & ?). done. }
  split.
  - intros Hst now1 now2 job2 Hj2. subst i.
    destruct (claim_won now1 r q r Hwf Hrow Hst)
      as (r' & q1 & Hm & Hwf1 & Hrow1 & _ & Hs & Hc & _).
    exists r', q1. repeat split; try done.
    apply (claim_lost now2 job2 q1 r'); [done | by rewrite Hj2 |].
    rewrite Hs. intros [?|?]; done.
  - intros Hst now job Hj. subst i.
    apply (claim_lost now job q r); [done | by rewrite Hj | done].
Qed.

(** A run of the race of C1 on the sample table: the first claim wins and
    leaves the count at 1, the second one is lost. *)
Lemma claim_race_single_winner_witness :
  exists r' q1,
    Database.markWebhookDeliveryProcessing 10 Sample.fresh Sample.table
      = (Returned (Some r'), q1)
    /\ Database.markWebhookDeliveryProcessing 20 Sample.fresh q1
       = (Returned None, q1)
    /\ row_of 1 q1 = Some r'
    /\ status r' = processing
    /\ attempt_count r' = 0 + 1.
Proof.
  assert (well_formed Sample.table) as Hwf by apply NoDup_singleton.
  destruct (claim_race_single_winner Sample.table 1 Sample.fresh Hwf eq_refl)
    as [Hrace _].
  exact (Hrace (or_introl eq_refl) 10 20 Sample.fresh eq_refl).
Defined.

(** C1 on the reduced store. [markWebhookDeliveryProcessing] of
    [database.lite.js] filters on [status = 'pending'] and writes [status]
    and [updated_at] only. Of two claims racing on the pending sample
    record the first receives the record and the second [null], and the
    count of the stored record is the one it had, not one more. On the same
    record in status [failed], which is one of the two statuses a claim is
    said to accept, the claim receives [null] and writes nothing. *)
Lemma lite_claim_race_uncounted :
  (exists q1,
     Lite.markWebhookDeliveryProcessing 10 Sample.fresh Sample.table
     = (Returned
          (Some (set_updated_at 10 (set_status processing Sample.fresh))),
        q1)
     /\ Lite.markWebhookDeliveryProcessing 20 Sample.fresh q1
        = (Returned None, q1)
     /\ row_of 1 q1
        = Some (set_updated_at 10 (set_status processing Sample.fresh))
     /\ attempt_count
          (set_updated_at 10 (set_status processing Sample.fresh))
        = attempt_count Sample.fresh)
  /\ claimable (status (set_status failed Sample.fresh))
  /\ Lite.markWebhookDeliveryProcessing 10 (set_status failed Sample.fresh)
       (Rows [set_status failed Sample.fresh])
     = (Returned None, Rows [set_status failed Sample.fresh]).
Proof.
  split; [|split].
  - eexists. repeat split; reflexivity.
  - by right.
  - reflexivity.
Qed.

(** ** Due records and the recovery sweep *)

Section Due.

Import Supabase Database.

Lemma Forall_filter_bool {A} (p : A -> bool) (l : list A) :
  Forall (fun x => p x = true) (List.filter p l).
Proof.
  induction l as [|x l IH]; simpl; [constructor|].
  destruct (p x) eqn:E; [by constructor | done].
Qed.

Lemma filter_bool_subseteq {A} (p : A -> bool) (l : list A) :
  List.filter p l ⊆ l.
Proof.
  induction l as [|x l IH]; simpl; [done|].
  destruct (p x).
  - intros y [->|Hy]%elem_of_cons; [left | right; by apply IH].
  - intros y Hy. right. by apply IH.
Qed.

(** The rows [getDueWebhookDeliveries] answers on a table that exists. *)
Lemma due_rows now limit rs :
  getDueWebhookDeliveries now limit (Rows rs)
  = Returned
      (take limit
         (merge_sort (by_key next_attempt_at)
            (List.filter
               (fun r => status_in [pending; failed] r
                         && bool_decide (next_attempt_at r ≤ now)) rs))).
Proof. reflexivity. Qed.

(** Whatever the error of the table, the answer is the empty list. *)
Lemma due_unavailable now limit e :
  getDueWebhookDeliveries now limit (Unavailable e) = Returned [].
Proof.
  unfold getDueWebhookDeliveries, select_ordered, check. simpl.
  by destruct (isWebhookQueueMissingError e).
Qed.

(** What a due batch holds: at most [limit] rows of the table, each
    [pending] or [failed] and due, in ascending order of
    [next_attempt_at]. *)
Lemma due_contents now limit q :
  exists due,
    getDueWebhookDeliveries now limit q = Returned due
    /\ (length due <= limit)%nat
    /\ Forall (fun r => claimable (status r) /\ next_attempt_at r <= now) due
    /\ StronglySorted (by_key next_attempt_at) due
    /\ (forall rs, q = Rows rs -> due ⊆ rs).
Proof.
  destruct q as [rs|e].
  - eexists. split; [apply due_rows|].
    set (p := fun r => status_in [pending; failed] r
                       && bool_decide (next_attempt_at r ≤ now)).
    set (sorted := merge_sort (by_key next_attempt_at) (List.filter p rs)).
    split; [rewrite length_take; lia|].
    split.
    { apply Forall_take. unfold sorted.
      rewrite merge_sort_Permutation.
      eapply Forall_impl; [apply Forall_filter_bool|].
      intros r Hr. unfold p in Hr. apply andb_true_iff in Hr as [H1 H2].
      split; [by apply status_in_claimable|].
      by apply bool_decide_eq_true in H2. }
    split.
    { apply (StronglySorted_app_1_l (by_key next_attempt_at)
               (take limit sorted) (drop limit sorted)).
      rewrite take_drop. apply StronglySorted_merge_sort; apply _. }
    intros rs' [= <-]. etrans; [apply subseteq_take|].
    unfold sorted. intros r Hr.
    rewrite merge_sort_Permutation in Hr. by apply filter_bool_subseteq in Hr.
  - exists []. split; [apply due_unavailable|].
    split; [simpl; lia|]. repeat split; try constructor. done.
Qed.

(** A member of a due batch is the row of the table under its key. *)
Lemma due_member now limit q due job :
  well_formed q ->
  getDueWebhookDeliveries now limit q = Returned due -> job ∈ due ->
  row_of (id job) q = Some job
  /\ claimable (status job) /\ next_attempt_at job <= now.
Proof.
  intros Hwf Hdue Hin.
  destruct (due_contents now limit q) as (due' & Hd & _ & Hall & _ & Hsub).
  rewrite Hdue in Hd. injection Hd as <-.
  rewrite Forall_forall in Hall. destruct (Hall _ Hin) as [Hs Ht].
  destruct q as [rs|e]; [|done]. simpl in Hwf.
  split; [|done]. simpl. apply elem_find_key; [done|].
  by apply (Hsub rs).
Qed.

(** A row that is due is in the batch of a tick with a large enough
    limit. *)
Lemma due_complete now rs r :
  r ∈ rs -> claimable (status r) -> next_attempt_at r <= now ->
  exists due,
    getDueWebhookDeliveries now (length rs) (Rows rs) = Returned due
    /\ r ∈ due.
Proof.
  intros Hin Hs Ht. eexists. split; [apply due_rows|].
  set (p := fun r => status_in [pending; failed] r
                     && bool_decide (next_attempt_at r ≤ now)).
  assert (r ∈ List.filter p rs) as Hf.
  { apply list_elem_of_In, filter_In. split; [by apply list_elem_of_In|].
    unfold p. rewrite (proj2 (status_in_claimable r) Hs).
    by rewrite bool_decide_true. }
  rewrite take_ge.
  - by rewrite merge_sort_Permutation.
  - rewrite merge_sort_Permutation.
    clear. induction rs as [|x rs IH]; simpl; [lia|].
    destruct (p x); simpl; lia.
Qed.

End Due.

(** C4. For every limit, clock reading and state of the table,
    [getDueWebhookDeliveries] returns a list of at most [limit] records, each
    of them a row whose status is [pending] or [failed] and whose
    [next_attempt_at] is not after now, in ascending order of
    [next_attempt_at]; a record that is [success], [processing] or
    [dead_letter] is never in the list. *)
Theorem due_records_sound :
  forall now limit q,
    exists due,
      Database.getDueWebhookDeliveries now limit q = Returned due
      /\ (length due <= limit)%nat
      /\ Forall (fun r => claimable (status r) /\ next_attempt_at r <= now) due
      /\ StronglySorted
           (fun a b => next_attempt_at a <= next_attempt_at b) due
      /\ Forall (fun r => status r <> success /\ status r <> processing
                          /\ status r <> dead_letter) due
      /\ (forall rs, q = Rows rs -> due ⊆ rs).
Proof.
  intros now limit q.
  destruct (due_contents now limit q)
    as (due & Hd & Hlen & Hall & Hsorted & Hsub).
  exists due. repeat split; try done.
  eapply Forall_impl; [exact Hall|].
  intros r [[Hs|Hs] _]; rewrite Hs; done.
Qed.

(** C4 on the reduced store. [getDueWebhookDeliveries] of
    [database.lite.js] orders by [created_at]: on a table with its column
    names, at time 2000, it returns the record due at 1900 before the
    record due at 100, because it was created first. On the table of
    [schema.sql] the same call returns no list at all: the filter names a
    column the table does not have, and the function throws the error of
    the refusal. *)
Lemma lite_due_by_creation :
  Lite.getDueWebhookDeliveries Lite.lite_names 2000 5
    (Rows [Sample.late; Sample.early])
  = Returned [Sample.late; Sample.early]
  /\ next_attempt_at Sample.early < next_attempt_at Sample.late
  /\ Lite.getDueWebhookDeliveries Lite.schema_sql 2000 5
       (Rows [Sample.late; Sample.early])
     = Thrown (PostgrestFailure (Lite.undefined_column "next_retry_at")).
Proof. repeat split; reflexivity. Qed.

(** C3. On a table that exists, [resetStuckWebhookDeliveries(minutes)]
    returns normally and rewrites exactly the rows that are [processing]
    and whose age [now - updated_at] has reached [minutes * 60000]
    milliseconds (a row exactly that old counts as stuck: the filter is
    [updated_at <= cutoff]). Each of them becomes [failed] with
    [next_attempt_at = now], and is in the due batch of a query made at
    [now]. Every [processing] row younger than the threshold and every row
    in another status is left as it was; no row is added, dropped or
    moved. *)
Theorem reset_stuck_exact :
  forall now minutes rs,
    exists rs',
      Database.resetStuckWebhookDeliveries now minutes (Rows rs)
        = (Returned (), Rows rs')
      /\ Forall2
           (fun r r' =>
              (status r = processing ->
               minutes * 60000 <= now - updated_at r ->
               r' = recovered now r /\ id r' = id r /\ status r' = failed
               /\ next_attempt_at r' = now
               /\ exists due,
                    Database.getDueWebhookDeliveries now (length rs')
                      (Rows rs') = Returned due
                    /\ r' ∈ due)
              /\ (status r = processing ->
                  now - updated_at r < minutes * 60000 -> r' = r)
              /\ (status r <> processing -> r' = r))
           rs rs'.
Proof.
  intros now minutes rs. eexists. split; [reflexivity|].
  set (sel := fun r => bool_decide (status r = processing)
                       && bool_decide (updated_at r ≤ now - minutes * 60000)).
  set (write := fun r =>
                  Supabase.update_updated_at_column now
                    (set_last_error
                       (Some "Recovered from unexpected shutdown"%string)
                       (set_next_attempt_at now (set_status failed r)))).
  set (rs' := (fun r => if sel r then write r else r) <$> rs).
  apply Forall2_fmap_r, Forall_Forall2_diag, Forall_forall.
  intros r Hin.
  assert ((if sel r then write r else r) ∈ rs') as Hin'.
  { unfold rs'.
    by apply (list_elem_of_fmap_2 (fun r => if sel r then write r else r)). }
  unfold compose. cbv beta. unfold sel in *.
  destruct (bool_decide_reflect (status r = processing)) as [Hs|Hs];
    destruct (bool_decide_reflect (updated_at r ≤ now - minutes * 60000))
      as [Hu|Hu]; simpl in *; repeat split; intros; try done; try lia.
  apply due_complete; [exact Hin' | by right | simpl; lia].
Qed.

(** C3 at the threshold, and on the reduced store. A [processing] record
    last written at time 0 is, at time 300000, exactly 5 minutes old, so
    not older than a threshold of 5 minutes: [resetStuckWebhookDeliveries(5)]
    of [config/database.js] recovers it all the same, its filter being
    [updated_at <= cutoff]. The sweep of [database.lite.js] takes no
    threshold: one millisecond after the record was written it moves it,
    and to [pending], not to [failed]. *)
Lemma reset_stuck_at_threshold :
  Database.resetStuckWebhookDeliveries 300000 5 (Rows [Sample.claimed])
  = (Returned (), Rows [recovered 300000 Sample.claimed])
  /\ 300000 - updated_at Sample.claimed = 5 * 60000
  /\ Lite.resetStuckWebhookDeliveries 1 (Rows [Sample.claimed])
     = (Returned (),
        Rows [set_updated_at 1 (set_status pending Sample.claimed)]).
Proof. repeat split; reflexivity. Qed.

(** ** A missing table *)

Section MissingTable.

Import Supabase Database.

Lemma missing_table_error_recognised :
  isWebhookQueueMissingError missing_table_error = true.
Proof. vm_compute. reflexivity. Qed.

(** The test looks at the code and, without regard to case, at the name of
    the table in the message. *)
Lemma other_errors_not_recognised :
  isWebhookQueueMissingError
    (mkPostgrestError "PGRST205"
       "Could not find the table 'public.webhooks' in the schema cache")
  = false
  /\ isWebhookQueueMissingError
       (mkPostgrestError "42P01"
          "relation webhook_delivery_queue does not exist")
     = false
  /\ isWebhookQueueMissingError
       (mkPostgrestError "PGRST205" "no table WEBHOOK_Delivery_Queue")
     = true.
Proof. repeat split; vm_compute; reflexivity. Qed.

(** [enqueueWebhookDelivery] and [resetStuckWebhookDeliveries] raise the
    distinguished error on a missing table. *)
Lemma missing_table_raised now accountId webhook body maxRetries minutes e :
  isWebhookQueueMissingError e = true ->
  enqueueWebhookDelivery now accountId webhook body maxRetries (Unavailable e)
    = (Thrown MissingWebhookQueueTableError, Unavailable e)
  /\ resetStuckWebhookDeliveries now minutes (Unavailable e)
     = (Thrown MissingWebhookQueueTableError, Unavailable e).
Proof.
  intros He.
  unfold enqueueWebhookDelivery, resetStuckWebhookDeliveries, check; simpl.
  by rewrite He.
Qed.

End MissingTable.

(** C5, at the failing input: with the table missing,
    [getDueWebhookDeliveries] returns the empty list,
    [markWebhookDeliveryProcessing] returns [null], and
    [completeWebhookDelivery] and [failWebhookDelivery] return [false]; none
    of the four raises [MissingWebhookQueueTableError]. *)
Theorem missing_table_swallowed :
  forall now limit job jobId responseStatus errorMessage nextAttemptAt dead,
    let q := Unavailable missing_table_error in
    Database.getDueWebhookDeliveries now limit q = Returned []
    /\ Database.markWebhookDeliveryProcessing now job q = (Returned None, q)
    /\ Database.completeWebhookDelivery now jobId responseStatus q
       = (Returned false, q)
    /\ Database.failWebhookDelivery now job errorMessage nextAttemptAt dead q
       = (Returned false, q).
Proof.
  intros. subst q. repeat split; vm_compute; reflexivity.
Qed.

(** ** The attempt count *)

Section AttemptCount.

Import Supabase Database.

(** [complete], [fail] and the recovery sweep never write [attempt_count]:
    row by row, key and count are as before. *)
Lemma count_untouched now jobId job st msg next dead minutes rs :
  forall q',
    q' = (completeWebhookDelivery now jobId st (Rows rs)).2
    \/ q' = (failWebhookDelivery now job msg next dead (Rows rs)).2
    \/ q' = (resetStuckWebhookDeliveries now minutes (Rows rs)).2 ->
    exists rs',
      q' = Rows rs'
      /\ Forall2 (fun r r' => id r' = id r
                              /\ attempt_count r' = attempt_count r
                              /\ max_retries r' = max_retries r) rs rs'.
Proof.
  intros q' [-> | [-> | ->]]; (eexists; split; [reflexivity|]);
    induction rs as [|r rs IH]; simpl; constructor; try exact IH;
    match goal with |- context [if ?b then _ else _] => destruct b end; done.
Qed.

(** [enqueue] appends one row with count 0 and leaves the others alone. *)
Lemma enqueue_appends now accountId webhook body maxRetries rs :
  exists r,
    enqueueWebhookDelivery now accountId webhook body maxRetries (Rows rs)
      = (Returned (Some r), Rows (rs ++ [r]))
    /\ attempt_count r = 0 /\ status r = pending
    /\ max_retries r = maxRetries /\ id r ∉ (id <$> rs).
Proof.
  eexists. split; [reflexivity|]. simpl. repeat split; try done.
  unfold fresh_id. intros Hin.
  assert (forall l : list nat, Forall (fun n => n <= foldr Nat.max 0 l)%nat l)
    as Hmax.
  { induction l as [|n l IH]; simpl; constructor; [lia|].
    eapply Forall_impl; [exact IH|]. simpl. lia. }
  specialize (Hmax (id <$> rs)). rewrite Forall_forall in Hmax.
  specialize (Hmax _ Hin). lia.
Qed.

End AttemptCount.

(** C6, at the failing input: the sample record has been claimed and failed
    twice and stands at [attempt_count = 2]; a claim made with the stale
    snapshot taken before the first attempt ([attempt_count = 0]) succeeds,
    because the status is [failed], and writes [attempt_count = 1]. *)
Theorem stale_claim_lowers_attempt_count :
  exists before after q',
    row_of 1 Sample.failed_twice = Some before
    /\ status before = failed
    /\ attempt_count before = 2
    /\ Database.markWebhookDeliveryProcessing 120 Sample.fresh
         Sample.failed_twice = (Returned (Some after), q')
    /\ row_of 1 q' = Some after
    /\ attempt_count after = 1.
Proof. eexists _, _, _. vm_compute. repeat split; reflexivity. Qed.

(** ** The worker step on the store *)

Section Worker.

Import Supabase Database DeliveryService.

Implicit Types (r job : Delivery) (q : QueueTable) (w : World).

(** [completeWebhookDelivery] on a row that exists. *)
Lemma complete_row now i st q r :
  well_formed q -> row_of i q = Some r ->
  exists q',
    completeWebhookDelivery now i st q = (Returned true, q')
    /\ well_formed q'
    /\ row_of i q'
       = Some (set_updated_at now
                 (set_last_error None
                    (set_response_status (Some st) (set_status success r))))
    /\ (forall j, j <> i -> row_of j q' = row_of j q).
Proof.
  intros Hwf Hrow. unfold completeWebhookDelivery.
  edestruct (update_by_key now) as (q' & -> & Hwf' & Hrow' & Hframe & _);
    [| |exact Hwf|exact Hrow|].
  - done.
  - intros x Hx. by apply bool_decide_eq_true in Hx.
  - assert (id r = i) as Hid.
    { destruct (row_of_Rows _ _ _ Hrow) as (? & _ & _ & ?). done. }
    rewrite bool_decide_true in Hrow' by done.
    eexists. split; [reflexivity|]. repeat split; done.
Qed.

(** [failWebhookDelivery] on a row that exists. *)
Lemma fail_row now job msg next dead q r :
  well_formed q -> row_of (id job) q = Some r ->
  exists q',
    failWebhookDelivery now job msg next dead q = (Returned true, q')
    /\ well_formed q'
    /\ row_of (id job) q'
       = Some (set_updated_at now
                 (set_next_attempt_at next
                    (set_last_error (Some msg)
                       (set_status (if dead then dead_letter else failed)
                          r))))
    /\ (forall j, j <> id job -> row_of j q' = row_of j q).
Proof.
  intros Hwf Hrow. unfold failWebhookDelivery.
  edestruct (update_by_key now) as (q' & -> & Hwf' & Hrow' & Hframe & _);
    [| |exact Hwf|exact Hrow|].
  - done.
  - intros x Hx. by apply bool_decide_eq_true in Hx.
  - assert (id r = id job) as Hid.
    { destruct (row_of_Rows _ _ _ Hrow) as (? & _ & _ & ?). done. }
    rewrite bool_decide_true in Hrow' by done.
    eexists. split; [reflexivity|]. repeat split; done.
Qed.

(** One attempt of the HTTP client: one request sent, the table untouched,
    and the outcome read off the answer of the network. *)
Lemma deliver_spec net url secret body w :
  let rq := delivery_request url secret body in
  deliver net url secret body w
  = (match net (sent w) rq with
     | Response st =>
         if axios_default_validateStatus st then Delivered st
         else Failed (Some st) "Non-2xx response"
     | NetworkFailure msg => Failed None msg
     end,
     with_sent rq w).
Proof.
  unfold deliver, axios_post. simpl. by destruct (net _ _).
Qed.

(** The worker step on a job whose row can be claimed: the row ends
    [success] when the attempt is answered with 2xx, and otherwise [failed]
    or, once the count has reached [max_retries], [dead_letter]; the count
    is the job's plus one either way, and no other row changes. *)
Lemma process_claimed net now job w r :
  well_formed (queue w) -> row_of (id job) (queue w) = Some r ->
  claimable (status r) ->
  let w' := processDelivery net now job w in
  well_formed (queue w')
  /\ (forall j, j <> id job -> row_of j (queue w') = row_of j (queue w))
  /\ exists r',
       row_of (id job) (queue w') = Some r'
       /\ max_retries r' = max_retries r
       /\ attempt_count r' = attempt_count job + 1
       /\ if delivered net w r
          then status r' = success /\ last_error r' = None
          else (exists msg, last_error r' = Some msg)
               /\ status r'
                  = (if bool_decide (max_retries r ≤ attempt_count job + 1)
                     then dead_letter else failed)
               /\ next_attempt_at r'
                  = now + backoffDelay (attempt_count job + 1).
Proof.
  intros Hwf Hrow Hst. unfold processDelivery, delivered.
  destruct (claim_won now job (queue w) r Hwf Hrow Hst)
    as (r1 & q1 & -> & Hwf1 & Hrow1 & Hfr1 & Hs1 & Hc1 & Hid1 & Hmr1 & Hurl
        & Hsec & Hpay).
  assert (id r = id job) as Hid.
  { destruct (row_of_Rows _ _ _ Hrow) as (? & _ & _ & ?). done. }
  rewrite deliver_spec, Hurl, Hsec, Hpay. simpl.
  rewrite <- Hid, <- Hid1 in Hrow1, Hfr1.
  rewrite <- Hid, <- Hid1.
  destruct (net _ _) as [st|msg];
    [destruct (axios_default_validateStatus st)|].
  - destruct (complete_row now (id r1) st q1 r1 Hwf1 Hrow1)
      as (q2 & -> & Hwf2 & Hrow2 & Hfr2). simpl.
    split; [done|]. split.
    { intros j Hj. rewrite Hfr2, Hfr1; done. }
    eexists. split; [exact Hrow2|]. simpl. rewrite Hmr1, Hc1. done.
  - unfold decide. cbn [nextAttemptAt deadLetter].
    destruct (fail_row now r1 "Non-2xx response"
                (now + backoffDelay (attempt_count r1))
                (bool_decide (max_retries r1 ≤ attempt_count r1)) q1 r1
                Hwf1 Hrow1) as (q2 & -> & Hwf2 & Hrow2 & Hfr2). simpl.
    split; [done|]. split.
    { intros j Hj. rewrite Hfr2, Hfr1; done. }
    eexists. split; [exact Hrow2|]. simpl. rewrite Hmr1, Hc1.
    repeat split; eauto.
  - unfold decide. cbn [nextAttemptAt deadLetter].
    destruct (fail_row now r1 msg
                (now + backoffDelay (attempt_count r1))
                (bool_decide (max_retries r1 ≤ attempt_count r1)) q1 r1
                Hwf1 Hrow1) as (q2 & -> & Hwf2 & Hrow2 & Hfr2). simpl.
    split; [done|]. split.
    { intros j Hj. rewrite Hfr2, Hfr1; done. }
    eexists. split; [exact Hrow2|]. simpl. rewrite Hmr1, Hc1.
    repeat split; eauto.
Qed.

(** A row that cannot be claimed has left the pool for good. *)
Lemma unclaimable_never_again i q r :
  well_formed q -> row_of i q = Some r -> ~ claimable (status r) ->
  never_again i q.
Proof.
  intros Hwf Hrow Hst. split.
  - intros now limit due job Hdue Hin Hid.
    destruct (due_member now limit q due job Hwf Hdue Hin) as (Hj & Hc & _).
    rewrite Hid, Hrow in Hj. injection Hj as ->. done.
  - intros now job Hid. apply (claim_lost now job q r); [done| |done].
    by rewrite Hid.
Qed.

(** A failed attempt on a record that is due can be made. *)
Lemma attempt_possible net i w r now :
  row_of i (queue w) = Some r -> claimable (status r) ->
  next_attempt_at r <= now -> delivered net w r = false ->
  activity net i true w (processDelivery net now r w).
Proof.
  intros Hrow Hs Ht Hd.
  destruct (row_of_Rows _ _ _ Hrow) as (rs & Hq & Hin & Hid).
  destruct (due_complete now rs r Hin Hs Ht) as (due & Hdue & Hdin).
  rewrite <- Hq in Hdue. by eapply failed_attempt.
Qed.

Lemma always_failing_not_delivered net w r :
  always_failing net -> delivered net w r = false.
Proof.
  intros Hnet. unfold delivered.
  specialize (Hnet (sent w)
                (delivery_request (webhook_url r) (webhook_secret r)
                   (payload r))).
  by destruct (net _ _).
Qed.

Lemma status_after_claimable k m :
  1 <= m -> Z.of_nat k <= m -> claimable (status_after k m) ->
  Z.of_nat k < m.
Proof.
  intros Hm Hk. destruct k as [|k]; [lia|]. unfold status_after.
  case_bool_decide; [done|]. intros [?|?]; done.
Qed.

Lemma status_after_final k m :
  1 <= m -> Z.of_nat k = m -> status_after k m = dead_letter.
Proof.
  intros Hm Hk. destruct k as [|k]; [lia|]. unfold status_after.
  case_bool_decide; [lia | done].
Qed.

(** Enqueueing keeps the key and the rows that are there. *)
Lemma enqueue_frame now accountId webhook body maxRetries q i r :
  well_formed q -> row_of i q = Some r ->
  let q' :=
    (enqueueWebhookDelivery now accountId webhook body maxRetries q).2 in
  well_formed q' /\ row_of i q' = Some r.
Proof.
  intros Hwf Hrow. destruct q as [rs|e]; [|done].
  destruct (enqueue_appends now accountId webhook body maxRetries rs)
    as (x & -> & _ & _ & _ & Hfresh).
  simpl in *. split.
  - rewrite fmap_app. apply NoDup_app. split; [done|]. split.
    + intros n Hn [->|[]%elem_of_nil]%elem_of_cons. done.
    + apply NoDup_singleton.
  - by apply find_app_Some.
Qed.

(** A failed attempt needs room under the ceiling and uses one unit of
    it; any other activity leaves the record where it stands. *)
Lemma activity_standing net i m c b w w1 :
  1 <= m -> standing i m c w -> activity net i b w w1 ->
  if b then Z.of_nat c < m /\ standing i m (S c) w1 else standing i m c w1.
Proof.
  intros Hm (Hwf & Hc & r & Hrow & Hcount & Hmax & Hst) Hact.
  destruct Hact as [now limit due job w Hdue Hin Hid Hdel
                   |now limit due job w Hdue Hin Hid
                   |now accountId webhook body maxRetries w].
  - destruct (due_member now limit (queue w) due job Hwf Hdue Hin)
      as (Hj & Hcl & _).
    rewrite Hid, Hrow in Hj. injection Hj as ->.
    rewrite Hst in Hcl.
    pose proof (status_after_claimable c m Hm Hc Hcl) as Hlt.
    split; [done|].
    rewrite <- Hid in Hrow.
    destruct (process_claimed net now job w job Hwf Hrow)
      as (Hwf' & _ & r' & Hrow' & Hm' & Hc' & Hout); [by rewrite Hst|].
    rewrite Hdel in Hout. destruct Hout as (_ & Hs' & _).
    split; [done|]. split; [lia|].
    exists r'. rewrite <- Hid. split; [done|]. split; [lia|].
    split; [congruence|].
    rewrite Hs', Hmax, Hcount. unfold status_after.
    repeat case_bool_decide; try done; lia.
  - destruct (due_member now limit (queue w) due job Hwf Hdue Hin)
      as (Hj & Hcl & _).
    destruct (process_claimed net now job w job Hwf Hj Hcl)
      as (Hwf' & Hframe & _).
    split; [done|]. split; [done|].
    exists r. rewrite Hframe by done. done.
  - destruct (enqueue_frame now accountId webhook body maxRetries (queue w)
                i r Hwf Hrow) as [Hwf' Hrow'].
    split; [done|]. split; [done|]. exists r. done.
Qed.

(** A failed attempt moves the due time of the record strictly forward:
    the attempt is made when the record is due, and the new due time is
    that moment plus a positive delay. *)
Lemma failed_attempt_postpones net i w w1 r :
  well_formed (queue w) -> row_of i (queue w) = Some r ->
  0 <= attempt_count r ->
  activity net i true w w1 ->
  exists r',
    row_of i (queue w1) = Some r'
    /\ next_attempt_at r < next_attempt_at r'
    /\ exists now,
         next_attempt_at r <= now
         /\ next_attempt_at r' = now + backoffDelay (attempt_count r + 1).
Proof.
  intros Hwf Hrow Hc Hact.
  inversion Hact as [now limit due job w0 Hdue Hin Hid Hdel| |]; subst.
  destruct (due_member now limit (queue w) due job Hwf Hdue Hin)
    as (Hj & Hcl & Ht).
  rewrite Hrow in Hj. injection Hj as ->.
  destruct (process_claimed net now job w job Hwf Hrow Hcl)
    as (_ & _ & r' & Hrow' & _ & _ & Hout).
  rewrite Hdel in Hout. destruct Hout as (_ & _ & Hnext).
  exists r'. split; [done|].
  assert (0 < backoffDelay (attempt_count job + 1)) as Hpos.
  { unfold backoffDelay, baseDelay.
    assert (0 < 2 ^ (attempt_count job + 1 - 1))
      by (apply Z.pow_pos_nonneg; lia).
    lia. }
  split; [lia|]. exists now. done.
Qed.

(** A run with [k] failed attempts, from a record that stands at [c]. *)
Lemma run_standing net i m k w w' :
  1 <= m -> run net i k w w' ->
  forall c, standing i m c w ->
            Z.of_nat (c + k) <= m /\ standing i m (c + k) w'.
Proof.
  intros Hm Hrun. induction Hrun as [w|k w w1 w' Hact _ IH|k w w1 w' Hact _ IH];
    intros c Hst.
  - rewrite Nat.add_0_r. split; [|done]. by destruct Hst as (_ & ? & _).
  - destruct (activity_standing net i m c true w w1 Hm Hst Hact) as [_ Hst1].
    replace (c + S k)%nat with (S c + k)%nat by lia. by apply IH.
  - apply IH. exact (activity_standing net i m c false w w1 Hm Hst Hact).
Qed.

(** The worker processing a list of jobs that are due rows of the table,
    under distinct keys, is a run for record [i] with at most one attempt
    on it. *)
Lemma batch_run net i now r :
  failing_for net r ->
  forall jobs w,
    well_formed (queue w) -> NoDup (id <$> jobs) ->
    (forall job, job ∈ jobs ->
       row_of (id job) (queue w) = Some job
       /\ claimable (status job) /\ next_attempt_at job <= now) ->
    (i ∈ (id <$> jobs) -> row_of i (queue w) = Some r) ->
    exists k,
      (k <= 1)%nat /\ (i ∉ (id <$> jobs) -> k = 0%nat)
      /\ run net i k w
           (foldl (fun w' job => processDelivery net now job w') w jobs).
Proof.
  intros Hnet jobs. induction jobs as [|job rest IH]; intros w Hwf Hnd Hjobs Hi.
  - exists 0%nat. split; [lia|]. split; [done|]. apply run_done.
  - rewrite fmap_cons in Hnd. apply NoDup_cons in Hnd as [Hfresh Hnd].
    assert (id job ∈ id <$> job :: rest) as Hhead.
    { apply (list_elem_of_fmap_2 id). left. }
    assert (forall j, j ∈ id <$> rest -> j ∈ id <$> job :: rest) as Htail.
    { intros j Hj. rewrite fmap_cons. by right. }
    destruct (Hjobs job) as (Hrow & Hcl & Hdue); [left|].
    destruct (process_claimed net now job w job Hwf Hrow Hcl)
      as (Hwf1 & Hframe & _).
    set (w1 := processDelivery net now job w) in *.
    assert (forall j, j ∈ rest ->
              row_of (id j) (queue w1) = Some j
              /\ claimable (status j) /\ next_attempt_at j <= now) as Hrest.
    { intros j Hj. destruct (Hjobs j) as (Hr & ? & ?); [by right|].
      split; [|done]. rewrite Hframe; [done|].
      intros Heq. apply Hfresh. rewrite <- Heq.
      by apply (list_elem_of_fmap_2 id). }
    assert (activity net i (bool_decide (id job = i)) w w1) as Hact.
    { destruct (row_of_Rows _ _ _ Hrow) as (rs & Hq & Hin & _).
      destruct (due_complete now rs job Hin Hcl Hdue) as (due & Hd & Hdin).
      rewrite <- Hq in Hd.
      case_bool_decide as Hid.
      - eapply failed_attempt; eauto.
        assert (job = r) as ->.
        { rewrite Hid in Hrow, Hhead. rewrite (Hi Hhead) in Hrow.
          congruence. }
        unfold delivered. specialize (Hnet (sent w)). by destruct (net _ _).
      - eapply other_attempt; eauto. }
    destruct (IH w1 Hwf1 Hnd Hrest) as (k & Hk & Hk0 & Hrun).
    { intros Hin. rewrite Hframe.
      - apply Hi. by apply Htail.
      - intros Heq. apply Hfresh. by rewrite <- Heq. }
    simpl. fold w1. case_bool_decide as Hid.
    + exists 1%nat. split; [lia|]. split.
      * intros Hni. exfalso. apply Hni. by rewrite <- Hid.
      * rewrite Hk0 in Hrun; [|by rewrite <- Hid].
        by eapply run_failure.
    + exists k. split; [done|]. split.
      * intros Hni. apply Hk0. intros Hin. apply Hni. by apply Htail.
      * by eapply run_other.
Qed.

Lemma filter_bool_sublist {A} (p : A -> bool) (l : list A) :
  List.filter p l `sublist_of` l.
Proof.
  induction l as [|x l IH]; simpl; [done|].
  destruct (p x); [by apply sublist_skip | by apply sublist_cons].
Qed.

(** The keys of a due batch are distinct. *)
Lemma due_keys_distinct now limit rs due :
  NoDup (id <$> rs) ->
  getDueWebhookDeliveries now limit (Rows rs) = Returned due ->
  NoDup (id <$> due).
Proof.
  intros Hnd Hd. rewrite due_rows in Hd. injection Hd as <-.
  eapply sublist_NoDup; [|apply fmap_sublist, sublist_take].
  rewrite merge_sort_Permutation.
  eapply sublist_NoDup; [exact Hnd|apply fmap_sublist, filter_bool_sublist].
Qed.

(** One tick of the worker loop is such a run: the batch is processed job
    by job, and record [i] is attempted at most once in it. *)
Lemma tick_run net i now batchLimit w r :
  well_formed (queue w) -> row_of i (queue w) = Some r ->
  failing_for net r ->
  exists k, (k <= 1)%nat /\ run net i k w (tick net now batchLimit w).
Proof.
  intros Hwf Hrow Hnet. unfold tick.
  destruct (due_contents now batchLimit (queue w))
    as (due & Hd & _ & Hall & _ & Hsub).
  rewrite Hd.
  destruct (batch_run net i now r Hnet due w Hwf) as (k & Hk & _ & Hrun).
  - destruct (row_of_Rows _ _ _ Hrow) as (rs & Hq & _ & _).
    rewrite Hq in Hd, Hwf. by eapply due_keys_distinct.
  - intros job Hin.
    destruct (due_member now batchLimit (queue w) due job Hwf Hd Hin)
      as (? & ? & ?). done.
  - done.
  - eauto.
Qed.

(** A worker step that moves a row into [dead_letter]. *)
Lemma dead_letter_entry net now limit due job w i r r' :
  well_formed (queue w) ->
  getDueWebhookDeliveries now limit (queue w) = Returned due -> job ∈ due ->
  row_of i (queue w) = Some r ->
  row_of i (queue (processDelivery net now job w)) = Some r' ->
  status r' = dead_letter -> status r <> dead_letter ->
  claimable (status r)
  /\ max_retries r' <= attempt_count r'
  /\ exists msg, last_error r' = Some msg.
Proof.
  intros Hwf Hdue Hin Hrow Hrow' Hs' Hs.
  destruct (due_member now limit (queue w) due job Hwf Hdue Hin)
    as (Hj & Hc & _).
  destruct (process_claimed net now job w job Hwf Hj Hc)
    as (_ & Hframe & r2 & Hrow2 & Hm2 & Hc2 & Hout).
  destruct (Nat.eq_dec i (id job)) as [->|Hne].
  - rewrite Hrow in Hj. injection Hj as ->.
    rewrite Hrow' in Hrow2. injection Hrow2 as <-.
    split; [done|].
    destruct (delivered net w job).
    + destruct Hout as [Hsucc _]. congruence.
    + destruct Hout as (Hmsg & Hst & _). split; [|done].
      rewrite Hs' in Hst. case_bool_decide; [lia | done].
  - rewrite (Hframe i Hne), Hrow in Hrow'. congruence.
Qed.

(** A worker step never writes a row that cannot be claimed. *)
Lemma unclaimable_untouched net now limit due job w i r :
  well_formed (queue w) ->
  getDueWebhookDeliveries now limit (queue w) = Returned due -> job ∈ due ->
  row_of i (queue w) = Some r -> ~ claimable (status r) ->
  row_of i (queue (processDelivery net now job w)) = Some r.
Proof.
  intros Hwf Hdue Hin Hrow Hs.
  destruct (due_member now limit (queue w) due job Hwf Hdue Hin)
    as (Hj & Hc & _).
  destruct (process_claimed net now job w job Hwf Hj Hc) as (_ & Hframe & _).
  destruct (Nat.eq_dec i (id job)) as [->|Hne].
  - rewrite Hrow in Hj. injection Hj as ->. done.
  - by rewrite (Hframe i Hne).
Qed.

End Worker.

(** C2 (on the worker step modelled from the specification). For a record
    of a well-formed table:
    - if the record is fresh ([pending], count 0, [max_retries >= 1]), then
      in every run in which its attempts all fail, interleaved at will with
      enqueues and with the processing of other records, it is attempted at
      most [max_retries] times; after [k] failed attempts the count is [k]
      and the status is [failed] while [k < max_retries]; after exactly
      [max_retries] of them the status is [dead_letter], the count equals
      [max_retries], and the record is in no due batch and wins no claim
      ever after;
    - a worker step that moves the record into [dead_letter] starts from
      [pending] or [failed] (so never from [success]), ends with
      [attempt_count >= max_retries], and has recorded the failure of the
      attempt in [last_error];
    - a record in [success] is left as it is by every worker step. *)
Theorem retry_ceiling :
  forall net i w r,
    well_formed (queue w) -> row_of i (queue w) = Some r ->
    (status r = pending -> attempt_count r = 0 -> 1 <= max_retries r ->
     forall k w',
       run net i k w w' ->
       Z.of_nat k <= max_retries r
       /\ exists r',
            row_of i (queue w') = Some r'
            /\ attempt_count r' = Z.of_nat k
            /\ status r' = status_after k (max_retries r)
            /\ (Z.of_nat k = max_retries r ->
                status r' = dead_letter /\ never_again i (queue w')))
    /\ (forall now limit due job r',
         Database.getDueWebhookDeliveries now limit (queue w) = Returned due ->
         job ∈ due ->
         row_of i (queue (DeliveryService.processDelivery net now job w))
           = Some r' ->
         status r' = dead_letter -> status r <> dead_letter ->
         claimable (status r)
         /\ max_retries r' <= attempt_count r'
         /\ exists msg, last_error r' = Some msg)
    /\ (status r = success ->
        forall now limit due job,
          Database.getDueWebhookDeliveries now limit (queue w)
            = Returned due ->
          job ∈ due ->
          row_of i (queue (DeliveryService.processDelivery net now job w))
            = Some r).
Proof.
  intros net i w r Hwf Hrow. split; [|split].
  - intros Hs Hc Hm k w' Hrun.
    assert (standing i (max_retries r) 0 w) as Hst.
    { split; [done|]. split; [lia|]. exists r. done. }
    destruct (run_standing net i (max_retries r) k w w' Hm Hrun 0%nat Hst)
      as (Hk & Hwf' & _ & r' & Hrow' & Hc' & _ & Hs').
    simpl in *. split; [done|]. exists r'. repeat split; try done.
    + rewrite Hs'. by apply status_after_final.
    + apply (unclaimable_never_again i (queue w') r' Hwf' Hrow').
      rewrite Hs', status_after_final by done. intros [?|?]; done.
    + apply (unclaimable_never_again i (queue w') r' Hwf' Hrow').
      rewrite Hs', status_after_final by done. intros [?|?]; done.
  - intros now limit due job r' Hdue Hin Hrow' Hs' Hs.
    by eapply dead_letter_entry.
  - intros Hs now limit due job Hdue Hin.
    eapply unclaimable_untouched; eauto.
    rewrite Hs. intros [?|?]; done.
Qed.

(** The run of C2 on the sample table against endpoints that answer 500:
    three failed attempts, at times that respect the backoff and with
    another record enqueued in between, end in [dead_letter] with
    count 3. *)
Lemma retry_ceiling_witness :
  exists w',
    run Sample.refusing 1 3 Sample.world w'
    /\ exists r',
         row_of 1 (queue w') = Some r'
         /\ attempt_count r' = 3
         /\ status r' = dead_letter
         /\ never_again 1 (queue w').
Proof.
  assert (exists w', run Sample.refusing 1 3 Sample.world w') as [w' Hrun].
  { eexists.
    eapply run_failure.
    { apply (attempt_possible Sample.refusing 1 Sample.world Sample.fresh 10);
        [reflexivity | by left | done | reflexivity]. }
    eapply run_other.
    { apply (other_enqueue Sample.refusing 1 20 "acc-1" Sample.open_hook
               Sample.body 5). }
    eapply run_failure.
    { eapply (attempt_possible Sample.refusing 1 _ _ 40000);
        [lazy; reflexivity | by right | done | reflexivity]. }
    eapply run_failure.
    { eapply (attempt_possible Sample.refusing 1 _ _ 110000);
        [lazy; reflexivity | by right | done | reflexivity]. }
    apply run_done. }
  exists w'. split; [exact Hrun|].
  assert (well_formed (queue Sample.world)) as Hwf by apply NoDup_singleton.
  destruct (retry_ceiling Sample.refusing 1 Sample.world Sample.fresh Hwf
              eq_refl) as [Hceiling _].
  destruct (Hceiling eq_refl eq_refl ltac:(done) 3%nat w' Hrun)
    as (_ & r' & Hrow & Hc & _ & Hlast).
  destruct (Hlast eq_refl) as [Hs Hnever].
  exists r'. repeat split; try done; apply Hnever.
Defined.

(** C2 where the ceiling is missed. In the reduced store the sample
    record ([max_retries] 3) is claimed and failed three times through
    [markWebhookDeliveryProcessing] and [failWebhookDelivery] of
    [database.lite.js]. On a table with the column names of that store it
    then has count 3 and status [failed]: that store has no [dead_letter].
    On the table of [schema.sql] the failures are not recorded: the record
    stays [processing] with count 0. In the store of [config/database.js],
    five worker steps that each hold the record as it was read before its
    first attempt, against endpoints that answer 500, are five accepted
    claims and five POSTs for the same record, and leave it [failed] with
    count 1. *)
Lemma retry_ceiling_missed :
  (exists r',
     row_of 1
       (foldl
          (fun q now =>
             (Lite.failWebhookDelivery Lite.lite_names (now + 1) 1
                "HTTP 500" (now + 30000)
                (Lite.markWebhookDeliveryProcessing now Sample.fresh q).2).2)
          Sample.table [10; 40000; 110000])
     = Some r'
     /\ max_retries r' = 3 /\ attempt_count r' = 3 /\ status r' = failed)
  /\ (exists r',
        row_of 1
          (foldl
             (fun q now =>
                (Lite.failWebhookDelivery Lite.schema_sql (now + 1) 1
                   "HTTP 500" (now + 30000)
                   (Lite.markWebhookDeliveryProcessing now Sample.fresh q).2).2)
             Sample.table [10; 40000; 110000])
        = Some r'
        /\ max_retries r' = 3 /\ attempt_count r' = 0
        /\ status r' = processing)
  /\ (exists w' r',
        foldl
          (fun w now =>
             DeliveryService.processDelivery Sample.refusing now
               Sample.fresh w)
          Sample.world [10; 20; 30; 40; 50]
        = w'
        /\ length (sent w') = 5%nat
        /\ row_of 1 (queue w') = Some r'
        /\ max_retries r' = 3 /\ attempt_count r' = 1
        /\ status r' = failed).
Proof.
  split; [|split].
  - eexists. split; [vm_compute; reflexivity|]. repeat split.
  - eexists. split; [vm_compute; reflexivity|]. repeat split.
  - eexists _, _. split; [reflexivity|].
    split; [vm_compute; reflexivity|].
    split; [vm_compute; reflexivity|]. repeat split.
Qed.

(** ** The call sites *)

Section CallSites.

Import Manager.

(** The inline fallback posts to every webhook, in order, whatever the
    network answers, and returns normally. *)
Lemma inline_attempts_all net now accountId msgData webhooks :
  forall w,
    exists w',
      inline_queueDeliveries net now accountId webhooks msgData w
        = (Returned (), w')
      /\ sent w'
         = sent w ++ (inline_request now accountId msgData <$> webhooks)
      /\ queue w' = queue w.
Proof.
  induction webhooks as [|webhook rest IH]; intros w; simpl.
  - exists w. by rewrite app_nil_r.
  - set (rq := inline_request now accountId msgData webhook).
    set (w1 := match axios_post net rq w with
               | (Returned _, w1) => w1
               | (Thrown err, w1) =>
                   with_logged
                     ("Webhook failed " +:+ wh_url webhook +:+ ": "
                      +:+ exn_message err) w1
               end).
    assert (sent w1 = sent w ++ [rq] /\ queue w1 = queue w) as [Hs Hq].
    { unfold w1, axios_post.
      destruct (net _ _); [destruct (req_validateStatus _ _)|]; done. }
    destruct (IH w1) as (w' & -> & Hs' & Hq').
    exists w'. split; [done|]. rewrite Hs', Hq', Hs, Hq.
    by rewrite <- app_assoc.
Qed.

(** The body of [queueWebhookDeliveries] catches whatever is thrown. *)
Lemma call_site_catches svc now accountId messageData getWebhooks w :
  exists w',
    queueWebhookDeliveries svc now accountId messageData getWebhooks w
      = (Returned (), w').
Proof.
  unfold queueWebhookDeliveries.
  destruct getWebhooks as [webhooks|e]; [|eauto].
  case_bool_decide; [|eauto].
  destruct (svc _ _ _ _ _) as [[[]|e] w']; eauto.
Qed.

(** When the service module cannot be loaded, the lite manager delivers
    through the inline fallback: one post per active webhook. *)
Lemma lite_manager_falls_back_inline net now accountId msgData e webhooks w :
  exists w',
    queueWebhookDeliveries (_getWebhookService net None (Thrown e)) now
      accountId msgData (Returned (Some webhooks)) w = (Returned (), w')
    /\ sent w'
       = sent w
         ++ (inline_request now accountId msgData
             <$> List.filter wh_is_active webhooks).
Proof.
  unfold queueWebhookDeliveries, _getWebhookService. simpl.
  case_bool_decide as Hlen.
  - destruct (inline_attempts_all net now accountId msgData
                (List.filter wh_is_active webhooks) w) as (w' & -> & Hs & _).
    eauto.
  - exists w. split; [done|].
    destruct (List.filter wh_is_active webhooks); simpl in *; [|lia].
    by rewrite app_nil_r.
Qed.

End CallSites.

(** C7. [queueWebhookDeliveries] (and [_queueWebhooks], which has the same
    body) returns normally whatever [db.getWebhooks] and the delivery
    service do, including when either throws; and the inline
    [queueDeliveries] returns normally whatever the network answers, having
    posted once to every webhook of the call, in order: a failed post does
    not stop the loop. *)
Theorem queue_deliveries_never_raises :
  (forall svc now accountId messageData getWebhooks w,
     exists w',
       Manager.queueWebhookDeliveries svc now accountId messageData
         getWebhooks w = (Returned (), w'))
  /\ (forall net now accountId webhooks msgData w,
       exists w',
         Manager.inline_queueDeliveries net now accountId webhooks msgData w
           = (Returned (), w')
         /\ sent w'
            = sent w
              ++ (Manager.inline_request now accountId msgData <$> webhooks)
         /\ queue w' = queue w).
Proof.
  split.
  - intros. apply call_site_catches.
  - intros. apply inline_attempts_all.
Qed.

(** ** The facade and its fallback *)

Section Facade.

Import Database DeliveryService.

(** The direct attempt: one request, nothing written to the table, and a
    line in the log when the attempt fails. *)
Lemma sendDirect_spec net webhook body w :
  let w' := sendDirect net webhook body w in
  sent w'
  = sent w ++ [delivery_request (wh_url webhook) (wh_secret webhook) body]
  /\ queue w' = queue w
  /\ queueUnavailable w' = queueUnavailable w
  /\ (always_failing net -> length (logged w') = S (length (logged w))).
Proof.
  unfold sendDirect. rewrite deliver_spec.
  repeat split;
    try (destruct (net _ _) as [st|msg];
         [destruct (axios_default_validateStatus st)|]; done).
  intros Hnet.
  specialize (Hnet (sent w)
                (delivery_request (wh_url webhook) (wh_secret webhook) body)).
  destruct (net _ _) as [st|msg]; [rewrite Hnet|];
    simpl; rewrite length_app; simpl; lia.
Qed.

(** With the table missing, the facade answers every webhook of the call
    with one direct attempt. *)
Lemma facade_falls_back net now accountId body e webhooks :
  isWebhookQueueMissingError e = true ->
  forall w,
    queue w = Unavailable e ->
    exists w',
      queueDeliveries net now accountId webhooks body w = (Returned (), w')
      /\ sent w'
         = sent w
           ++ ((fun wh => delivery_request (wh_url wh) (wh_secret wh) body)
               <$> webhooks)
      /\ queue w' = Unavailable e
      /\ (queueUnavailable w = true \/ webhooks <> [] ->
          queueUnavailable w' = true)
      /\ (always_failing net ->
          length (logged w') = (length (logged w) + length webhooks)%nat).
Proof.
  intros He. induction webhooks as [|webhook rest IH]; intros w Hq.
  - exists w. simpl. rewrite app_nil_r.
    repeat split; try done; try (intros [?|?]; done); intros _; lia.
  - cbn [queueDeliveries].
    set (w1 := if queueUnavailable w then _ else _).
    assert (sent w1
            = sent w
              ++ [delivery_request (wh_url webhook) (wh_secret webhook) body]
            /\ queue w1 = Unavailable e
            /\ queueUnavailable w1 = true
            /\ (always_failing net ->
                length (logged w1) = S (length (logged w))))
      as (Hs & Hq1 & Hf & Hl).
    { unfold w1. destruct (queueUnavailable w) eqn:Hflag.
      - destruct (sendDirect_spec net webhook body w) as (-> & -> & -> & Hl).
        done.
      - rewrite Hq.
        destruct (missing_table_raised now accountId webhook body
                    (wh_max_retries webhook) 0 e He) as (-> & _).
        destruct (sendDirect_spec net webhook body
                    (with_queueUnavailable true
                       (with_queue (Unavailable e) w)))
          as (-> & -> & -> & Hl).
        done. }
    destruct (IH w1 Hq1) as (w' & -> & Hs' & Hq' & Hf' & Hl').
    exists w'. split; [done|]. rewrite Hs', Hs, <- app_assoc.
    split; [done|]. split; [done|]. split.
    + intros _. apply Hf'. by left.
    + intros Hnet. rewrite (Hl' Hnet), (Hl Hnet). simpl. lia.
Qed.

(** Whatever the table and the network do, the facade returns normally. *)
Lemma facade_never_raises net now accountId body webhooks :
  forall w,
    exists w',
      queueDeliveries net now accountId webhooks body w = (Returned (), w').
Proof.
  induction webhooks as [|webhook rest IH]; intros w; simpl; eauto.
Qed.

(** With the table there, the facade writes one fresh [pending] record per
    webhook and sends nothing. *)
Lemma facade_enqueues net now accountId body webhooks :
  forall w rs,
    queue w = Rows rs -> queueUnavailable w = false ->
    exists w' added,
      queueDeliveries net now accountId webhooks body w = (Returned (), w')
      /\ queue w' = Rows (rs ++ added)
      /\ length added = length webhooks
      /\ Forall (fun r => status r = pending /\ attempt_count r = 0) added
      /\ sent w' = sent w.
Proof.
  induction webhooks as [|webhook rest IH]; intros w rs Hq Hflag.
  - exists w, []. rewrite app_nil_r. repeat split; done.
  - cbn [queueDeliveries]. rewrite Hflag, Hq.
    destruct (enqueue_appends now accountId webhook body
                (wh_max_retries webhook) rs)
      as (r & -> & Hc & Hs & _).
    destruct (IH (with_queue (Rows (rs ++ [r])) w) (rs ++ [r]) eq_refl Hflag)
      as (w' & added & -> & Hq' & Hlen & Hall & Hsent).
    exists w', (r :: added). split; [done|].
    rewrite Hq', <- app_assoc. repeat split; try done.
    + simpl. by rewrite Hlen.
    + by constructor.
Qed.

End Facade.

(** C8 (on the facade modelled from the specification). When the queue
    table is missing, so that [enqueueWebhookDelivery] raises
    [MissingWebhookQueueTableError], [queueDeliveries] returns normally
    after exactly one direct POST per webhook of the call, in order, each
    built by the HTTP client from the webhook's URL and secret; no record is
    written (the table is as before); the service remembers that the queue
    is unavailable; and when every attempt fails, each failure leaves one
    line in the log and nothing else. *)
Theorem fallback_isolation :
  forall net now accountId webhooks body e w,
    queue w = Unavailable e ->
    Database.isWebhookQueueMissingError e = true ->
    exists w',
      DeliveryService.queueDeliveries net now accountId webhooks body w
        = (Returned (), w')
      /\ sent w'
         = sent w
           ++ ((fun wh =>
                  DeliveryService.delivery_request (wh_url wh) (wh_secret wh)
                    body) <$> webhooks)
      /\ queue w' = queue w
      /\ (webhooks <> [] -> queueUnavailable w' = true)
      /\ (always_failing net ->
          length (logged w') = (length (logged w) + length webhooks)%nat).
Proof.
  intros net now accountId webhooks body e w Hq He.
  destruct (facade_falls_back net now accountId body e webhooks He w Hq)
    as (w' & Hrun & Hs & Hq' & Hf & Hl).
  exists w'. rewrite Hq. repeat split; auto.
Qed.

(** C8 on the sample: two webhooks, the table missing, endpoints that
    answer 500: two requests, no table, two log lines. *)
Lemma fallback_isolation_witness :
  exists w',
    DeliveryService.queueDeliveries Sample.refusing 0 "acc-1"
      [Sample.hook; Sample.open_hook] Sample.body Sample.offline
      = (Returned (), w')
    /\ length (sent w') = 2%nat
    /\ queue w' = Unavailable missing_table_error
    /\ queueUnavailable w' = true
    /\ length (logged w') = 2%nat.
Proof.
  destruct (fallback_isolation Sample.refusing 0 "acc-1"
              [Sample.hook; Sample.open_hook] Sample.body
              missing_table_error Sample.offline eq_refl
              missing_table_error_recognised)
    as (w' & Hrun & Hs & Hq & Hf & Hl).
  exists w'. split; [exact Hrun|]. rewrite Hs, Hq.
  repeat split; [by apply Hf | apply Hl; intros h rq; done].
Defined.

(** ** The backoff schedule *)

Section Backoff.

Import DeliveryService.

Lemma backoffDelay_positive n : 1 <= n -> 0 < backoffDelay n.
Proof.
  intros Hn. unfold backoffDelay, baseDelay.
  assert (0 < 2 ^ (n - 1)) by (apply Z.pow_pos_nonneg; lia). lia.
Qed.

Lemma backoffDelay_doubles n :
  1 <= n -> backoffDelay (n + 1) = 2 * backoffDelay n.
Proof.
  intros Hn. unfold backoffDelay.
  replace (n + 1 - 1) with (Z.succ (n - 1)) by lia.
  rewrite Z.pow_succ_r by lia. lia.
Qed.

Lemma backoffDelay_unbounded bound : exists n, 1 <= n /\ bound < backoffDelay n.
Proof.
  exists (Z.abs bound + 1). split; [lia|].
  unfold backoffDelay, baseDelay.
  replace (Z.abs bound + 1 - 1) with (Z.abs bound) by lia.
  pose proof (Z.pow_gt_lin_r 2 (Z.abs bound) ltac:(lia) ltac:(lia)). lia.
Qed.

End Backoff.

(** C10 (on the policy modelled from the specification). For a failed
    attempt with [1 <= attemptCount < maxRetries] the policy reschedules the
    record at [now + 30000 * 2^(attemptCount-1)] milliseconds; the delay is
    positive and doubles with each attempt (30 s, 60 s, 120 s, ...), without
    a cap; hence, the clock not running backwards, the time computed for the
    next failure is strictly later than the one computed for this one. *)
Theorem backoff_schedule :
  forall attemptCount maxRetries now st msg,
    1 <= attemptCount -> attemptCount < maxRetries ->
    let v :=
      DeliveryService.decide now attemptCount maxRetries
        (DeliveryService.Failed st msg) in
    DeliveryService.retry v = true
    /\ DeliveryService.deadLetter v = false
    /\ DeliveryService.nextAttemptAt v
       = now + 30000 * 2 ^ (attemptCount - 1)
    /\ DeliveryService.backoffDelay (attemptCount + 1)
       = 2 * DeliveryService.backoffDelay attemptCount
    /\ (forall now',
         now <= now' ->
         DeliveryService.nextAttemptAt v
         < DeliveryService.nextAttemptAt
             (DeliveryService.decide now' (attemptCount + 1) maxRetries
                (DeliveryService.Failed st msg)))
    /\ DeliveryService.backoffDelay 1 = 30000
    /\ DeliveryService.backoffDelay 2 = 60000
    /\ DeliveryService.backoffDelay 3 = 120000
    /\ (forall bound,
         exists n, 1 <= n /\ bound < DeliveryService.backoffDelay n).
Proof.
  intros attemptCount maxRetries now st msg H1 Hlt v. subst v.
  unfold DeliveryService.decide. simpl.
  rewrite bool_decide_false by lia.
  pose proof (backoffDelay_positive attemptCount H1) as Hpos.
  pose proof (backoffDelay_doubles attemptCount H1) as Hdbl.
  repeat split; try done.
  - intros now' Hnow. lia.
  - apply backoffDelay_unbounded.
Qed.

(** C10 at the second failure of a record with five retries. *)
Lemma backoff_schedule_witness :
  let v :=
    DeliveryService.decide 1000 2 5 (DeliveryService.Failed (Some 500) "") in
  DeliveryService.retry v = true
  /\ DeliveryService.nextAttemptAt v = 1000 + 60000.
Proof.
  destruct (backoff_schedule 2 5 1000 (Some 500) "" ltac:(done) ltac:(done))
    as (Hr & _ & Hn & _).
  split; [exact Hr | exact Hn].
Defined.

(** ** The wire contract *)

Section Wire.

Import TestRoute.

(** Lookups in a header object built by insertions. *)
Local Ltac header_lookup :=
  repeat first
    [ done
    | apply lookup_insert_eq
    | apply lookup_singleton_eq
    | apply lookup_singleton_ne; done
    | rewrite lookup_insert_ne by done ].

(** The request of the test route of [index.optimized.js]: a POST with
    [Content-Type: application/json], the secret header exactly when the
    webhook has a secret, a 10 second timeout, every status accepted. *)
Lemma optimized_request_conforms now accountId webhook :
  let rq := optimized_request now accountId webhook in
  req_method rq = POST
  /\ req_url rq = wh_url webhook
  /\ req_headers rq !! content_type = Some application_json
  /\ req_headers rq !! x_webhook_secret = truthy (wh_secret webhook)
  /\ req_timeout rq = 10000
  /\ (forall st, req_validateStatus rq st = true).
Proof.
  unfold optimized_request, add_secret. simpl.
  destruct (truthy (wh_secret webhook)) as [secret|]; simpl;
    repeat split; header_lookup.
Qed.

(** The same for the test route of [index.lite.js], for a webhook whose own
    headers, if it has any, name neither of the two. *)
Lemma lite_request_conforms now accountId webhook :
  (forall h, wh_headers webhook = Some h ->
             h !! content_type = None /\ h !! x_webhook_secret = None) ->
  let rq := lite_request now accountId webhook in
  req_method rq = POST
  /\ req_url rq = wh_url webhook
  /\ req_headers rq !! content_type = Some application_json
  /\ req_headers rq !! x_webhook_secret = truthy (wh_secret webhook)
  /\ req_timeout rq = 10000
  /\ (forall st, req_validateStatus rq st = true).
Proof.
  intros Hown. unfold lite_request, add_secret. simpl.
  assert (default ∅ (wh_headers webhook) !! content_type = None
          /\ default ∅ (wh_headers webhook) !! x_webhook_secret = None)
    as [Hct Hxs].
  { destruct (wh_headers webhook) as [h|]; simpl; [by apply Hown|].
    by rewrite !lookup_empty. }
  assert (forall base : gmap string string,
            (default ∅ (wh_headers webhook) ∪ base) !! content_type
            = base !! content_type) as Hu1.
  { intros base. by apply lookup_union_r. }
  assert (forall base : gmap string string,
            (default ∅ (wh_headers webhook) ∪ base) !! x_webhook_secret
            = base !! x_webhook_secret) as Hu2.
  { intros base. by apply lookup_union_r. }
  destruct (truthy (wh_secret webhook)) as [secret|]; simpl;
    repeat split; rewrite ?lookup_insert_eq, ?lookup_insert_ne, ?Hu1, ?Hu2
      by done; header_lookup.
Qed.

(** Both routes send one request and report [success] exactly for a 2xx
    status; no status makes them answer 500. *)
Lemma handler_classifies request net now accountId webhook w :
  (forall st, req_validateStatus (request now accountId webhook) st = true) ->
  handler request net now accountId (Returned (Some webhook)) w
  = (match net (sent w) (request now accountId webhook) with
     | Response st => Tested (bool_decide (200 <= st < 300)) st
     | NetworkFailure msg => ServerError msg
     end,
     with_sent (request now accountId webhook) w).
Proof.
  intros Hany. unfold handler, axios_post.
  destruct (net _ _) as [st|msg]; [|done].
  rewrite Hany. f_equal. f_equal.
  destruct (Z.leb_spec 200 st), (Z.ltb_spec st 300); simpl;
    symmetry; (apply bool_decide_eq_true_2 || apply bool_decide_eq_false_2);
    lia.
Qed.

End Wire.

(** C9, at the failing input: the inline fallback of the lite manager,
    called for the sample webhook, whose secret is set, against an endpoint
    that answers 500. The request carries no [X-Webhook-Secret] header (and
    no header at all), its [validateStatus] is the default of axios, so
    that the 500 is thrown, caught and logged; the test route of the same
    server, for the same webhook, does carry the secret. *)
Theorem inline_fallback_omits_secret :
  let rq := Manager.inline_request 0 "acc-1" Sample.body Sample.hook in
  truthy (wh_secret Sample.hook) = Some "s3cr3t"%string
  /\ req_headers rq !! TestRoute.x_webhook_secret = None
  /\ req_headers rq = ∅
  /\ req_validateStatus rq 500 = false
  /\ Manager.inline_queueDeliveries Sample.refusing 0 "acc-1" [Sample.hook]
       Sample.body Sample.world
     = (Returned (),
        mkWorld Sample.table [rq]
          ["Webhook failed https://example.test/hook: Request failed with status code 500"%string]
          false)
  /\ req_headers (TestRoute.lite_request 0 "acc-1" Sample.hook)
       !! TestRoute.x_webhook_secret
     = Some "s3cr3t"%string.
Proof.
  repeat split; reflexivity.
Qed.

(** ** The reduced store, for comparison *)

Section LiteStore.

Import Supabase.

Implicit Types (r job : Delivery) (q : QueueTable).

(** In the reduced store the due query lets the distinguished error
    through. *)
Lemma lite_due_raises names now limit e :
  Lite.isWebhookQueueMissing e = true ->
  Lite.getDueWebhookDeliveries names now limit (Unavailable e)
  = Thrown MissingWebhookQueueTableError.
Proof.
  intros He. unfold Lite.getDueWebhookDeliveries, Lite.check.
  destruct names; simpl; by rewrite He.
Qed.

(** On the table of [schema.sql] the statements of the reduced store that
    name [attempts], [next_retry_at] or [completed_at] are refused:
    enqueueing and the due query throw the error of the refusal, and
    [completeWebhookDelivery] and [failWebhookDelivery], which do not look
    at the answer, return normally and have written nothing. *)
Lemma lite_refused_on_schema now accountId webhook body maxRetries limit
    jobId st msg next rs :
  Lite.enqueueWebhookDelivery Lite.schema_sql now accountId webhook body
    maxRetries (Rows rs)
  = (Thrown (PostgrestFailure (Lite.unknown_column "attempts")), Rows rs)
  /\ Lite.getDueWebhookDeliveries Lite.schema_sql now limit (Rows rs)
     = Thrown (PostgrestFailure (Lite.undefined_column "next_retry_at"))
  /\ Lite.completeWebhookDelivery Lite.schema_sql now jobId st (Rows rs)
     = (Returned (), Rows rs)
  /\ Lite.failWebhookDelivery Lite.schema_sql now jobId msg next (Rows rs)
     = (Returned (), Rows rs).
Proof. repeat split; reflexivity. Qed.

(** In the reduced store, on a table with its names, the count is taken at
    failure time, from the row as stored: one more than the stored count,
    whatever the caller holds; at the ceiling the row ends [failed], which
    no due query of that store returns and no claim of that store
    accepts. *)
Lemma lite_fail_counts_stored now i msg next q r :
  well_formed q -> row_of i q = Some r ->
  exists q' r',
    Lite.failWebhookDelivery Lite.lite_names now i msg next q
    = (Returned (), q')
    /\ well_formed q'
    /\ row_of i q' = Some r'
    /\ attempt_count r' = attempt_count r + 1
    /\ status r'
       = (if bool_decide (Lite.or_three (max_retries r) ≤ attempt_count r + 1)
          then failed else pending).
Proof.
  intros Hwf Hrow. unfold Lite.failWebhookDelivery, Lite.naming.
  assert (id r = i) as Hid.
  { destruct (row_of_Rows _ _ _ Hrow) as (? & _ & _ & ?). done. }
  assert (Lite.select_single Lite.lite_names i q = Some r) as ->.
  { destruct q as [rs|]; [|done]. simpl in Hwf, Hrow |- *.
    destruct (find_key_elem _ _ _ Hrow) as [Hin _].
    rewrite (filter_by_key rs r _ Hwf Hin).
    - by rewrite bool_decide_true.
    - intros x Hx. apply bool_decide_eq_true in Hx. congruence. }
  simpl. case_bool_decide.
  - edestruct (update_by_key now) as (q' & -> & Hwf' & Hrow' & _);
      [| |exact Hwf|exact Hrow|].
    + done.
    + intros x Hx. by apply bool_decide_eq_true in Hx.
    + rewrite bool_decide_true in Hrow' by done.
      eexists _, _. split; [reflexivity|]. repeat split; done.
  - edestruct (update_by_key now) as (q' & -> & Hwf' & Hrow' & _);
      [| |exact Hwf|exact Hrow|].
    + done.
    + intros x Hx. by apply bool_decide_eq_true in Hx.
    + rewrite bool_decide_true in Hrow' by done.
      eexists _, _. split; [reflexivity|]. repeat split; done.
Qed.

(** In the reduced store a claim accepts [pending] only and leaves the
    count alone. *)
Lemma lite_claim_keeps_count now job q r :
  well_formed q -> row_of (id job) q = Some r ->
  exists q',
    Lite.markWebhookDeliveryProcessing now job q
    = (Returned (if bool_decide (status r = pending)
                 then Some (set_updated_at now (set_status processing r))
                 else None), q')
    /\ forall r', row_of (id job) q' = Some r' ->
                  attempt_count r' = attempt_count r.
Proof.
  intros Hwf Hrow. unfold Lite.markWebhookDeliveryProcessing.
  assert (id r = id job) as Hid.
  { destruct (row_of_Rows _ _ _ Hrow) as (? & _ & _ & ?). done. }
  edestruct (update_by_key now) as (q' & -> & Hwf' & Hrow' & _);
    [| |exact Hwf|exact Hrow|].
  - done.
  - intros x [Hx _]%andb_true_iff. by apply bool_decide_eq_true in Hx.
  - rewrite bool_decide_true in * by done. simpl in *.
    exists q'. split.
    + by destruct (bool_decide (status r = pending)).
    + intros r' Hr'. rewrite Hrow' in Hr'. injection Hr' as <-.
      by destruct (bool_decide (status r = pending)).
Qed.

(** In the reduced store the recovery sweep has no threshold: every
    [processing] row goes back to [pending], whatever its age. *)
Lemma lite_reset_ignores_age now rs :
  exists rs',
    Lite.resetStuckWebhookDeliveries now (Rows rs) = (Returned (), Rows rs')
    /\ Forall2
         (fun r r' =>
            (status r = processing ->
             r' = set_updated_at now (set_status pending r))
            /\ (status r <> processing -> r' = r))
         rs rs'.
Proof.
  eexists. split; [reflexivity|].
  induction rs as [|r rs IH]; simpl; constructor; [|exact IH].
  destruct (bool_decide_reflect (status r = processing)); simpl; split;
    intros; done.
Qed.

End LiteStore.

(** ** Histories and round trips of the store *)

Section Histories.

Import Supabase Database.

Lemma same_record_refl r : same_record r r.
Proof. by repeat split. Qed.

Lemma same_record_trans r1 r2 r3 :
  same_record r1 r2 -> same_record r2 r3 -> same_record r1 r3.
Proof.
  unfold same_record. intros (?&?&?&?&?&?&?&?) (?&?&?&?&?&?&?&?).
  repeat split; congruence.
Qed.

Lemma snd_let {A B C} (p : A * B) (g : A -> C) :
  (let '(a, b) := p in (g a, b)).2 = p.2.
Proof. by destruct p. Qed.

Lemma same_record_keys rs rs' :
  Forall2 same_record rs rs' -> id <$> rs' = id <$> rs.
Proof.
  induction 1 as [|r r' l l' Hr _ IH]; [done|].
  rewrite !fmap_cons, IH. by destruct Hr as [-> _].
Qed.

Lemma update_same_record now f sel rs :
  (forall r, same_record r (f r)) ->
  exists rs',
    (update now f sel (Rows rs)).2 = Rows rs'
    /\ Forall2 same_record rs rs'.
Proof.
  intros Hf. eexists. split; [reflexivity|].
  apply Forall2_fmap_r, Forall_Forall2_diag, Forall_forall.
  intros r _. unfold compose. cbv beta. destruct (sel r); [|apply same_record_refl].
  specialize (Hf r). unfold same_record in *. simpl. done.
Qed.

Lemma after_call_rows now c rs :
  NoDup (id <$> rs) ->
  exists rs1 new,
    after_call now c (Rows rs) = Rows (rs1 ++ new)
    /\ Forall2 same_record rs rs1
    /\ length new = (if is_enqueue (now, c) then 1%nat else 0%nat)
    /\ NoDup (id <$> (rs1 ++ new)).
Proof.
  intros Hnd.
  assert (forall f sel,
            (forall r, same_record r (f r)) ->
            exists rs1 new,
              (update now f sel (Rows rs)).2 = Rows (rs1 ++ new)
              /\ Forall2 same_record rs rs1
              /\ length new = 0%nat
              /\ NoDup (id <$> (rs1 ++ new))) as Hupd.
  { intros f sel Hf.
    destruct (update_same_record now f sel rs Hf) as (rs' & E & H2).
    exists rs', []. rewrite app_nil_r. repeat split; try done.
    by rewrite (same_record_keys _ _ H2). }
  destruct c as [acc wh body m|job|jobId st|job msg next dead|minutes];
    unfold after_call.
  - destruct (enqueue_appends now acc wh body m rs)
      as (r & -> & _ & _ & _ & Hfresh).
    exists rs, [r]. simpl. repeat split; try done.
    + apply Forall_Forall2_diag, Forall_forall. intros. apply same_record_refl.
    + rewrite fmap_app. apply NoDup_app. split; [done|]. split.
      * intros n Hn [->|[]%elem_of_nil]%elem_of_cons. done.
      * apply NoDup_singleton.
  - unfold markWebhookDeliveryProcessing.
    rewrite snd_let. apply Hupd. intros r. by repeat split.
  - unfold completeWebhookDelivery.
    rewrite snd_let. apply Hupd. intros r. by repeat split.
  - unfold failWebhookDelivery.
    rewrite snd_let. apply Hupd. intros r. by repeat split.
  - unfold resetStuckWebhookDeliveries.
    rewrite snd_let. apply Hupd. intros r. by repeat split.
Qed.

End Histories.

(** X1. Whatever calls of the queue functions are made, in whatever order
    and with whatever arguments, on a table with a primary key: no row is
    deleted, the rows that were there keep their place, key, account,
    webhook, URL, secret, payload, retry ceiling and creation time, one row
    is added per call of [enqueueWebhookDelivery], and the key stays a
    key. *)
Theorem history_keeps_records h rs :
  NoDup (id <$> rs) ->
  exists rs1 new,
    after_calls h (Rows rs) = Rows (rs1 ++ new)
    /\ Forall2 same_record rs rs1
    /\ length new = length (List.filter is_enqueue h)
    /\ NoDup (id <$> (rs1 ++ new)).
Proof.
  revert rs. induction h as [|[now c] h IH]; intros rs Hnd.
  - exists rs, []. rewrite app_nil_r. repeat split; try done.
    apply Forall_Forall2_diag, Forall_forall. intros. apply same_record_refl.
  - unfold after_calls. cbn [foldl fst snd].
    destruct (after_call_rows now c rs Hnd) as (rs1 & new1 & -> & H1 & L1 & N1).
    destruct (IH _ N1) as (rs2 & new2 & E2 & H2 & L2 & N2).
    apply Forall2_app_inv_l in H2 as (rs2a & rs2b & Ha & Hb & ->).
    exists rs2a, (rs2b ++ new2).
    unfold after_calls in E2. rewrite E2, <- app_assoc.
    split; [done|]. split.
    { clear -H1 Ha. revert rs2a Ha.
      induction H1 as [|r r1 l l1 Hr _ IHl]; intros rs2a Ha.
      - apply Forall2_nil_inv_l in Ha as ->. constructor.
      - apply Forall2_cons_inv_l in Ha as (r2 & l2 & Hr2 & Hl2 & ->).
        constructor; [by eapply same_record_trans | by apply IHl]. }
    split; [|by rewrite app_assoc].
    rewrite length_app, L2, <- (Forall2_length _ _ _ Hb), L1.
    cbn [List.filter]. destruct (is_enqueue (now, c)); simpl; lia.
Qed.

Lemma history_keeps_records_witness :
  exists rs1 new,
    after_calls
      [(5, CallClaim Sample.fresh);
       (6, CallEnqueue "acc-1" Sample.open_hook Sample.body 3);
       (7, CallFail Sample.fresh "HTTP 500" 40 true)]
      (Rows [Sample.fresh])
    = Rows (rs1 ++ new)
    /\ Forall2 same_record [Sample.fresh] rs1
    /\ length new = 1%nat
    /\ NoDup (id <$> (rs1 ++ new)).
Proof.
  apply (history_keeps_records
           [(5, CallClaim Sample.fresh);
            (6, CallEnqueue "acc-1" Sample.open_hook Sample.body 3);
            (7, CallFail Sample.fresh "HTTP 500" 40 true)]
           [Sample.fresh]).
  apply NoDup_singleton.
Defined.

Section StoreRoundTrips.

Import Supabase Database.

Implicit Types (r job : Delivery) (q : QueueTable) (rs : list Delivery).

Lemma row_of_absent i rs :
  i ∉ (id <$> rs) -> row_of i (Rows rs) = None.
Proof.
  intros Hi. simpl. destruct (List.find _ rs) as [r|] eqn:E; [|done].
  apply find_key_elem in E as [Hin <-]. exfalso. apply Hi.
  by apply list_elem_of_fmap_2.
Qed.

Lemma row_of_last rs r :
  id r ∉ (id <$> rs) -> row_of (id r) (Rows (rs ++ [r])) = Some r.
Proof.
  intros Hi. simpl. induction rs as [|x rs IH]; simpl.
  - by rewrite bool_decide_true.
  - rewrite fmap_cons in Hi. apply not_elem_of_cons in Hi as [Hx Hi].
    rewrite bool_decide_false by done. by apply IH.
Qed.

Lemma NoDup_keys_snoc rs r :
  NoDup (id <$> rs) -> id r ∉ (id <$> rs) -> NoDup (id <$> (rs ++ [r])).
Proof.
  intros Hnd Hi. rewrite fmap_app. apply NoDup_app. split; [done|]. split.
  - intros n Hn [->|[]%elem_of_nil]%elem_of_cons. done.
  - apply NoDup_singleton.
Qed.

End StoreRoundTrips.

(** X2. Enqueue, due query and claim compose. On a table with a primary
    key, [enqueueWebhookDelivery] answers the stored record: a new key,
    the webhook's id and URL, its secret with the empty string stored as
    [null], the payload and ceiling as given, [pending], count 0, due at
    once. From then on every due query with room for the whole table
    returns it, and the claim made with it succeeds and answers it as
    [processing] with count 1. *)
Theorem enqueue_due_claim now now' accountId webhook body maxRetries rs :
  NoDup (id <$> rs) -> now <= now' ->
  exists r due r' q',
    Database.enqueueWebhookDelivery now accountId webhook body maxRetries
      (Rows rs)
    = (Returned (Some r), Rows (rs ++ [r]))
    /\ (id r ∉ id <$> rs)
    /\ account_id r = accountId
    /\ webhook_id r = wh_id webhook
    /\ webhook_url r = wh_url webhook
    /\ webhook_secret r = truthy (wh_secret webhook)
    /\ payload r = body
    /\ max_retries r = maxRetries
    /\ status r = pending
    /\ attempt_count r = 0
    /\ next_attempt_at r = now
    /\ Database.getDueWebhookDeliveries now' (length (rs ++ [r]))
         (Rows (rs ++ [r]))
       = Returned due
    /\ r ∈ due
    /\ Database.markWebhookDeliveryProcessing now' r (Rows (rs ++ [r]))
       = (Returned (Some r'), q')
    /\ row_of (id r) q' = Some r'
    /\ status r' = processing
    /\ attempt_count r' = 1.
Proof.
  intros Hnd Hle.
  destruct (enqueue_appends now accountId webhook body maxRetries rs)
    as (r & E & Hc & Hs & Hm & Hfresh).
  assert (r = Supabase.with_defaults now (Supabase.fresh_id rs)
                (Supabase.mkNewDelivery accountId (wh_id webhook)
                   (wh_url webhook) (truthy (wh_secret webhook)) body
                   maxRetries pending now)) as Hr.
  { unfold Database.enqueueWebhookDelivery in E. simpl in E. congruence. }
  assert (r ∈ rs ++ [r]) as Hin by (apply elem_of_app; right; left).
  destruct (due_complete now' (rs ++ [r]) r Hin) as (due & Hdue & Hmem).
  { left. exact Hs. }
  { rewrite Hr. simpl. done. }
  destruct (claim_won now' r (Rows (rs ++ [r])) r)
    as (r' & q' & Hclaim & _ & Hrow' & _ & Hst' & Hc' & _).
  { by apply NoDup_keys_snoc. }
  { by apply row_of_last. }
  { left. exact Hs. }
  assert (account_id r = accountId /\ webhook_id r = wh_id webhook
          /\ webhook_url r = wh_url webhook
          /\ webhook_secret r = truthy (wh_secret webhook)
          /\ payload r = body /\ next_attempt_at r = now)
    as (? & ? & ? & ? & ? & ?) by (by rewrite Hr).
  exists r, due, r', q'. rewrite Hc', Hc. repeat split; done.
Qed.

Lemma enqueue_due_claim_witness :
  exists r due r' q',
    Database.enqueueWebhookDelivery 0 "acc-1" Sample.open_hook Sample.body 3
      (Rows [Sample.fresh])
    = (Returned (Some r), Rows ([Sample.fresh] ++ [r]))
    /\ (id r ∉ id <$> [Sample.fresh])
    /\ account_id r = "acc-1"%string
    /\ webhook_id r = wh_id Sample.open_hook
    /\ webhook_url r = wh_url Sample.open_hook
    /\ webhook_secret r = truthy (wh_secret Sample.open_hook)
    /\ payload r = Sample.body
    /\ max_retries r = 3
    /\ status r = pending
    /\ attempt_count r = 0
    /\ next_attempt_at r = 0
    /\ Database.getDueWebhookDeliveries 5 (length ([Sample.fresh] ++ [r]))
         (Rows ([Sample.fresh] ++ [r]))
       = Returned due
    /\ r ∈ due
    /\ Database.markWebhookDeliveryProcessing 5 r
         (Rows ([Sample.fresh] ++ [r]))
       = (Returned (Some r'), q')
    /\ row_of (id r) q' = Some r'
    /\ status r' = processing
    /\ attempt_count r' = 1.
Proof.
  apply (enqueue_due_claim 0 5 "acc-1" Sample.open_hook Sample.body 3
           [Sample.fresh]); [apply NoDup_singleton | lia].
Defined.

(** X3. A key the table does not hold. [completeWebhookDelivery] and
    [failWebhookDelivery] answer [true] and the claim answers [null]; none
    of them writes anything. *)
Theorem unknown_key_writes_nothing now job st msg next dead rs :
  (id job ∉ id <$> rs) ->
  Database.completeWebhookDelivery now (id job) st (Rows rs)
  = (Returned true, Rows rs)
  /\ Database.failWebhookDelivery now job msg next dead (Rows rs)
     = (Returned true, Rows rs)
  /\ Database.markWebhookDeliveryProcessing now job (Rows rs)
     = (Returned None, Rows rs).
Proof.
  intros Hi.
  assert (forall x, x ∈ rs -> bool_decide (id x = id job) = false) as Hno.
  { intros x Hx. apply bool_decide_eq_false_2. intros Heq. apply Hi.
    rewrite <- Heq. by apply list_elem_of_fmap_2. }
  unfold Database.completeWebhookDelivery, Database.failWebhookDelivery,
    Database.markWebhookDeliveryProcessing, Supabase.update.
  rewrite !(filter_none rs), !(update_nothing rs); try done;
    intros x Hx; by rewrite (Hno x Hx).
Qed.

Lemma unknown_key_writes_nothing_witness :
  Database.completeWebhookDelivery 9 (id Sample.fresh) 200 (Rows [])
  = (Returned true, Rows [])
  /\ Database.failWebhookDelivery 9 Sample.fresh "HTTP 500" 40 false (Rows [])
     = (Returned true, Rows [])
  /\ Database.markWebhookDeliveryProcessing 9 Sample.fresh (Rows [])
     = (Returned None, Rows []).
Proof.
  apply (unknown_key_writes_nothing 9 Sample.fresh 200 "HTTP 500" 40 false []).
  apply not_elem_of_nil.
Defined.

(** X4. [completeWebhookDelivery] and [failWebhookDelivery] select by key
    alone, so they settle a record whatever its status: after [complete]
    it is [success] and out of the pool for good; after [fail] with the
    dead-letter flag it is [dead_letter] and out of the pool for good; after
    [fail] without the flag it is [failed], and the next claim succeeds,
    also on a record that was [success] or [dead_letter] before. *)
Theorem settle_ignores_status now now' job st msg next q r :
  well_formed q -> row_of (id job) q = Some r ->
  (exists q1 r1,
     Database.completeWebhookDelivery now (id job) st q = (Returned true, q1)
     /\ row_of (id job) q1 = Some r1 /\ status r1 = success
     /\ never_again (id job) q1)
  /\ (exists q1 r1,
        Database.failWebhookDelivery now job msg next true q
        = (Returned true, q1)
        /\ row_of (id job) q1 = Some r1 /\ status r1 = dead_letter
        /\ never_again (id job) q1)
  /\ (exists q1 r1 r2 q2,
        Database.failWebhookDelivery now job msg next false q
        = (Returned true, q1)
        /\ row_of (id job) q1 = Some r1 /\ status r1 = failed
        /\ next_attempt_at r1 = next
        /\ Database.markWebhookDeliveryProcessing now' job q1
           = (Returned (Some r2), q2)
        /\ status r2 = processing).
Proof.
  intros Hwf Hrow. split; [|split].
  - destruct (complete_row now (id job) st q r Hwf Hrow)
      as (q1 & E & Hwf1 & Hrow1 & _).
    eexists _, _. split; [exact E|]. split; [exact Hrow1|]. split; [done|].
    apply (unclaimable_never_again _ _ _ Hwf1 Hrow1). by intros [|].
  - destruct (fail_row now job msg next true q r Hwf Hrow)
      as (q1 & E & Hwf1 & Hrow1 & _).
    eexists _, _. split; [exact E|]. split; [exact Hrow1|]. split; [done|].
    apply (unclaimable_never_again _ _ _ Hwf1 Hrow1). by intros [|].
  - destruct (fail_row now job msg next false q r Hwf Hrow)
      as (q1 & E & Hwf1 & Hrow1 & _).
    edestruct (claim_won now' job q1) as (r2 & q2 & E2 & _ & _ & _ & Hs2 & _);
      [exact Hwf1|exact Hrow1|by right|].
    eexists _, _, _, _. split; [exact E|]. split; [exact Hrow1|].
    repeat split; done.
Qed.

Lemma settle_ignores_status_witness :
  (exists q1 r1,
     Database.completeWebhookDelivery 9 (id Sample.fresh) 200 Sample.table
     = (Returned true, q1)
     /\ row_of (id Sample.fresh) q1 = Some r1 /\ status r1 = success
     /\ never_again (id Sample.fresh) q1)
  /\ (exists q1 r1,
        Database.failWebhookDelivery 9 Sample.fresh "HTTP 500" 40 true
          Sample.table
        = (Returned true, q1)
        /\ row_of (id Sample.fresh) q1 = Some r1 /\ status r1 = dead_letter
        /\ never_again (id Sample.fresh) q1)
  /\ (exists q1 r1 r2 q2,
        Database.failWebhookDelivery 9 Sample.fresh "HTTP 500" 40 false
          Sample.table
        = (Returned true, q1)
        /\ row_of (id Sample.fresh) q1 = Some r1 /\ status r1 = failed
        /\ next_attempt_at r1 = 40
        /\ Database.markWebhookDeliveryProcessing 50 Sample.fresh q1
           = (Returned (Some r2), q2)
        /\ status r2 = processing).
Proof.
  apply (settle_ignores_status 9 50 Sample.fresh 200 "HTTP 500" 40
           Sample.table Sample.fresh); [apply NoDup_singleton | reflexivity].
Defined.

(** X5. From the due query to the end. A member of a due batch of a table
    with a primary key can be claimed; once its delivery is completed the
    record is [success] with the response status, no error, and the count
    of the claim; it never comes back in a due batch and no claim on it
    succeeds; the other records are as before. *)
Theorem due_claim_complete now limit now' st q due job :
  well_formed q ->
  Database.getDueWebhookDeliveries now limit q = Returned due ->
  job ∈ due ->
  exists r1 q1 q2 r2,
    Database.markWebhookDeliveryProcessing now job q = (Returned (Some r1), q1)
    /\ Database.completeWebhookDelivery now' (id r1) st q1
       = (Returned true, q2)
    /\ row_of (id job) q2 = Some r2
    /\ status r2 = success
    /\ response_status r2 = Some st
    /\ last_error r2 = None
    /\ attempt_count r2 = attempt_count job + 1
    /\ never_again (id job) q2
    /\ (forall j, j <> id job -> row_of j q2 = row_of j q).
Proof.
  intros Hwf Hdue Hin.
  destruct (due_member now limit q due job Hwf Hdue Hin) as (Hrow & Hc & _).
  destruct (claim_won now job q job Hwf Hrow Hc)
    as (r1 & q1 & E1 & Hwf1 & Hrow1 & Hframe1 & _ & Hcount & Hid & _).
  destruct (complete_row now' (id job) st q1 r1 Hwf1 Hrow1)
    as (q2 & E2 & Hwf2 & Hrow2 & Hframe2).
  eexists r1, q1, q2, _. rewrite Hid. split; [exact E1|]. split; [exact E2|].
  split; [exact Hrow2|]. repeat split; try done.
  - apply (unclaimable_never_again _ _ _ Hwf2 Hrow2). by intros [|].
  - apply (unclaimable_never_again _ _ _ Hwf2 Hrow2). by intros [|].
  - intros j Hj. rewrite Hframe2, Hframe1; done.
Qed.

Lemma due_claim_complete_witness :
  exists r1 q1 q2 r2,
    Database.markWebhookDeliveryProcessing 5 Sample.fresh Sample.table
    = (Returned (Some r1), q1)
    /\ Database.completeWebhookDelivery 6 (id r1) 200 q1
       = (Returned true, q2)
    /\ row_of (id Sample.fresh) q2 = Some r2
    /\ status r2 = success
    /\ response_status r2 = Some 200
    /\ last_error r2 = None
    /\ attempt_count r2 = attempt_count Sample.fresh + 1
    /\ never_again (id Sample.fresh) q2
    /\ (forall j, j <> id Sample.fresh -> row_of j q2 = row_of j Sample.table).
Proof.
  apply (due_claim_complete 5 10 6 200 Sample.table [Sample.fresh]
           Sample.fresh);
    [apply NoDup_singleton | reflexivity | left].
Defined.

(** X6. [getWebhookQueueStats], case by case. On a table that exists it
    answers one count for each of [pending], [processing], [failed] and
    [dead_letter], in that order, and none for [success]: the four counts
    and the number of [success] rows add up to the number of rows. When
    the table answers with an error the function raises nothing and
    reports every count as 0, which is the answer for an empty table:
    each count is an HTTP HEAD, whose failed answer has no body to take an
    error code from, so that the missing table comes back as no error and
    no count, and any other failure as an error without a code, which the
    loop logs. The [throw] of the distinguished error in the loop is never
    reached. *)
Theorem queue_stats_cases t :
  match t with
  | Rows rs =>
      Database.getWebhookQueueStats t
      = Returned [(pending, rows_with pending rs);
                  (processing, rows_with processing rs);
                  (failed, rows_with failed rs);
                  (dead_letter, rows_with dead_letter rs)]
      /\ (rows_with pending rs + rows_with processing rs
           + rows_with failed rs + rows_with dead_letter rs
           + rows_with success rs = length rs)%nat
  | Unavailable e =>
      Database.getWebhookQueueStats t
      = Returned [(pending, 0%nat); (processing, 0%nat);
                  (failed, 0%nat); (dead_letter, 0%nat)]
  end
  /\ Database.getWebhookQueueStats (Unavailable missing_table_error)
     = Database.getWebhookQueueStats (Rows []).
Proof.
  split; [|reflexivity]. destruct t as [rs|e].
  - split; [reflexivity|].
    unfold rows_with. induction rs as [|r rs IH]; [done|].
    cbn [List.filter length]. destruct (status r); simpl; lia.
  - unfold Database.getWebhookQueueStats, Database.count_statuses,
      Database.check, Supabase.count.
    by destruct (Supabase.not_found e).
Qed.

(** X7. The recovery sweep is idempotent at a given time: the rows it has
    recovered are [failed], so a second sweep with the same clock reading
    and threshold finds nothing to write. *)
Theorem reset_stuck_idempotent now minutes q :
  let q1 := (Database.resetStuckWebhookDeliveries now minutes q).2 in
  Database.resetStuckWebhookDeliveries now minutes q1
  = ((Database.resetStuckWebhookDeliveries now minutes q).1, q1).
Proof.
  destruct q as [rs|e]; [|reflexivity].
  unfold Database.resetStuckWebhookDeliveries, Supabase.update. simpl.
  f_equal. f_equal. rewrite <- list_fmap_compose.
  apply list_fmap_ext. intros _ r _. unfold compose. cbv beta.
  destruct (bool_decide_reflect (status r = processing)) as [Hs|Hs];
    destruct (bool_decide_reflect (updated_at r ≤ now - minutes * 60000))
      as [Hu|Hu]; simpl; try done.
  - rewrite (bool_decide_true _ Hs), (bool_decide_false _ Hu). done.
  - by rewrite (bool_decide_false _ Hs).
  - by rewrite (bool_decide_false _ Hs).
Qed.

(** ** The reduced store: retry ceiling, due query, round trip *)

Section LiteQueue.

Import Supabase.

Implicit Types (r job : Delivery) (q : QueueTable) (rs : list Delivery).

Lemma lite_fail_row now i msg next q r :
  well_formed q -> row_of i q = Some r ->
  exists q' r',
    Lite.failWebhookDelivery Lite.lite_names now i msg next q
    = (Returned (), q')
    /\ well_formed q'
    /\ row_of i q' = Some r'
    /\ attempt_count r' = attempt_count r + 1
    /\ max_retries r' = max_retries r
    /\ status r'
       = (if bool_decide (Lite.or_three (max_retries r) ≤ attempt_count r + 1)
          then failed else pending)
    /\ (forall j, j <> i -> row_of j q' = row_of j q).
Proof.
  intros Hwf Hrow. unfold Lite.failWebhookDelivery, Lite.naming.
  assert (id r = i) as Hid.
  { destruct (row_of_Rows _ _ _ Hrow) as (? & _ & _ & ?). done. }
  assert (Lite.select_single Lite.lite_names i q = Some r) as ->.
  { destruct q as [rs|]; [|done]. simpl in Hwf, Hrow |- *.
    destruct (find_key_elem _ _ _ Hrow) as [Hin _].
    rewrite (filter_by_key rs r _ Hwf Hin).
    - by rewrite bool_decide_true.
    - intros x Hx. apply bool_decide_eq_true in Hx. congruence. }
  simpl. case_bool_decide.
  - edestruct (update_by_key now) as (q' & -> & Hwf' & Hrow' & Hframe & _);
      [| |exact Hwf|exact Hrow|].
    + done.
    + intros x Hx. by apply bool_decide_eq_true in Hx.
    + rewrite bool_decide_true in Hrow' by done.
      eexists _, _. split; [reflexivity|]. split; [exact Hwf'|].
      split; [exact Hrow'|]. split; [done|]. split; [done|].
      split; [|exact Hframe]. simpl. done.
  - edestruct (update_by_key now) as (q' & -> & Hwf' & Hrow' & Hframe & _);
      [| |exact Hwf|exact Hrow|].
    + done.
    + intros x Hx. by apply bool_decide_eq_true in Hx.
    + rewrite bool_decide_true in Hrow' by done.
      eexists _, _. split; [reflexivity|]. split; [exact Hwf'|].
      split; [exact Hrow'|]. split; [done|]. split; [done|].
      split; [|exact Hframe]. simpl. done.
Qed.

Lemma lite_failures_row i fs :
  forall q r,
    well_formed q -> row_of i q = Some r ->
    exists r',
      well_formed (lite_failures Lite.lite_names i fs q)
      /\ row_of i (lite_failures Lite.lite_names i fs q) = Some r'
      /\ attempt_count r' = attempt_count r + Z.of_nat (length fs)
      /\ max_retries r' = max_retries r
      /\ (fs <> [] ->
          status r'
          = if bool_decide (Lite.or_three (max_retries r)
                            ≤ attempt_count r + Z.of_nat (length fs))
            then failed else pending)
      /\ (forall j, j <> i ->
                    row_of j (lite_failures Lite.lite_names i fs q)
                    = row_of j q).
Proof.
  induction fs as [|f fs IH] using rev_ind; intros q r Hwf Hrow.
  - exists r. simpl. rewrite Z.add_0_r. repeat split; done.
  - unfold lite_failures. rewrite foldl_app. cbn [foldl].
    fold (lite_failures Lite.lite_names i fs q).
    destruct (IH q r Hwf Hrow) as (r1 & Hwf1 & Hrow1 & Hc1 & Hm1 & _ & Hf1).
    destruct (lite_fail_row f.1.1 i f.1.2 f.2 _ r1 Hwf1 Hrow1)
      as (q2 & r2 & E & Hwf2 & Hrow2 & Hc2 & Hm2 & Hs2 & Hf2).
    rewrite E. simpl. exists r2. rewrite length_app. simpl.
    split; [done|]. split; [done|]. split; [lia|]. split; [congruence|].
    split.
    + intros _. rewrite Hs2, Hm1, Hc1.
      replace (attempt_count r + Z.of_nat (length fs) + 1)
        with (attempt_count r + Z.of_nat (length fs + 1)) by lia. done.
    + intros j Hj. rewrite Hf2, Hf1; done.
Qed.

Lemma lite_due_rows now limit rs :
  Lite.getDueWebhookDeliveries Lite.lite_names now limit (Rows rs)
  = Returned
      (take limit
         (merge_sort (by_key created_at)
            (List.filter
               (fun r => bool_decide (status r = pending)
                         && bool_decide (next_attempt_at r ≤ now)) rs))).
Proof. reflexivity. Qed.

Lemma lite_not_due now limit q due job r :
  well_formed q -> row_of (id job) q = Some r -> status r <> pending ->
  Lite.getDueWebhookDeliveries Lite.lite_names now limit q = Returned due ->
  job ∉ due.
Proof.
  intros Hwf Hrow Hst Hdue Hin.
  destruct q as [rs|e]; [|done]. rewrite lite_due_rows in Hdue.
  injection Hdue as <-.
  apply subseteq_take in Hin. rewrite merge_sort_Permutation in Hin.
  apply list_elem_of_In, filter_In in Hin as [Hin Hp].
  apply list_elem_of_In in Hin.
  apply andb_true_iff in Hp as [Hp _]. apply bool_decide_eq_true in Hp.
  simpl in Hwf, Hrow.
  rewrite (elem_find_key rs job Hwf Hin) in Hrow. congruence.
Qed.

(** On the table of [schema.sql] a recorded failure writes nothing. *)
Lemma lite_failures_refused i fs rs :
  lite_failures Lite.schema_sql i fs (Rows rs) = Rows rs.
Proof.
  induction fs as [|f fs IH] using rev_ind; [done|].
  unfold lite_failures. rewrite foldl_app. cbn [foldl].
  fold (lite_failures Lite.schema_sql i fs (Rows rs)). by rewrite IH.
Qed.

End LiteQueue.

(** X8. The retry ceiling of the reduced store, on either table.
    [failWebhookDelivery] of [database.lite.js] reads the stored count from
    a column [attempts], adds one and compares with the record's ceiling,
    a ceiling of 0 being read as 3. On the table of [schema.sql], which
    has no such column, the read and the write are refused and the
    function, which looks at neither answer, returns normally: whatever
    the number of recorded failures the table is as it was, so no count
    grows and no ceiling is reached. On a table with the column names of
    the reduced store, after one or more recorded failures of a record
    that started with count [c], the count is [c] plus their number, and
    the record is [pending] while the count is below the ceiling and
    [failed] from then on; a [failed] record is in no due batch of that
    store and no claim of that store takes it; the other records are not
    touched. *)
Theorem lite_retry_ceiling names i fs q r :
  well_formed q -> row_of i q = Some r -> fs <> [] ->
  let q' := lite_failures names i fs q in
  let ceiling := Lite.or_three (max_retries r) in
  match names with
  | Lite.schema_sql => q' = q
  | Lite.lite_names =>
      exists r',
        row_of i q' = Some r'
        /\ attempt_count r' = attempt_count r + Z.of_nat (length fs)
        /\ (attempt_count r' < ceiling -> status r' = pending)
        /\ (ceiling <= attempt_count r' ->
            status r' = failed
            /\ (forall now limit due job,
                  Lite.getDueWebhookDeliveries Lite.lite_names now limit q'
                  = Returned due ->
                  id job = i -> job ∉ due)
            /\ (forall now job,
                  id job = i ->
                  Lite.markWebhookDeliveryProcessing now job q'
                  = (Returned None, q')))
        /\ (forall j, j <> i -> row_of j q' = row_of j q)
  end.
Proof.
  intros Hwf Hrow Hne q' ceiling. destruct names.
  { destruct q as [rs|e]; [|done]. apply lite_failures_refused. }
  destruct (lite_failures_row i fs q r Hwf Hrow)
    as (r' & Hwf' & Hrow' & Hc & Hm & Hs & Hframe).
  specialize (Hs Hne). exists r'. split; [done|]. split; [done|].
  fold q' in Hwf', Hrow', Hframe. fold ceiling in Hs. rewrite <- Hc in Hs.
  split; [|split; [|done]].
  - intros Hlt. rewrite Hs. by rewrite bool_decide_false by lia.
  - intros Hge. rewrite bool_decide_true in Hs by lia.
    split; [done|]. split.
    + intros now limit due job Hdue Hid.
      apply (lite_not_due now limit q' due job r'); try done.
      * by rewrite Hid.
      * by rewrite Hs.
    + intros now job Hid.
      destruct (lite_claim_keeps_count now job q' r') as (q2 & E & _).
      * done.
      * by rewrite Hid.
      * rewrite E. rewrite bool_decide_false by (by rewrite Hs).
        f_equal. revert E. unfold Lite.markWebhookDeliveryProcessing.
        destruct (update_by_key now
                    (fun r0 => set_updated_at now (set_status processing r0))
                    (fun r0 => bool_decide (id r0 = id job)
                               && bool_decide (status r0 = pending))
                    q' (id job) r') as (q3 & E3 & _ & _ & _ & Hsame).
        { done. }
        { intros x [Hx _]%andb_true_iff. by apply bool_decide_eq_true in Hx. }
        { done. }
        { by rewrite Hid. }
        rewrite E3. simpl. intros [= _ <-]. apply Hsame.
        rewrite (bool_decide_false (status r' = pending)) by (by rewrite Hs).
        apply andb_false_r.
Qed.

Lemma lite_retry_ceiling_witness :
  lite_failures Lite.schema_sql 1
    [(11, "HTTP 500"%string, 40); (51, "HTTP 500"%string, 110);
     (120, "HTTP 500"%string, 200)] Sample.table
  = Sample.table
  /\ exists r',
       row_of 1
         (lite_failures Lite.lite_names 1
            [(11, "HTTP 500"%string, 40); (51, "HTTP 500"%string, 110);
             (120, "HTTP 500"%string, 200)] Sample.table)
       = Some r'
       /\ attempt_count r' = 3
       /\ status r' = failed.
Proof.
  split.
  - apply (lite_retry_ceiling Lite.schema_sql 1
             [(11, "HTTP 500"%string, 40); (51, "HTTP 500"%string, 110);
              (120, "HTTP 500"%string, 200)] Sample.table Sample.fresh);
      [apply NoDup_singleton | reflexivity | discriminate].
  - destruct (lite_retry_ceiling Lite.lite_names 1
                [(11, "HTTP 500"%string, 40); (51, "HTTP 500"%string, 110);
                 (120, "HTTP 500"%string, 200)] Sample.table Sample.fresh)
      as (r' & Hrow & Hc & _ & Hs & _);
      [apply NoDup_singleton | reflexivity | discriminate |].
    exists r'. split; [exact Hrow|]. split; [exact Hc|].
    apply Hs. rewrite Hc. vm_compute. discriminate.
Defined.

(** X9. The due query of the reduced store, on either table. The filter
    names a column [next_retry_at]: on the table of [schema.sql], which
    has none, the query is refused and the function throws the error of
    the refusal. On a table with the column names of the reduced store it
    answers at most [limit] rows of the table, each [pending] and due, in
    ascending order of [created_at]; a [failed] or [processing] row is
    never among them. When the table is not there or answers every query
    with an error, the function throws: the distinguished error for the
    missing table, the error itself otherwise. *)
Theorem lite_due_sound names now limit q :
  match q, names with
  | Rows rs, Lite.schema_sql =>
      Lite.getDueWebhookDeliveries names now limit q
      = Thrown (PostgrestFailure (Lite.undefined_column "next_retry_at"))
  | Rows rs, Lite.lite_names =>
      exists due,
        Lite.getDueWebhookDeliveries names now limit q = Returned due
        /\ (length due <= limit)%nat
        /\ Forall (fun r => status r = pending /\ next_attempt_at r <= now)
             due
        /\ StronglySorted (fun a b => created_at a <= created_at b) due
        /\ due ⊆ rs
  | Unavailable e, _ =>
      Lite.getDueWebhookDeliveries names now limit q
      = Thrown (if Lite.isWebhookQueueMissing e
                then MissingWebhookQueueTableError
                else PostgrestFailure e)
  end.
Proof.
  destruct q as [rs|e]; [destruct names|].
  - reflexivity.
  - eexists. split; [apply lite_due_rows|].
    set (p := fun r => bool_decide (status r = pending)
                       && bool_decide (next_attempt_at r ≤ now)).
    set (sorted := merge_sort (Supabase.by_key created_at) (List.filter p rs)).
    split; [rewrite length_take; lia|].
    split.
    { apply Forall_take. unfold sorted.
      rewrite merge_sort_Permutation.
      eapply Forall_impl; [apply Forall_filter_bool|].
      intros r Hr. unfold p in Hr. apply andb_true_iff in Hr as [H1 H2].
      apply bool_decide_eq_true in H1, H2. done. }
    split.
    { apply (StronglySorted_app_1_l (Supabase.by_key created_at)
               (take limit sorted) (drop limit sorted)).
      rewrite take_drop. apply StronglySorted_merge_sort; apply _. }
    etrans; [apply subseteq_take|].
    unfold sorted. intros r Hr.
    rewrite merge_sort_Permutation in Hr. by apply filter_bool_subseteq in Hr.
  - unfold Lite.getDueWebhookDeliveries, Lite.check.
    destruct names; simpl; by destruct (Lite.isWebhookQueueMissing e).
Qed.

(** X10. Enqueue, due query and claim of the reduced store, on either
    table. The inserted object names the columns [attempts] and
    [next_retry_at]: on the table of [schema.sql] the insert is refused,
    [enqueueWebhookDelivery] throws the error of the refusal and the table
    is as it was. On a table with the column names of the reduced store
    the three compose: the record is stored [pending] with count 0, due at
    once, and with the ceiling given, a ceiling of 0 being stored as 3,
    and the call answers nothing; from then on every due query with room
    for the whole table returns the record, and the claim made with it
    answers it as [processing], the count still 0. *)
Theorem lite_enqueue_due_claim names now now' accountId webhook body
    maxRetries rs :
  NoDup (id <$> rs) -> now <= now' ->
  match names with
  | Lite.schema_sql =>
      Lite.enqueueWebhookDelivery names now accountId webhook body
        maxRetries (Rows rs)
      = (Thrown (PostgrestFailure (Lite.unknown_column "attempts")), Rows rs)
  | Lite.lite_names =>
      exists r due r' q',
        Lite.enqueueWebhookDelivery names now accountId webhook body
          maxRetries (Rows rs)
        = (Returned (), Rows (rs ++ [r]))
        /\ (id r ∉ id <$> rs)
        /\ webhook_url r = wh_url webhook
        /\ webhook_secret r = truthy (wh_secret webhook)
        /\ payload r = body
        /\ max_retries r
           = (if bool_decide (maxRetries = 0) then 3 else maxRetries)
        /\ status r = pending
        /\ attempt_count r = 0
        /\ Lite.getDueWebhookDeliveries names now' (length (rs ++ [r]))
             (Rows (rs ++ [r]))
           = Returned due
        /\ r ∈ due
        /\ Lite.markWebhookDeliveryProcessing now' r (Rows (rs ++ [r]))
           = (Returned (Some r'), q')
        /\ row_of (id r) q' = Some r'
        /\ status r' = processing
        /\ attempt_count r' = 0
  end.
Proof.
  intros Hnd Hle. destruct names; [reflexivity|].
  set (r := Supabase.with_defaults now (Supabase.fresh_id rs)
              (Supabase.mkNewDelivery accountId (wh_id webhook)
                 (wh_url webhook) (truthy (wh_secret webhook)) body
                 (Lite.or_three maxRetries) pending now)).
  assert (id r ∉ id <$> rs) as Hfresh.
  { destruct (enqueue_appends now accountId webhook body maxRetries rs)
      as (x & E & _ & _ & _ & Hx).
    unfold Database.enqueueWebhookDelivery in E. simpl in E.
    injection E as E _. by rewrite <- E in Hx. }
  assert (well_formed (Rows (rs ++ [r]))) as Hwf.
  { simpl. rewrite fmap_app. apply NoDup_app. split; [done|]. split.
    - intros n Hn [->|[]%elem_of_nil]%elem_of_cons. done.
    - apply NoDup_singleton. }
  assert (row_of (id r) (Rows (rs ++ [r])) = Some r) as Hrow.
  { apply (elem_find_key (rs ++ [r]) r); [exact Hwf|].
    apply elem_of_app. right. left. }
  destruct (update_by_key now'
              (fun r0 => set_updated_at now' (set_status processing r0))
              (fun r0 => bool_decide (id r0 = id r)
                         && bool_decide (status r0 = pending))
              (Rows (rs ++ [r])) (id r) r)
    as (q' & E3 & _ & Hrow' & _); try done.
  { intros x [Hx _]%andb_true_iff. by apply bool_decide_eq_true in Hx. }
  rewrite !bool_decide_true in E3, Hrow' by done.
  assert (Lite.markWebhookDeliveryProcessing now' r (Rows (rs ++ [r]))
          = (Returned
               (Some (Supabase.update_updated_at_column now'
                        (set_updated_at now' (set_status processing r)))),
             q')) as Hclaim.
  { unfold Lite.markWebhookDeliveryProcessing. by rewrite E3. }
  cbn [andb] in Hrow'.
  eexists r, _, _, q'.
  split; [reflexivity|]. split; [exact Hfresh|].
  split; [done|]. split; [done|]. split; [done|]. split; [done|].
  split; [done|]. split; [done|].
  split; [apply lite_due_rows|]. split.
  { rewrite take_ge.
    - rewrite merge_sort_Permutation.
      apply list_elem_of_In, filter_In. split.
      + apply list_elem_of_In, elem_of_app. right. left.
      + apply andb_true_iff.
        split; apply bool_decide_eq_true_2; [reflexivity | simpl; lia].
    - rewrite merge_sort_Permutation.
      generalize (rs ++ [r]). intros l.
      induction l as [|x l IH]; simpl; [lia|].
      match goal with |- context [if ?b then _ else _] => destruct b end;
        simpl; lia. }
  split; [exact Hclaim|]. split; [exact Hrow'|]. done.
Qed.

Lemma lite_enqueue_due_claim_witness :
  Lite.enqueueWebhookDelivery Lite.schema_sql 0 "acc-1" Sample.open_hook
    Sample.body 0 (Rows [Sample.fresh])
  = (Thrown (PostgrestFailure (Lite.unknown_column "attempts")),
     Rows [Sample.fresh])
  /\ exists r due r' q',
       Lite.enqueueWebhookDelivery Lite.lite_names 0 "acc-1"
         Sample.open_hook Sample.body 0 (Rows [Sample.fresh])
       = (Returned (), Rows ([Sample.fresh] ++ [r]))
       /\ max_retries r = 3
       /\ Lite.getDueWebhookDeliveries Lite.lite_names 5
            (length ([Sample.fresh] ++ [r])) (Rows ([Sample.fresh] ++ [r]))
          = Returned due
       /\ r ∈ due
       /\ Lite.markWebhookDeliveryProcessing 5 r
            (Rows ([Sample.fresh] ++ [r]))
          = (Returned (Some r'), q')
       /\ status r' = processing
       /\ attempt_count r' = 0.
Proof.
  split.
  - apply (lite_enqueue_due_claim Lite.schema_sql 0 5 "acc-1"
             Sample.open_hook Sample.body 0 [Sample.fresh]);
      [apply NoDup_singleton | lia].
  - destruct (lite_enqueue_due_claim Lite.lite_names 0 5 "acc-1"
                Sample.open_hook Sample.body 0 [Sample.fresh])
      as (r & due & r' & q' & He & _ & _ & _ & _ & Hm & _ & _ & Hd & Hin
          & Hc & _ & Hs & Hn);
      [apply NoDup_singleton | lia |].
    exists r, due, r', q'.
    split; [exact He|]. split; [exact Hm|]. split; [exact Hd|].
    split; [exact Hin|]. split; [exact Hc|]. split; [exact Hs | exact Hn].
Defined.

(** ** The retry helper *)

Section RetryHelper.

Import Retry.

Context {St A : Type}.
Implicit Types (fn : St -> completion A * St) (s : St).

Lemma schedule_from k a :
  (fun j => 1000 * 2 ^ Z.of_nat j) <$> seq a (S k)
  = 1000 * 2 ^ Z.of_nat a :: ((fun j => 1000 * 2 ^ Z.of_nat j) <$> seq (S a) k).
Proof. done. Qed.

(** The loop entered at [attempt] with the iterations that are left. *)
Lemma attempts_delays fn n :
  forall remaining attempt lastError s,
    (1 <= attempt)%nat -> (attempt + remaining = S n)%nat ->
    let '(r, s', delays) := attempts fn n remaining attempt lastError s in
    delays
    = ((fun j => 1000 * 2 ^ Z.of_nat j) <$> seq (attempt - 1) (length delays))
    /\ (length delays <= remaining - 1)%nat
    /\ (r = Rejected None -> remaining = 0%nat /\ lastError = None).
Proof.
  induction remaining as [|remaining IH]; intros attempt lastError s H1 Hn;
    simpl.
  - split; [done|]. split; [done|]. by intros [= ->].
  - destruct (fn s) as [[a|e] s1];
      [simpl; split; [done|]; split; [lia|done]|].
    destruct (negb (isRetryable e) || (attempt =? n)%nat) eqn:Hstop.
    { simpl. split; [done|]. split; [lia|done]. }
    apply orb_false_iff in Hstop as [_ Hne]. apply Nat.eqb_neq in Hne.
    specialize (IH (S attempt) (Some e) s1 ltac:(lia) ltac:(lia)).
    destruct (attempts fn n remaining (S attempt) (Some e) s1)
      as [[r s2] delays].
    destruct IH as (Hd & Hlen & Hnone). cbv beta iota zeta. cbn [length].
    split; [|split].
    + rewrite schedule_from.
      replace (S (attempt - 1)) with (S attempt - 1)%nat by lia.
      rewrite <- Hd. f_equal. f_equal. f_equal. lia.
    + lia.
    + intros Hr. destruct (Hnone Hr) as [_ [=]].
Qed.

Lemma schedule_sum k :
  foldr Z.add 0 (schedule k) = 1000 * (2 ^ Z.of_nat k - 1).
Proof.
  unfold schedule. induction k as [|k IH]; [done|].
  rewrite seq_S, fmap_app, foldr_app. simpl.
  rewrite Nat2Z.inj_succ, Z.pow_succ_r by lia.
  assert (forall l a, foldr Z.add a l = foldr Z.add 0 l + a) as Hacc.
  { induction l as [|x l IHl]; intros a; simpl; [lia|]. rewrite IHl. lia. }
  rewrite Hacc, IH. lia.
Qed.

End RetryHelper.

(** X11. The waits of [withRetry]. Whatever [fn] does and whatever the
    number of attempts allowed, the delays slept are an initial part of
    1000, 2000, 4000, ... milliseconds, one fewer than the attempts allowed
    at most: nothing is slept after the last attempt, and the total wait
    stays below [1000 * 2^(maxRetries-1)]. With the default of 3 attempts
    that is 1000 and 2000 at most. The promise is rejected with [undefined]
    only when no attempt is allowed, and then [fn] is not called. *)
Theorem withRetry_schedule {St A : Type} (fn : St -> completion A * St)
    (maxRetries : nat) (s : St) :
  let '(r, s', delays) := Retry.withRetry fn maxRetries s in
  delays = Retry.schedule (length delays)
  /\ (length delays <= maxRetries - 1)%nat
  /\ foldr Z.add 0 delays = 1000 * (2 ^ Z.of_nat (length delays) - 1)
  /\ (maxRetries = 3%nat -> delays = [] \/ delays = [1000] \/ delays = [1000; 2000])
  /\ (r = Retry.Rejected None <-> maxRetries = 0%nat)
  /\ (maxRetries = 0%nat -> s' = s).
Proof.
  unfold Retry.withRetry.
  pose proof (attempts_delays fn maxRetries maxRetries 1 None s
                ltac:(lia) ltac:(lia)) as H.
  destruct (Retry.attempts fn maxRetries maxRetries 1 None s)
    as [[r s'] delays] eqn:E.
  destruct H as (Hd & Hlen & Hnone). simpl in Hd.
  fold (Retry.schedule (length delays)) in Hd.
  split; [done|]. split; [done|]. split.
  { rewrite Hd at 1. apply schedule_sum. }
  split.
  { intros ->. rewrite Hd.
    destruct (length delays) as [|[|[|k]]]; simpl in *; auto; lia. }
  split.
  - split; [by intros [-> _]%Hnone|].
    intros ->. simpl in E. by injection E as <- _ _.
  - intros ->. simpl in E. by injection E as _ <- _.
Qed.

Section RetryRuns.

Import Retry.

Context {St A : Type}.
Implicit Types (fn : St -> completion A * St) (s : St).

(** The loop entered at [attempt] when the next [k] calls fail with errors
    that are retried and the call after them decides. *)
Lemma attempts_decisive fn n k :
  forall remaining attempt lastError s,
    (attempt + remaining = S n)%nat -> (k < remaining)%nat ->
    (forall j, (j < k)%nat -> retryable_failure fn s j) ->
    let waits :=
      (fun j => 1000 * 2 ^ (Z.of_nat (attempt + j) - 1)) <$> seq 0 k in
    match nth_call fn k s with
    | (Returned a, s') =>
        attempts fn n remaining attempt lastError s = (Resolved a, s', waits)
    | (Thrown e, s') =>
        isRetryable e = false \/ (attempt + k)%nat = n ->
        attempts fn n remaining attempt lastError s
        = (Rejected (Some e), s', waits)
    end.
Proof.
  induction k as [|k IH]; intros remaining attempt lastError s Hn Hk Hfail.
  - destruct remaining as [|remaining]; [lia|]. simpl.
    destruct (fn s) as [[a|e] s1]; [done|].
    intros [-> | Heq]; [done|].
    replace (attempt =? n)%nat with true
      by (symmetry; apply Nat.eqb_eq; lia).
    by rewrite orb_true_r.
  - destruct remaining as [|remaining]; [lia|].
    destruct (Hfail 0%nat ltac:(lia)) as (e0 & He0 & Hr0).
    cbn [nth_call attempts]. simpl in He0.
    destruct (fn s) as [c0 s1] eqn:Efn. simpl in He0. subst c0.
    rewrite Hr0. replace (attempt =? n)%nat with false
      by (symmetry; apply Nat.eqb_neq; lia).
    cbn [negb orb snd].
    specialize (IH remaining (S attempt) (Some e0) s1 ltac:(lia) ltac:(lia)).
    assert (forall j, (j < k)%nat -> retryable_failure fn s1 j) as Hfail'.
    { intros j Hj. destruct (Hfail (S j) ltac:(lia)) as (e & He & Hr).
      exists e. split; [|done]. simpl in He. by rewrite Efn in He. }
    specialize (IH Hfail').
    assert (forall a : nat,
              (fun j => 1000 * 2 ^ (Z.of_nat (attempt + j) - 1)) <$> seq a (S k)
              = 1000 * 2 ^ (Z.of_nat (attempt + a) - 1)
                :: ((fun j => 1000 * 2 ^ (Z.of_nat (attempt + j) - 1))
                    <$> seq (S a) k)) as Hcons by done.
    assert ((fun j => 1000 * 2 ^ (Z.of_nat (attempt + j) - 1)) <$> seq 1 k
            = (fun j => 1000 * 2 ^ (Z.of_nat (S attempt + j) - 1)) <$> seq 0 k)
      as Hshift.
    { rewrite <- (fmap_S_seq 0 k), <- list_fmap_compose.
      apply list_fmap_ext. intros _ j _. simpl. do 3 f_equal. lia. }
    cbv zeta in IH |- *. rewrite Hcons, Hshift, Nat.add_0_r.
    destruct (nth_call fn k s1) as [[a|e] s2].
    + by rewrite IH.
    + intros Hstop. rewrite IH; [done|].
      destruct Hstop as [?|?]; [by left | right; lia].
Qed.

Lemma attempts_counted fn n :
  forall remaining attempt lastError s c,
    (attempt + remaining = S n)%nat ->
    let '(r, s', delays) := attempts fn n remaining attempt lastError s in
    exists calls,
      attempts (counted fn) n remaining attempt lastError (s, c)
      = (r, (s', (c + calls)%nat), delays)
      /\ (calls <= remaining)%nat
      /\ (0 < remaining -> calls = S (length delays))%nat.
Proof.
  induction remaining as [|remaining IH]; intros attempt lastError s c Hn.
  - simpl. exists 0%nat. rewrite Nat.add_0_r. split; [done|]. lia.
  - cbn [attempts]. unfold counted at 1. cbn [fst snd].
    destruct (fn s) as [[a|e] s1] eqn:Efn; cbn [fst snd].
    + exists 1%nat. rewrite Nat.add_1_r. split; [done|]. simpl. lia.
    + destruct (negb (isRetryable e) || (attempt =? n)%nat) eqn:Hstop.
      * exists 1%nat. rewrite Nat.add_1_r. split; [done|]. simpl. lia.
      * apply orb_false_iff in Hstop as [_ Hne]. apply Nat.eqb_neq in Hne.
        specialize (IH (S attempt) (Some e) s1 (S c) ltac:(lia)).
        destruct (attempts fn n remaining (S attempt) (Some e) s1)
          as [[r s2] delays].
        destruct IH as (calls & -> & Hle & Hlen).
        exists (S calls). split; [do 3 f_equal; lia|].
        split; [lia|]. intros _. cbn [length]. rewrite Hlen; lia.
Qed.

End RetryRuns.

(** X12. How [withRetry] settles. Let the first [k] calls of [fn] fail with
    errors the helper retries, [k] below the number of attempts allowed.
    If the next call returns, that value is the result; if it throws an
    error that is not retried, or if it is the last attempt allowed, that
    error is thrown on, whatever it is. In each case [fn] is not called
    again, the state is the one that call left, and exactly the first [k]
    delays of the schedule have been slept. *)
Theorem withRetry_first_decisive {St A : Type}
    (fn : St -> completion A * St) (maxRetries : nat) (s : St) (k : nat) :
  (k < maxRetries)%nat ->
  (forall j, (j < k)%nat -> Retry.retryable_failure fn s j) ->
  match Retry.nth_call fn k s with
  | (Returned a, s') =>
      Retry.withRetry fn maxRetries s
      = (Retry.Resolved a, s', Retry.schedule k)
  | (Thrown e, s') =>
      Retry.isRetryable e = false \/ S k = maxRetries ->
      Retry.withRetry fn maxRetries s
      = (Retry.Rejected (Some e), s', Retry.schedule k)
  end.
Proof.
  intros Hk Hfail.
  pose proof (attempts_decisive fn maxRetries k maxRetries 1 None s
                ltac:(lia) Hk Hfail) as H.
  cbv zeta in H.
  assert ((fun j => 1000 * 2 ^ (Z.of_nat (1 + j) - 1)) <$> seq 0 k
          = Retry.schedule k) as Hs.
  { unfold Retry.schedule. apply list_fmap_ext. intros _ j _.
    do 2 f_equal. lia. }
  rewrite Hs in H. unfold Retry.withRetry.
  destruct (Retry.nth_call fn k s) as [[a|e] s']; [done|].
  intros Hstop. apply H. destruct Hstop as [?|?]; [by left | right; lia].
Qed.

Lemma withRetry_first_decisive_witness :
  let fn := fun calls : nat =>
              (if (calls <? 2)%nat
               then Thrown (JsError "TypeError: fetch failed")
               else Returned calls,
               S calls) in
  match Retry.nth_call fn 2 0%nat with
  | (Returned a, s') =>
      Retry.withRetry fn 3 0%nat = (Retry.Resolved a, s', Retry.schedule 2)
  | (Thrown e, s') =>
      Retry.isRetryable e = false \/ 3%nat = 3%nat ->
      Retry.withRetry fn 3 0%nat
      = (Retry.Rejected (Some e), s', Retry.schedule 2)
  end.
Proof.
  intros fn.
  apply (withRetry_first_decisive fn 3 0%nat 2); [lia|].
  intros [|[|j]] Hj; [| |lia];
    (exists (JsError "TypeError: fetch failed"); split; reflexivity).
Defined.

(** X13. [withRetry] calls [fn] at most as many times as attempts are
    allowed, and, when any is allowed, exactly once more than it sleeps.
    The count is read off [fn] instrumented with a counter, which settles
    as [fn] does. *)
Theorem withRetry_call_count {St A : Type} (fn : St -> completion A * St)
    (maxRetries : nat) (s : St) :
  let '(r, s', delays) := Retry.withRetry fn maxRetries s in
  exists calls,
    Retry.withRetry (Retry.counted fn) maxRetries (s, 0%nat)
    = (r, (s', calls), delays)
    /\ (calls <= maxRetries)%nat
    /\ ((0 < maxRetries)%nat -> calls = S (length delays)).
Proof.
  unfold Retry.withRetry.
  pose proof (attempts_counted fn maxRetries maxRetries 1 None s 0
                ltac:(lia)) as H.
  destruct (Retry.attempts fn maxRetries maxRetries 1 None s)
    as [[r s'] delays].
  destruct H as (calls & E & Hle & Hlen). exists calls. done.
Qed.

(** ** Recipient addresses *)

Section PhoneNumbers.

Import Phone.

Lemma keep_digits_only s : digits_only (keep_digits s) = true.
Proof.
  induction s as [|c s IH]; simpl; [done|].
  destruct (is_digit c) eqn:E; simpl; [by rewrite E|done].
Qed.

Lemma strip_zeros_only s :
  digits_only s = true -> digits_only (strip_zeros s) = true.
Proof.
  induction s as [|c s IH]; simpl; [done|].
  intros [Hc Hs]%andb_true_iff. destruct (Ascii.eqb c "0"); [by apply IH|].
  simpl. by rewrite Hc, Hs.
Qed.

Lemma strip_zeros_head s : no_leading_zero (strip_zeros s).
Proof.
  induction s as [|c s IH]; simpl; [done|].
  destruct (Ascii.eqb_spec c "0"); [exact IH | done].
Qed.

Lemma strip_zeros_fixed s : no_leading_zero s -> strip_zeros s = s.
Proof.
  destruct s as [|c s]; simpl; [done|]. intros Hc.
  by destruct (Ascii.eqb_spec c "0").
Qed.

Lemma keep_digits_fixed s : digits_only s = true -> keep_digits s = s.
Proof.
  induction s as [|c s IH]; simpl; [done|].
  intros [Hc Hs]%andb_true_iff. rewrite Hc. f_equal. by apply IH.
Qed.

Lemma includes_at_app a b :
  includes_at (a +:+ b) = includes_at a || includes_at b.
Proof.
  induction a as [|c a IH]; simpl; [done|]. by rewrite IH, orb_assoc.
Qed.

Lemma length_app_string a b :
  String.length (a +:+ b) = (String.length a + String.length b)%nat.
Proof. induction a as [|c a IH]; simpl; [done|]. by rewrite IH. Qed.

(** The local part both steps leave: digits, no leading zero, never ten
    of them. *)
Lemma add_country_code_shape s :
  digits_only s = true -> no_leading_zero s ->
  let d := add_country_code s in
  digits_only d = true /\ no_leading_zero d /\ String.length d <> 10%nat
  /\ (String.length s < 10 -> d = s)%nat.
Proof.
  intros Hs Hz d. unfold d, add_country_code.
  destruct (Nat.eqb_spec (String.length s) 10) as [E|E].
  - change ("91" +:+ s) with (String "9" (String "1" s)).
    cbn [digits_only no_leading_zero String.length]. rewrite Hs, E.
    split; [done|]. split; [done|]. split; lia.
  - split; [done|]. split; [done|]. split; done.
Qed.

End PhoneNumbers.

(** X14. [formatPhoneNumber] of the lite manager, case by case. The empty
    string is refused ('Phone number required'). A string with [@] is
    returned as it is. Any other string is reduced to its digits without
    leading zeros; fewer than ten of them are refused ('Invalid phone
    number'); otherwise the answer is a digit string followed by [@c.us],
    of eleven digits or more and not starting with 0, ten digits having
    been prefixed with 91. Every address returned is a fixed point: given
    back to the function it is returned unchanged. *)
Theorem lite_formatPhoneNumber_cases number :
  let cleaned := Phone.strip_zeros (Phone.keep_digits number) in
  match WhatsAppManagerLite.formatPhoneNumber number with
  | Thrown e =>
      (number = ""%string /\ e = JsError "Phone number required")
      \/ (number <> ""%string /\ Phone.includes_at number = false
          /\ (String.length cleaned < 10)%nat
          /\ e = JsError "Invalid phone number")
  | Returned r =>
      number <> ""%string
      /\ ((Phone.includes_at number = true /\ r = number)
          \/ (Phone.includes_at number = false
              /\ (10 <= String.length cleaned)%nat
              /\ exists d,
                   r = d +:+ "@c.us"
                   /\ Phone.digits_only d = true
                   /\ Phone.no_leading_zero d
                   /\ (11 <= String.length d)%nat
                   /\ (String.length cleaned = 10%nat -> d = "91" +:+ cleaned)
                   /\ (String.length cleaned <> 10%nat -> d = cleaned)))
      /\ WhatsAppManagerLite.formatPhoneNumber r = Returned r
  end.
Proof.
  intros cleaned. unfold WhatsAppManagerLite.formatPhoneNumber.
  destruct (String.eqb_spec number "") as [->|Hne]; [by left|].
  destruct (Phone.includes_at number) eqn:Hat.
  - split; [done|]. split; [by left|].
    destruct (String.eqb_spec number "") as [?|_]; [done|]. by rewrite Hat.
  - fold cleaned.
    destruct (add_country_code_shape cleaned) as (Hd & Hz & Hlen & Hshort).
    { apply strip_zeros_only, keep_digits_only. }
    { apply strip_zeros_head. }
    destruct (Nat.ltb_spec (String.length (Phone.add_country_code cleaned)) 10)
      as [Hlt|Hge].
    + right. split; [done|]. split; [done|]. split; [|done].
      unfold Phone.add_country_code in Hlt.
      destruct (Nat.eqb_spec (String.length cleaned) 10) as [E|E]; [|done].
      rewrite length_app_string, E in Hlt. simpl in Hlt. lia.
    + assert (10 <= String.length cleaned)%nat as Hc.
      { destruct (Nat.lt_ge_cases (String.length cleaned) 10) as [Hs|?];
          [|done]. rewrite (Hshort Hs) in Hge. lia. }
      split; [done|]. split.
      * right. split; [done|]. split; [done|].
        exists (Phone.add_country_code cleaned).
        split; [done|]. split; [done|]. split; [done|]. split; [lia|].
        unfold Phone.add_country_code.
        split; intros E.
        -- by rewrite E.
        -- by destruct (Nat.eqb_spec (String.length cleaned) 10).
      * set (r := Phone.add_country_code cleaned +:+ "@c.us").
        assert (Phone.includes_at r = true) as Hr.
        { unfold r. rewrite includes_at_app. apply orb_true_r. }
        destruct (String.eqb_spec r "") as [E|_].
        { rewrite E in Hr. done. }
        by rewrite Hr.
Qed.


(** ** The caches *)

Section JsMapFacts.

Context {V : Type}.
Implicit Types (m : list (string * V)) (key k : string) (v : V).

Lemma jsmap_get_set key v m : JsMap.get key (JsMap.set key v m) = Some v.
Proof.
  unfold JsMap.get. induction m as [|[k x] m IH]; simpl.
  - by rewrite String.eqb_refl.
  - destruct (String.eqb k key) eqn:E; simpl; rewrite E; [done|exact IH].
Qed.

Lemma jsmap_get_set_ne key k v m :
  k <> key -> JsMap.get k (JsMap.set key v m) = JsMap.get k m.
Proof.
  intros Hne. unfold JsMap.get. induction m as [|[k' x] m IH]; simpl.
  - by rewrite (proj2 (String.eqb_neq key k)) by done.
  - destruct (String.eqb_spec k' key) as [->|Hk]; simpl.
    + by rewrite (proj2 (String.eqb_neq key k)) by done.
    + destruct (String.eqb k' k); [done|exact IH].
Qed.

Lemma jsmap_keys_set key v m :
  JsMap.keys (JsMap.set key v m)
  = if bool_decide (key ∈ JsMap.keys m) then JsMap.keys m
    else JsMap.keys m ++ [key].
Proof.
  unfold JsMap.keys. induction m as [|[k x] m IH].
  - done.
  - cbn [JsMap.set]. rewrite (fmap_cons fst (k, x) m). cbn [fst].
    destruct (String.eqb_spec k key) as [->|Hk].
    + rewrite bool_decide_true by left. done.
    + rewrite fmap_cons, IH. cbn [fst].
      destruct (bool_decide_reflect (key ∈ fst <$> m)) as [Hin|Hin].
      * rewrite bool_decide_true by (by right). done.
      * rewrite bool_decide_false; [done|].
        intros [->|?]%elem_of_cons; done.
Qed.

Lemma jsmap_length_set key v m :
  length (JsMap.set key v m)
  = if bool_decide (key ∈ JsMap.keys m) then length m else S (length m).
Proof.
  pose proof (f_equal length (jsmap_keys_set key v m)) as H.
  unfold JsMap.keys in H. rewrite length_fmap in H. rewrite H.
  destruct (bool_decide _); rewrite ?length_app, length_fmap; simpl; lia.
Qed.

Lemma jsmap_keys_delete key m :
  JsMap.keys (JsMap.delete key m)
  = List.filter (fun k => negb (String.eqb k key)) (JsMap.keys m).
Proof.
  unfold JsMap.keys, JsMap.delete. induction m as [|[k x] m IH]; [done|].
  rewrite fmap_cons. cbn [List.filter fst].
  destruct (String.eqb k key); cbn [negb]; rewrite ?fmap_cons, IH; done.
Qed.

Lemma jsmap_length_delete key m :
  (length (JsMap.delete key m) <= length m)%nat.
Proof.
  unfold JsMap.delete. induction m as [|e m IH]; simpl; [done|].
  destruct (negb _); simpl; lia.
Qed.

Lemma jsmap_get_delete key m : JsMap.get key (JsMap.delete key m) = None.
Proof.
  unfold JsMap.get, JsMap.delete. induction m as [|[k x] m IH]; simpl; [done|].
  destruct (String.eqb k key) eqn:E; simpl; [exact IH|]. by rewrite E.
Qed.

Lemma jsmap_get_delete_ne key k m :
  k <> key -> JsMap.get k (JsMap.delete key m) = JsMap.get k m.
Proof.
  intros Hne. unfold JsMap.get, JsMap.delete.
  induction m as [|[k' x] m IH]; simpl; [done|].
  destruct (String.eqb_spec k' key) as [->|Hk]; simpl.
  - by rewrite (proj2 (String.eqb_neq key k)) by done.
  - destruct (String.eqb k' k); [done|exact IH].
Qed.

Lemma filter_keys_NoDup (p : string -> bool) (l : list string) :
  NoDup l -> NoDup (List.filter p l).
Proof.
  induction 1 as [|k l Hk _ IH]; simpl; [constructor|].
  destruct (p k); [|done]. constructor; [|done].
  intros Hin. apply Hk. apply list_elem_of_In in Hin.
  apply filter_In in Hin as [Hin _]. by apply list_elem_of_In.
Qed.

Lemma jsmap_NoDup_set key v m :
  NoDup (JsMap.keys m) -> NoDup (JsMap.keys (JsMap.set key v m)).
Proof.
  intros Hnd. rewrite jsmap_keys_set. case_bool_decide; [done|].
  apply NoDup_app. split; [done|]. split; [|apply NoDup_singleton].
  intros k Hk [->|[]%elem_of_nil]%elem_of_cons. done.
Qed.

Lemma jsmap_NoDup_delete key m :
  NoDup (JsMap.keys m) -> NoDup (JsMap.keys (JsMap.delete key m)).
Proof. intros Hnd. rewrite jsmap_keys_delete. by apply filter_keys_NoDup. Qed.

(** Deleting the first key of a map with distinct keys drops the first
    entry. *)
Lemma jsmap_delete_first m :
  NoDup (JsMap.keys m) -> JsMap.delete_first m = tail m.
Proof.
  destruct m as [|[k x] m]; [done|]. intros Hnd.
  unfold JsMap.delete_first, JsMap.delete. simpl. rewrite String.eqb_refl.
  simpl. apply NoDup_cons in Hnd as [Hk _].
  induction m as [|[k' x'] m IH]; [done|]. simpl.
  simpl in Hk. apply not_elem_of_cons in Hk as [Hne Hk].
  rewrite (proj2 (String.eqb_neq k' k)) by done. simpl. f_equal. by apply IH.
Qed.

Lemma jsmap_NoDup_delete_first m :
  NoDup (JsMap.keys m) -> NoDup (JsMap.keys (JsMap.delete_first m)).
Proof.
  unfold JsMap.delete_first. destruct (JsMap.first_key m); [|done].
  apply jsmap_NoDup_delete.
Qed.

End JsMapFacts.

Section TinyCacheFacts.

Context {V : Type}.
Implicit Types (c : TinyCache.Cache V) (key k : string) (v : V).

Lemma length_tail_le {X} (l : list X) : (length (tail l) <= length l)%nat.
Proof. destruct l; simpl; lia. Qed.

Lemma tiny_set_invariant now key v c :
  NoDup (JsMap.keys c) -> (length c <= TinyCache.maxSize)%nat ->
  NoDup (JsMap.keys (TinyCache.set now key v c))
  /\ (length (TinyCache.set now key v c) <= TinyCache.maxSize)%nat.
Proof.
  intros Hnd Hlen. unfold TinyCache.set.
  destruct (Nat.leb_spec TinyCache.maxSize (length c)) as [Hfull|Hroom].
  - split; [by apply jsmap_NoDup_set, jsmap_NoDup_delete_first|].
    rewrite jsmap_length_set, jsmap_delete_first by done.
    assert (length (tail c) < TinyCache.maxSize)%nat.
    { destruct c; simpl in *; [unfold TinyCache.maxSize; lia | lia]. }
    destruct (bool_decide _); lia.
  - split; [by apply jsmap_NoDup_set|].
    rewrite jsmap_length_set. destruct (bool_decide _); lia.
Qed.

Lemma tiny_call_invariant (call : TinyCache.Call V) c :
  NoDup (JsMap.keys c) -> (length c <= TinyCache.maxSize)%nat ->
  NoDup (JsMap.keys (TinyCache.after_call call c))
  /\ (length (TinyCache.after_call call c) <= TinyCache.maxSize)%nat.
Proof.
  intros Hnd Hlen. destruct call as [now key v|now key|key|]; simpl.
  - by apply tiny_set_invariant.
  - unfold TinyCache.get. destruct (JsMap.get key c) as [item|]; [|done].
    destruct (TinyCache.exp item <? now); [|done]. simpl.
    split; [by apply jsmap_NoDup_delete|].
    pose proof (jsmap_length_delete key c). lia.
  - unfold TinyCache.invalidate. split; [by apply jsmap_NoDup_delete|].
    pose proof (jsmap_length_delete key c). lia.
  - split; [constructor | simpl; lia].
Qed.

End TinyCacheFacts.

(** X16. The size bound of [TinyCache]. Whatever calls of [set], [get],
    [invalidate] and [clear] are made on a new cache, with whatever keys,
    values and clock readings, the cache never holds more than 50 entries,
    and never two for one key. *)
Theorem tiny_cache_bounded {V : Type} (cs : list (TinyCache.Call V)) :
  let cache := TinyCache.after_calls cs [] in
  (TinyCache.getStats cache <= 50)%nat /\ NoDup (JsMap.keys cache).
Proof.
  assert (forall c : TinyCache.Cache V,
            NoDup (JsMap.keys c) -> (length c <= TinyCache.maxSize)%nat ->
            NoDup (JsMap.keys (TinyCache.after_calls cs c))
            /\ (length (TinyCache.after_calls cs c) <= TinyCache.maxSize)%nat)
    as H.
  { induction cs as [|call cs IH]; intros c Hnd Hlen; [done|].
    unfold TinyCache.after_calls. cbn [foldl].
    destruct (tiny_call_invariant call c Hnd Hlen) as [Hnd' Hlen'].
    by apply IH. }
  destruct (H [] ltac:(constructor) ltac:(simpl; lia)) as [Hnd Hlen].
  split; [exact Hlen | exact Hnd].
Qed.

(** X17. Reading back from [TinyCache]. The value just stored under a key is
    read back until 120000 ms after the [set], that instant included,
    whatever the cache held and however full it was; later the read
    answers [null] and removes the entry. Below capacity a [set] leaves
    what is stored under every other key as it was. *)
Theorem tiny_cache_read_after_write {V : Type} now now' key (v : V)
    (c : TinyCache.Cache V) :
  let c' := TinyCache.set now key v c in
  (now' <= now + 120000 -> TinyCache.get now' key c' = (Some v, c'))
  /\ (now + 120000 < now' ->
      TinyCache.get now' key c' = (None, JsMap.delete key c')
      /\ forall t, TinyCache.get t key (JsMap.delete key c')
                   = (None, JsMap.delete key c'))
  /\ ((length c < 50)%nat ->
      forall k, k <> key -> JsMap.get k c' = JsMap.get k c).
Proof.
  intros c'.
  assert (JsMap.get key c' = Some (TinyCache.mkItem v (now + 120000))) as Hget.
  { apply jsmap_get_set. }
  split; [|split].
  - intros Hle. unfold TinyCache.get. rewrite Hget. simpl.
    by rewrite (proj2 (Z.ltb_ge _ _)) by lia.
  - intros Hlt. unfold TinyCache.get. rewrite Hget. simpl.
    rewrite (proj2 (Z.ltb_lt _ _)) by lia. split; [done|].
    intros t. by rewrite jsmap_get_delete.
  - intros Hroom k Hk. unfold c', TinyCache.set.
    rewrite (proj2 (Nat.leb_gt _ _)) by (unfold TinyCache.maxSize; lia).
    by apply jsmap_get_set_ne.
Qed.

Section CacheManagerFacts.

Context {V : Type}.
Implicit Types (s : CacheManager.State V) (key k : string) (v : V).
Implicit Types (m : list (string * CacheManager.Item V)).

(** The loop of [invalidatePattern] is a filter on the keys. *)
Lemma invalidate_loop (regex : string -> bool) (ks : list string) m :
  foldl (fun c key => if regex key then JsMap.delete key c else c) m ks
  = List.filter (fun e => negb (regex e.1 && bool_decide (e.1 ∈ ks))) m.
Proof.
  revert m. induction ks as [|key ks IH]; intros m; cbn [foldl].
  - induction m as [|e m IHm]; [done|]. cbn [List.filter].
    rewrite bool_decide_false by apply not_elem_of_nil.
    rewrite andb_false_r. cbn [negb]. by rewrite <- IHm.
  - rewrite IH. clear IH. induction m as [|e m IHm].
    + by destruct (regex key).
    + destruct (regex key) eqn:Hre.
      * unfold JsMap.delete in *. cbn [List.filter].
        destruct (String.eqb_spec e.1 key) as [He|He]; cbn [negb].
        -- rewrite IHm. rewrite He, Hre.
           rewrite (bool_decide_true (key ∈ key :: ks)) by left. done.
        -- cbn [List.filter]. rewrite IHm.
           replace (bool_decide (e.1 ∈ key :: ks))
             with (bool_decide (e.1 ∈ ks)); [done|].
           apply bool_decide_ext. rewrite elem_of_cons.
           split; [by right|]. intros [Heq|?]; [by rewrite Heq in He|done].
      * cbn [List.filter]. rewrite IHm.
        replace (regex e.1 && bool_decide (e.1 ∈ key :: ks))
          with (regex e.1 && bool_decide (e.1 ∈ ks)); [done|].
        destruct (regex e.1) eqn:Hr1; [|done]. cbn [andb].
        apply bool_decide_ext. rewrite elem_of_cons.
        split; [by right|]. intros [Heq|?]; [|done].
        rewrite Heq, Hre in Hr1. done.
Qed.

Lemma invalidate_loop_all (regex : string -> bool) (ks : list string) m :
  (forall e, e ∈ m -> e.1 ∈ ks) ->
  List.filter (fun e => negb (regex e.1 && bool_decide (e.1 ∈ ks))) m
  = List.filter (fun e => negb (regex e.1)) m.
Proof.
  induction m as [|e m IH]; intros Hin; [done|].
  cbn [List.filter]. rewrite (bool_decide_true (e.1 ∈ ks)) by (apply Hin; left).
  rewrite andb_true_r, IH; [done|]. intros e' He'. apply Hin. by right.
Qed.

Lemma invalidatePattern_filter (regex : string -> bool) s :
  CacheManager.cache (CacheManager.invalidatePattern regex s)
  = List.filter (fun e => negb (regex e.1)) (CacheManager.cache s).
Proof.
  unfold CacheManager.invalidatePattern. simpl. rewrite invalidate_loop.
  apply invalidate_loop_all. intros e He. by apply list_elem_of_fmap_2.
Qed.

Lemma filter_length_le {X} (p : X -> bool) (l : list X) :
  (length (List.filter p l) <= length l)%nat.
Proof. induction l as [|x l IH]; simpl; [done|]. destruct (p x); simpl; lia. Qed.

Lemma cm_set_invariant now key v ttl s :
  CacheManager.well_sized s -> CacheManager.well_sized (CacheManager.set now key v ttl s).
Proof.
  intros [Hnd Hlen]. unfold CacheManager.well_sized, CacheManager.set. simpl.
  destruct (Z.leb_spec (CacheManager.maxSize s)
              (Z.of_nat (length (CacheManager.cache s)))) as [Hfull|Hroom].
  - split; [by apply jsmap_NoDup_set, jsmap_NoDup_delete_first|].
    rewrite jsmap_length_set, jsmap_delete_first by done.
    destruct (CacheManager.cache s) as [|e m]; simpl in *;
      try destruct (bool_decide _); simpl; lia.
  - split; [by apply jsmap_NoDup_set|].
    rewrite jsmap_length_set. destruct (bool_decide _); lia.
Qed.

Lemma cm_call_invariant (call : CacheManager.Call V) s :
  CacheManager.well_sized s ->
  CacheManager.well_sized (CacheManager.after_call call s)
  /\ CacheManager.maxSize (CacheManager.after_call call s)
     = CacheManager.maxSize s
  /\ (CacheManager.hits (CacheManager.after_call call s)
      + CacheManager.misses (CacheManager.after_call call s)
      = CacheManager.hits s + CacheManager.misses s
        + (if CacheManager.is_get call then 1 else 0))%nat.
Proof.
  intros Hinv.
  destruct call as [now key v ttl|now key|key|regex|]; cbn [CacheManager.after_call CacheManager.is_get].
  - split; [by apply cm_set_invariant|]. simpl. split; [done|lia].
  - destruct Hinv as [Hnd Hlen]. unfold CacheManager.get, CacheManager.well_sized.
    destruct (JsMap.get key (CacheManager.cache s)) as [item|];
      [destruct (CacheManager.expiry item <? now)|]; simpl;
      (split; [split|split; [done|lia]]); try done.
    + by apply jsmap_NoDup_delete.
    + pose proof (jsmap_length_delete key (CacheManager.cache s)). lia.
  - destruct Hinv as [Hnd Hlen]. unfold CacheManager.well_sized. simpl.
    split; [split|split; [done|lia]].
    + by apply jsmap_NoDup_delete.
    + pose proof (jsmap_length_delete key (CacheManager.cache s)). lia.
  - destruct Hinv as [Hnd Hlen]. unfold CacheManager.well_sized.
    rewrite invalidatePattern_filter.
    split; [split|split; [done|simpl; lia]].
    + unfold JsMap.keys.
      assert (forall m, fst <$> List.filter (fun e => negb (regex e.1)) m
                        = List.filter (fun k => negb (regex k)) (fst <$> m))
        as ->.
      { induction m as [|e m IH]; [done|]. rewrite fmap_cons.
        cbn [List.filter]. destruct (negb (regex e.1));
          rewrite ?fmap_cons, IH; done. }
      by apply filter_keys_NoDup.
    + pose proof (filter_length_le (fun e => negb (regex e.1))
                    (CacheManager.cache s)).
      simpl. lia.
  - unfold CacheManager.well_sized. simpl. split; [split; [constructor|lia]|]. split; [done|lia].
Qed.

End CacheManagerFacts.

(** X18. Size and statistics of [CacheManager]. Whatever calls of [set],
    [get], [invalidate], [invalidatePattern] and [clear] are made on a new
    cache manager, it never holds more entries than its [maxSize] (one
    entry, when [maxSize] is 0 or negative), never two for one key, and
    [hits] and [misses] together count the calls of [get]: every [get]
    is exactly one of the two. *)
Theorem cache_manager_bounded {V : Type} (maxSize defaultTTL : Z)
    (cs : list (CacheManager.Call V)) :
  let s := CacheManager.after_calls cs (CacheManager.new maxSize defaultTTL) in
  Z.of_nat (length (CacheManager.cache s)) <= Z.max 1 maxSize
  /\ NoDup (JsMap.keys (CacheManager.cache s))
  /\ (CacheManager.hits s + CacheManager.misses s
      = length (List.filter CacheManager.is_get cs))%nat.
Proof.
  assert (forall s0 : CacheManager.State V,
            CacheManager.well_sized s0 ->
            let s := CacheManager.after_calls cs s0 in
            CacheManager.well_sized s
            /\ CacheManager.maxSize s = CacheManager.maxSize s0
            /\ (CacheManager.hits s + CacheManager.misses s
                = CacheManager.hits s0 + CacheManager.misses s0
                  + length (List.filter CacheManager.is_get cs))%nat) as H.
  { induction cs as [|call cs IH]; intros s0 Hinv.
    - simpl. split; [done|]. split; [done|lia].
    - unfold CacheManager.after_calls. cbn [foldl List.filter].
      destruct (cm_call_invariant call s0 Hinv) as (Hinv1 & Hmax1 & Hcount1).
      destruct (IH _ Hinv1) as (Hinv2 & Hmax2 & Hcount2).
      unfold CacheManager.after_calls in Hmax2, Hcount2.
      split; [exact Hinv2|]. split; [by rewrite Hmax2|].
      rewrite Hcount2, Hcount1.
      destruct (CacheManager.is_get call); simpl; lia. }
  destruct (H (CacheManager.new maxSize defaultTTL)) as ([Hnd Hlen] & Hmax & Hc).
  { split; [constructor | simpl; lia]. }
  simpl in Hmax, Hc. rewrite Hmax in Hlen. done.
Qed.

(** X19. [CacheManager] evicts by insertion order, not by use. In a full
    cache, a [get] that hits the entry inserted first does not save it:
    the next [set] of another key deletes it, and every entry under a
    third key stays readable as it was. *)
Theorem cache_manager_evicts_first_inserted {V : Type} now now' key (v : V)
    ttl (s : CacheManager.State V) k0 item0 rest :
  CacheManager.cache s = (k0, item0) :: rest ->
  NoDup (JsMap.keys (CacheManager.cache s)) ->
  CacheManager.maxSize s <= Z.of_nat (length (CacheManager.cache s)) ->
  now <= CacheManager.expiry item0 ->
  k0 <> key ->
  let read := CacheManager.get now k0 s in
  let s' := CacheManager.set now' key v ttl read.2 in
  read.1 = Some (CacheManager.value item0)
  /\ JsMap.get k0 (CacheManager.cache s') = None
  /\ (forall t, (CacheManager.get t k0 s').1 = None)
  /\ JsMap.get key (CacheManager.cache s')
     = Some (CacheManager.mkItem v
               (now' + default (CacheManager.defaultTTL s) ttl))
  /\ (forall k, k <> k0 -> k <> key ->
                JsMap.get k (CacheManager.cache s')
                = JsMap.get k (CacheManager.cache s)).
Proof.
  intros Hc Hnd Hfull Hlive Hne read s'.
  assert (JsMap.get k0 (CacheManager.cache s) = Some item0) as Hget.
  { rewrite Hc. unfold JsMap.get. simpl. by rewrite String.eqb_refl. }
  assert (read = (Some (CacheManager.value item0),
                  CacheManager.mkState (CacheManager.cache s)
                    (CacheManager.maxSize s) (CacheManager.defaultTTL s)
                    (S (CacheManager.hits s)) (CacheManager.misses s)))
    as Hread.
  { unfold read, CacheManager.get. rewrite Hget.
    by rewrite (proj2 (Z.ltb_ge _ _)) by lia. }
  assert (CacheManager.cache s'
          = JsMap.set key
              (CacheManager.mkItem v
                 (now' + default (CacheManager.defaultTTL s) ttl))
              rest) as Hs'.
  { unfold s'. rewrite Hread. unfold CacheManager.set. simpl.
    rewrite (proj2 (Z.leb_le _ _)) by done.
    rewrite jsmap_delete_first by done. by rewrite Hc. }
  assert (JsMap.get k0 rest = None) as Hk0.
  { rewrite Hc in Hnd. simpl in Hnd. apply NoDup_cons in Hnd as [Hk _].
    unfold JsMap.get. destruct (List.find _ rest) as [e|] eqn:E; [|done].
    exfalso. apply Hk. apply find_some in E as [Hin He].
    apply String.eqb_eq in He. rewrite <- He.
    apply list_elem_of_In in Hin. by apply (list_elem_of_fmap_2 fst). }
  assert (JsMap.get k0 (CacheManager.cache s') = None) as Hgone.
  { rewrite Hs', jsmap_get_set_ne by done. exact Hk0. }
  split; [by rewrite Hread|]. split; [exact Hgone|]. split.
  { intros t. unfold CacheManager.get. by rewrite Hgone. }
  split; [rewrite Hs'; apply jsmap_get_set|].
  intros k Hk Hkey. rewrite Hs', jsmap_get_set_ne by done.
  rewrite Hc. unfold JsMap.get. simpl.
  by rewrite (proj2 (String.eqb_neq k0 k)) by done.
Qed.

Lemma cache_manager_evicts_first_inserted_witness :
  let s :=
    CacheManager.mkState
      [("a"%string, CacheManager.mkItem 1%nat 100);
       ("b"%string, CacheManager.mkItem 2%nat 100)] 2 60000 0 0 in
  let read := CacheManager.get 50 "a" s in
  let s' := CacheManager.set 60 "c" 3%nat None read.2 in
  read.1 = Some 1%nat
  /\ JsMap.get "a" (CacheManager.cache s') = None
  /\ (forall t, (CacheManager.get t "a" s').1 = None)
  /\ JsMap.get "c" (CacheManager.cache s')
     = Some (CacheManager.mkItem 3%nat (60 + default 60000 None))
  /\ (forall k, k <> "a"%string -> k <> "c"%string ->
                JsMap.get k (CacheManager.cache s')
                = JsMap.get k (CacheManager.cache s)).
Proof.
  intros s.
  apply (cache_manager_evicts_first_inserted 50 60 "c" 3%nat None s "a"
           (CacheManager.mkItem 1%nat 100)
           [("b"%string, CacheManager.mkItem 2%nat 100)]);
    [reflexivity
    | unfold JsMap.keys; simpl; apply NoDup_cons;
      split; [by intros ?%list_elem_of_singleton | apply NoDup_singleton]
    | simpl; lia | simpl; lia | done].
Defined.

(** X20. [invalidatePattern] removes exactly the entries whose key the
    pattern matches: afterwards nothing is stored under a matching key,
    every other key holds what it held, the order of the entries that stay
    is unchanged, and the hit and miss counters are not touched. *)
Theorem invalidatePattern_removes_matching {V : Type}
    (regex : string -> bool) (s : CacheManager.State V) :
  let s' := CacheManager.invalidatePattern regex s in
  CacheManager.cache s'
  = List.filter (fun e => negb (regex e.1)) (CacheManager.cache s)
  /\ (forall k,
        JsMap.get k (CacheManager.cache s')
        = if regex k then None else JsMap.get k (CacheManager.cache s))
  /\ CacheManager.hits s' = CacheManager.hits s
  /\ CacheManager.misses s' = CacheManager.misses s.
Proof.
  intros s'. unfold s'. rewrite invalidatePattern_filter.
  split; [done|]. split; [|done].
  intros k. unfold JsMap.get.
  induction (CacheManager.cache s) as [|[k' x] m IH]; simpl.
  - by destruct (regex k).
  - destruct (regex k') eqn:Hk'; simpl.
    + destruct (String.eqb_spec k' k) as [<-|Hne]; [by rewrite Hk' in *|].
      exact IH.
    + destruct (String.eqb_spec k' k) as [<-|Hne]; [by rewrite Hk'|].
      exact IH.
Qed.

Section MessageQueueFacts.

Import MessageQueue.

Implicit Types (s : State) (m : Message).

Lemma flush_accounted now s delivered :
  consistent s ->
  consistent (flush now s).1
  /\ accounted delivered (flush now s).1 = accounted delivered s.
Proof.
  unfold consistent, accounted, flush. intros Hc.
  destruct (processing s) eqn:Hp; [simpl; by rewrite Hp|].
  destruct (bool_decide_reflect (length (queue s) = 0%nat));
    [simpl; by rewrite Hp|].
  symmetry in Hc. apply bool_decide_eq_false in Hc.
  destruct (in_flight s) as [b|]; [exfalso; apply Hc; eauto|].
  simpl. by rewrite take_drop.
Qed.

Lemma step_accounted e s logs delivered :
  consistent s -> logs = sanitize <$> delivered ->
  exists delivered',
    (step e (s, logs)).2 = sanitize <$> delivered'
    /\ consistent (step e (s, logs)).1
    /\ accounted delivered' (step e (s, logs)).1
       = accounted delivered s ++ added [e].
Proof.
  intros Hc ->. destruct e as [now message|now|o]; simpl.
  - exists delivered. split; [done|]. unfold add. cbn [batchSize queue].
    set (s1 := mkState _ _ _ _ _).
    assert (consistent s1) as Hc1 by done.
    assert (accounted delivered s1
            = accounted delivered s
              ++ [<["queued_at"%string := JNumber now]> message]) as Ha1.
    { unfold accounted, s1. simpl. by rewrite !app_assoc. }
    destruct (bool_decide _); [|split; [exact Hc1|exact Ha1]].
    destruct (flush_accounted now s1 delivered Hc1) as [? ->].
    split; [done|exact Ha1].
  - exists delivered. split; [done|].
    destruct (flush_accounted now s delivered Hc) as [? ->].
    split; [done|]. by rewrite app_nil_r.
  - rewrite app_nil_r. unfold step, flush_settled.
    destruct (in_flight s) as [batch|] eqn:Hf.
    + assert (accounted delivered s = delivered ++ batch ++ queue s) as ->.
      { unfold accounted. by rewrite Hf. }
      destruct o as [|e|e]; cbn [fst snd].
      * exists (delivered ++ batch). rewrite fmap_app.
        split; [reflexivity|]. split; [reflexivity|].
        unfold accounted. simpl. by rewrite <- app_assoc.
      * exists delivered. split; [reflexivity|]. split; reflexivity.
      * exists delivered. split; [reflexivity|]. split; reflexivity.
    + exists delivered.
      destruct o; (split; [reflexivity|]; split; [exact Hc|reflexivity]).
Qed.

Lemma run_accounted es :
  forall s logs delivered,
    consistent s -> logs = sanitize <$> delivered ->
    exists delivered',
      (run es (s, logs)).2 = sanitize <$> delivered'
      /\ consistent (run es (s, logs)).1
      /\ accounted delivered' (run es (s, logs)).1
         = accounted delivered s ++ added es.
Proof.
  induction es as [|e es IH]; intros s logs delivered Hc Hl.
  - exists delivered. simpl. by rewrite app_nil_r.
  - destruct (step_accounted e s logs delivered Hc Hl)
      as (d1 & Hl1 & Hc1 & Ha1).
    unfold run. cbn [foldl].
    destruct (step e (s, logs)) as [s1 logs1].
    destruct (IH s1 logs1 d1 Hc1 Hl1) as (d2 & Hl2 & Hc2 & Ha2).
    exists d2. split; [exact Hl2|]. split; [exact Hc2|].
    unfold run in Ha2. cbn [fst] in Ha1. rewrite Ha2, Ha1.
    rewrite <- app_assoc. f_equal.
    unfold added. simpl. by rewrite app_nil_r.
Qed.

Lemma sanitize_loop (m : Message) (cols : list string) :
  forall (clean : Message) (col : string),
    foldl (fun clean col =>
             match m !! col with
             | Some v => <[col := v]> clean
             | None => clean
             end) clean cols !! col
    = if bool_decide (col ∈ cols)
      then match m !! col with Some v => Some v | None => clean !! col end
      else clean !! col.
Proof.
  induction cols as [|c cols IH]; intros clean col; cbn [foldl].
  - rewrite bool_decide_false; [done|]. apply not_elem_of_nil.
  - rewrite IH.
    destruct (bool_decide_reflect (col ∈ cols)) as [Hin|Hin].
    + rewrite bool_decide_true by (by right).
      destruct (m !! col) as [v|] eqn:Hv; [done|].
      destruct (m !! c) as [vc|] eqn:Hc; [|done].
      rewrite lookup_insert_ne; [done|]. intros ->. congruence.
    + destruct (decide (col = c)) as [->|Hne].
      * rewrite bool_decide_true by left.
        destruct (m !! c) as [vc|]; [apply lookup_insert_eq|done].
      * rewrite bool_decide_false
          by (intros [?|?]%elem_of_cons; done).
        destruct (m !! c) as [vc|]; [|done].
        by apply lookup_insert_ne.
Qed.

Lemma queued_at_dropped : "queued_at"%string ∉ validColumns.
Proof. apply (bool_decide_unpack _). by vm_compute. Qed.

Lemma sanitize_lookup m col :
  sanitize m !! col
  = if bool_decide (col ∈ validColumns) then m !! col else None.
Proof.
  unfold sanitize. rewrite sanitize_loop, lookup_empty.
  destruct (bool_decide _); [|done]. by destruct (m !! col).
Qed.

End MessageQueueFacts.

(** X21. [MessageQueue] loses, repeats and reorders nothing. Whatever
    messages are added, whenever [flush] is called and however each insert
    settles, the rows of [message_logs], the batch in flight and the
    messages waiting are, in that order, the messages added, in the order
    of their addition: a batch whose insert is refused or throws is back
    at the front of the queue. The flag [processing] is set exactly while
    an insert is in flight. *)
Theorem message_queue_conserves now0 batchSize
    (es : list MessageQueue.Event) :
  let '(s, message_logs) :=
    MessageQueue.run es (MessageQueue.new now0 batchSize, []) in
  exists delivered,
    message_logs = MessageQueue.sanitize <$> delivered
    /\ delivered ++ default [] (MessageQueue.in_flight s)
       ++ MessageQueue.queue s
       = MessageQueue.added es
    /\ MessageQueue.processing s
       = bool_decide (is_Some (MessageQueue.in_flight s)).
Proof.
  destruct (run_accounted es (MessageQueue.new now0 batchSize) [] [])
    as (d & Hl & Hc & Ha); [done|done|].
  destruct (MessageQueue.run es (MessageQueue.new now0 batchSize, []))
    as [s logs].
  exists d. split; [exact Hl|]. split; [exact Ha|exact Hc].
Qed.

(** X22. What [MessageQueue] sends to the table. A row is the message with
    the columns of the whitelist and nothing else: a property of the
    message outside the whitelist is dropped, a column the message does not
    have is not set. So the time stamp [queued_at] that [add] puts on
    every message reaches no row: every row of [message_logs] is the
    sanitized form of a message as it was given to [add]. Sanitizing
    twice changes nothing. *)
Theorem message_logs_sanitized now0 batchSize
    (es : list MessageQueue.Event) :
  (forall m col,
     MessageQueue.sanitize m !! col
     = if bool_decide (col ∈ MessageQueue.validColumns) then m !! col
       else None)
  /\ (forall m,
        MessageQueue.sanitize (MessageQueue.sanitize m)
        = MessageQueue.sanitize m)
  /\ Forall
       (fun row =>
          row !! "queued_at"%string = None
          /\ exists now message,
               MessageQueue.Add now message ∈ es
               /\ row = MessageQueue.sanitize message)
       (MessageQueue.run es (MessageQueue.new now0 batchSize, [])).2.
Proof.
  split; [apply sanitize_lookup|]. split.
  { intros m. apply map_eq. intros col. rewrite !sanitize_lookup.
    by destruct (bool_decide _). }
  destruct (run_accounted es (MessageQueue.new now0 batchSize) [] [])
    as (d & Hl & _ & Ha); [done|done|].
  rewrite Hl. apply Forall_fmap, Forall_forall. intros m Hm.
  assert (m ∈ MessageQueue.added es) as Hin.
  { unfold MessageQueue.accounted in Ha. simpl in Ha. rewrite <- Ha.
    apply elem_of_app. by left. }
  unfold MessageQueue.added in Hin. apply list_elem_of_bind in Hin
    as (e & He & Hes).
  destruct e as [now message|now|o]; try by apply elem_of_nil in He.
  apply list_elem_of_singleton in He. subst m. simpl. split.
  - rewrite sanitize_lookup. by rewrite bool_decide_false by apply queued_at_dropped.
  - exists now, message. split; [done|]. apply map_eq. intros col.
    rewrite !sanitize_lookup.
    destruct (bool_decide_reflect (col ∈ MessageQueue.validColumns)) as [Hc|];
      [|done].
    apply lookup_insert_ne. intros <-.
    by apply queued_at_dropped in Hc.
Qed.

Section LiteMessageQueueFacts.

Import LiteMessageQueue.

Lemma lite_step_bounded e queue batches :
  (length queue < 20)%nat ->
  Forall (fun b => (1 <= length b <= 20)%nat) batches ->
  let w := step e (queue, batches) in
  (length w.1 < 20)%nat
  /\ Forall (fun b => (1 <= length b <= 20)%nat) w.2
  /\ concat w.2 ++ w.1 = concat batches ++ queue ++ added [e].
Proof.
  intros Hlen Hall. destruct e as [msg|]; cbn [step added mbind].
  - unfold add.
    destruct (bool_decide_reflect (20 <= length (queue ++ [msg]))%nat)
      as [Hfull|Hroom].
    + unfold flush. rewrite length_app in Hfull. simpl in Hfull.
      assert (length (queue ++ [msg]) <> 0%nat) as Hne
        by (rewrite length_app; simpl; lia).
      rewrite (bool_decide_false _ Hne).
      cbn [fst snd option_list]. rewrite concat_app. simpl.
      rewrite !app_nil_r.
      split; [rewrite length_drop, length_app; cbn [length]; lia|]. split.
      * apply Forall_app. split; [done|]. constructor; [|done].
        rewrite length_take, length_app. cbn [length]. lia.
      * rewrite <- app_assoc, take_drop. done.
    + rewrite length_app in Hroom. simpl in Hroom. cbn [fst snd option_list].
      rewrite !app_nil_r.
      split; [rewrite length_app; simpl; lia|]. split; [done|]. done.
  - unfold flush.
    destruct (bool_decide_reflect (length queue = 0%nat)) as [Hz|Hnz];
      cbn [fst snd option_list].
    + rewrite ?app_nil_r. split; [done|]. split; [done|].
      unfold added. simpl. by rewrite ?app_nil_r.
    + rewrite concat_app. unfold added. simpl. rewrite ?app_nil_r.
      split; [rewrite length_drop; lia|]. split.
      * apply Forall_app. split; [done|]. constructor; [|done].
        rewrite length_take. lia.
      * rewrite <- app_assoc, take_drop. done.
Qed.

End LiteMessageQueueFacts.

(** X23. The message queue of the lite server. Whatever messages are added
    and whenever [flush] is called, fewer than 20 messages are waiting
    after each call; every batch handed to the insert holds between 1 and
    20 messages; and the batches followed by the messages waiting are the
    messages added, in order: each message is handed to the insert once,
    whether or not that insert succeeds. *)
Theorem lite_message_queue_bounded (es : list LiteMessageQueue.Event) :
  let w := LiteMessageQueue.run es ([], []) in
  (length w.1 < 20)%nat
  /\ Forall (fun b => (1 <= length b <= 20)%nat) w.2
  /\ concat w.2 ++ w.1 = LiteMessageQueue.added es.
Proof.
  assert (forall queue batches,
            (length queue < 20)%nat ->
            Forall (fun b => (1 <= length b <= 20)%nat) batches ->
            let w := LiteMessageQueue.run es (queue, batches) in
            (length w.1 < 20)%nat
            /\ Forall (fun b => (1 <= length b <= 20)%nat) w.2
            /\ concat w.2 ++ w.1
               = concat batches ++ queue ++ LiteMessageQueue.added es) as H.
  { induction es as [|e es IH]; intros queue batches Hlen Hall.
    - simpl. by rewrite app_nil_r.
    - destruct (lite_step_bounded e queue batches Hlen Hall)
        as (Hlen1 & Hall1 & Hacc1).
      unfold LiteMessageQueue.run. cbn [foldl].
      destruct (LiteMessageQueue.step e (queue, batches)) as [q1 b1].
      destruct (IH q1 b1 Hlen1 Hall1) as (Hlen2 & Hall2 & Hacc2).
      split; [exact Hlen2|]. split; [exact Hall2|].
      unfold LiteMessageQueue.run in Hacc2. rewrite Hacc2.
      cbn [fst snd] in Hacc1. rewrite app_assoc, Hacc1, <- !app_assoc.
      do 2 f_equal. unfold LiteMessageQueue.added. simpl.
      by rewrite app_nil_r. }
  apply (H [] []); [simpl; lia | constructor].
Qed.

(** ** The reply route *)

Section ReplyRouteFacts.

Import ReplyRoute.

Lemma validWebhook_admits webhooks v :
  (exists w, validWebhook webhooks v = Some w) <-> admits webhooks v.
Proof.
  unfold validWebhook, admits. split.
  - intros [w Hw]. apply find_some in Hw as [Hin Hp].
    apply andb_true_iff in Hp as [? ?]. exists w.
    split; [by apply list_elem_of_In|done].
  - intros (w & Hin & Ha & Hs).
    destruct (List.find _ webhooks) as [w'|] eqn:E; [eauto|].
    exfalso. eapply find_none in E; [|by apply list_elem_of_In].
    simpl in E. by rewrite Ha, Hs in E.
Qed.

Lemma respond_sends isN8n send s :
  (respond isN8n send s).2 = [s]
  /\ (isN8n = true -> (respond isN8n send s).1 = Accepted).
Proof.
  unfold respond. destruct isN8n; [done|]. by destruct (send s).
Qed.

End ReplyRouteFacts.

(** X24. The reply route sends only for a request that a webhook admits. In
    both servers, whatever the body and whatever the database and the
    WhatsApp manager do, the handler calls the manager at most once, and
    only if [account_id] and [number] are given and an active webhook of
    the account has a secret strictly equal to the [webhook_secret] of the
    body. A webhook that is not active admits nothing; a body without
    [webhook_secret] is never admitted, since a stored secret is a string
    or [null]. *)
Theorem reply_route_guarded handler isN8n body getWebhooks send :
  handler = ReplyRoute.lite_handler \/ handler = ReplyRoute.optimized_handler ->
  let sends := (handler isN8n body getWebhooks send).2 in
  (sends = [] \/ exists s, sends = [s])
  /\ (sends <> [] ->
      ReplyRoute.truthy (ReplyRoute.account_id body) = true
      /\ ReplyRoute.truthy (ReplyRoute.number body) = true
      /\ exists webhooks,
           getWebhooks = Returned (Some webhooks)
           /\ ReplyRoute.admits webhooks (ReplyRoute.webhook_secret body))
  /\ (ReplyRoute.webhook_secret body = ReplyRoute.JsUndefined -> sends = []).
Proof.
  intros Hh sends.
  assert ((sends = [] \/ exists s, sends = [s])
          /\ (sends <> [] ->
              ReplyRoute.truthy (ReplyRoute.account_id body) = true
              /\ ReplyRoute.truthy (ReplyRoute.number body) = true
              /\ exists webhooks,
                   getWebhooks = Returned (Some webhooks)
                   /\ ReplyRoute.admits webhooks
                        (ReplyRoute.webhook_secret body))) as [H1 H2].
  { unfold sends.
    destruct Hh as [-> | ->];
      unfold ReplyRoute.lite_handler, ReplyRoute.optimized_handler;
      destruct (ReplyRoute.truthy (ReplyRoute.account_id body)) eqn:Ha;
      destruct (ReplyRoute.truthy (ReplyRoute.number body)) eqn:Hn;
      cbn [negb orb]; try (split; [by left|done]);
      match goal with
      | |- context [if ?c then (ReplyRoute.BadRequest _, _) else _] =>
          destruct c; try (split; [by left|done])
      end;
      destruct getWebhooks as [[webhooks|]|e]; try (split; [by left|done]);
      try (destruct (bool_decide (length webhooks = 0%nat));
           [split; [by left|done]|]);
      destruct (ReplyRoute.validWebhook webhooks
                  (ReplyRoute.webhook_secret body)) as [w|] eqn:Hw;
      try (split; [by left|done]);
      match goal with
      | |- context [ReplyRoute.respond ?n ?f ?s] =>
          destruct (respond_sends n f s) as [-> _]
      end;
      (split; [right; eauto|]); intros _;
      (split; [done|]); (split; [done|]);
      exists webhooks; (split; [done|]);
      apply validWebhook_admits; eauto. }
  split; [exact H1|]. split; [exact H2|].
  intros Hsecret. destruct H1 as [H1|[s Hs]]; [exact H1|].
  exfalso. destruct H2 as (_ & _ & webhooks & _ & (w & _ & _ & Heq)).
  { by rewrite Hs. }
  rewrite Hsecret in Heq. by destruct (wh_secret w).
Qed.

Lemma reply_route_guarded_witness :
  let body :=
    ReplyRoute.mkBody (ReplyRoute.JsString "acc-1")
      (ReplyRoute.JsString "919876543210") (ReplyRoute.JsString "hello")
      (ReplyRoute.JsString "s3cr3t") ReplyRoute.NoMedia
      ReplyRoute.JsUndefined in
  let getWebhooks := Returned (Some [Sample.hook]) in
  let send := fun _ : ReplyRoute.Send => Returned Sample.body in
  let sends := (ReplyRoute.lite_handler false body getWebhooks send).2 in
  (sends = [] \/ exists s, sends = [s])
  /\ (sends <> [] ->
      ReplyRoute.truthy (ReplyRoute.account_id body) = true
      /\ ReplyRoute.truthy (ReplyRoute.number body) = true
      /\ exists webhooks,
           getWebhooks = Returned (Some webhooks)
           /\ ReplyRoute.admits webhooks (ReplyRoute.webhook_secret body))
  /\ (ReplyRoute.webhook_secret body = ReplyRoute.JsUndefined -> sends = []).
Proof.
  intros body getWebhooks send.
  apply (reply_route_guarded ReplyRoute.lite_handler false body getWebhooks
           send).
  by left.
Defined.

(** X25. What the reply route does for a text reply it admits. With
    [account_id], [number] and [message] given, no media, and the
    [webhook_secret] of the body admitted by an active webhook of the
    account, both servers call [sendMessage] once with the three values;
    for n8n the answer is given at once and does not depend on what the
    send does, otherwise it is the result of the send, or 500 when the send
    throws. A body whose [webhook_secret] is [null] is admitted by an
    active webhook that was stored without a secret. *)
Theorem reply_route_admitted_text (isN8n : bool) (body : ReplyRoute.Body)
    (webhooks : list Webhook) (send : ReplyRoute.Send -> completion Json) :
  ReplyRoute.truthy (ReplyRoute.account_id body) = true ->
  ReplyRoute.truthy (ReplyRoute.number body) = true ->
  ReplyRoute.truthy (ReplyRoute.message body) = true ->
  ReplyRoute.media body = ReplyRoute.NoMedia ->
  ReplyRoute.admits webhooks (ReplyRoute.webhook_secret body) ->
  let s :=
    ReplyRoute.SendMessage (ReplyRoute.account_id body)
      (ReplyRoute.number body) (ReplyRoute.message body) in
  let answer :=
    if isN8n then ReplyRoute.Accepted
    else match send s with
         | Returned result => ReplyRoute.Result result
         | Thrown e => ReplyRoute.ServerError (exn_message e)
         end in
  ReplyRoute.lite_handler isN8n body (Returned (Some webhooks)) send
  = (answer, [s])
  /\ ReplyRoute.optimized_handler isN8n body (Returned (Some webhooks)) send
     = (answer, [s])
  /\ (forall w,
        w ∈ webhooks -> wh_is_active w = true -> wh_secret w = None ->
        ReplyRoute.admits webhooks ReplyRoute.JsNull).
Proof.
  intros Ha Hn Hm Hmedia Hadm s answer.
  assert (webhooks <> []) as Hne.
  { destruct Hadm as (w & Hin & _). intros ->. by apply elem_of_nil in Hin. }
  apply validWebhook_admits in Hadm as [w Hw].
  unfold ReplyRoute.lite_handler, ReplyRoute.optimized_handler.
  rewrite Ha, Hn, Hm, Hmedia, Hw. cbn [negb orb andb].
  rewrite bool_decide_false by (by destruct webhooks).
  unfold ReplyRoute.respond. fold s. unfold answer.
  split; [by destruct isN8n, (send s)|].
  split; [by destruct isN8n, (send s)|].
  intros w' Hin Hact Hsec. exists w'. by rewrite Hsec.
Qed.

Lemma reply_route_admitted_text_witness :
  let body :=
    ReplyRoute.mkBody (ReplyRoute.JsString "acc-1")
      (ReplyRoute.JsString "919876543210") (ReplyRoute.JsString "hello")
      ReplyRoute.JsNull ReplyRoute.NoMedia ReplyRoute.JsUndefined in
  let send := fun _ : ReplyRoute.Send => Thrown (JsError "Account not connected") in
  let s :=
    ReplyRoute.SendMessage (ReplyRoute.account_id body)
      (ReplyRoute.number body) (ReplyRoute.message body) in
  let answer :=
    if true then ReplyRoute.Accepted
    else match send s with
         | Returned result => ReplyRoute.Result result
         | Thrown e => ReplyRoute.ServerError (exn_message e)
         end in
  ReplyRoute.lite_handler true body (Returned (Some [Sample.open_hook])) send
  = (answer, [s])
  /\ ReplyRoute.optimized_handler true body
       (Returned (Some [Sample.open_hook])) send
     = (answer, [s])
  /\ (forall w,
        w ∈ [Sample.open_hook] -> wh_is_active w = true ->
        wh_secret w = None ->
        ReplyRoute.admits [Sample.open_hook] ReplyRoute.JsNull).
Proof.
  intros body send.
  apply (reply_route_admitted_text true body [Sample.open_hook] send);
    try reflexivity.
  exists Sample.open_hook. split; [left|]. split; reflexivity.
Defined.

(** ** The test route, case by case *)

(** X26. The webhook test route, in both servers, with the lookup
    [db.getWebhook] it makes, case by case. The lookup ends in [.single()]
    and throws on its error, so it never answers [null]: the route never
    answers 404. When no webhook, or more than one, has the id, or the
    table answers with an error, the route answers 500 with the message of
    that error and sends nothing. When exactly one webhook has the id,
    exactly one request is sent, to the URL of that webhook, whichever
    account the route was called for; any status the endpoint answers, a
    500 included, is reported with [success] set exactly for 2xx, and only
    the lack of an answer gives 500. The route never touches the delivery
    queue. *)
Theorem test_route_outcomes net now accountId webhookId webhooks w :
  Forall
    (fun request =>
       let result :=
         TestRoute.handler request net now accountId
           (Webhooks.getWebhook webhookId webhooks) w in
       queue result.2 = queue w
       /\ queueUnavailable result.2 = queueUnavailable w
       /\ result.1 <> TestRoute.NotFound
       /\ match webhooks with
          | Webhooks.Failing e =>
              result.1 = TestRoute.ServerError (message e)
              /\ sent result.2 = sent w
          | Webhooks.Stored ws =>
              match Webhooks.select_eq_id webhookId ws with
              | [webhook] =>
                  let rq := request now accountId webhook in
                  wh_id webhook = webhookId
                  /\ webhook ∈ ws
                  /\ sent result.2 = sent w ++ [rq]
                  /\ req_method rq = POST
                  /\ req_url rq = wh_url webhook
                  /\ (forall accountId',
                        req_url (request now accountId' webhook) = req_url rq
                        /\ req_headers (request now accountId' webhook)
                           = req_headers rq)
                  /\ result.1
                     = match net (sent w) rq with
                       | Response st =>
                           TestRoute.Tested (bool_decide (200 <= st < 300)) st
                       | NetworkFailure msg => TestRoute.ServerError msg
                       end
              | _ =>
                  result.1
                  = TestRoute.ServerError (message Webhooks.not_single)
                  /\ sent result.2 = sent w
              end
          end)
    [TestRoute.optimized_request; TestRoute.lite_request].
Proof.
  assert (forall st, (200 <=? st) && (st <? 300) = bool_decide (200 <= st < 300))
    as Hst.
  { intros st. destruct (Z.leb_spec 200 st), (Z.ltb_spec st 300); simpl;
      symmetry; (apply bool_decide_eq_true_2 || apply bool_decide_eq_false_2);
      lia. }
  assert (forall ws x, Webhooks.select_eq_id webhookId ws = [x] ->
                       wh_id x = webhookId /\ x ∈ ws) as Hsel.
  { intros ws x Hx.
    assert (x ∈ Webhooks.select_eq_id webhookId ws) as Hin
      by (rewrite Hx; left).
    apply list_elem_of_In, filter_In in Hin as [Hin Heq].
    split; [by apply String.eqb_eq | by apply list_elem_of_In]. }
  apply Forall_cons; split;
    [|apply Forall_cons; split; [|by apply Forall_nil]].
  all: cbv zeta; unfold Webhooks.getWebhook.
  all: destruct webhooks as [ws|e]; [|done].
  all: destruct (Webhooks.select_eq_id webhookId ws) as [|webhook [|? ?]]
         eqn:E; [done| |done].
  all: destruct (Hsel ws webhook E) as [Hid Hin].
  all: unfold TestRoute.handler, axios_post; simpl.
  all: destruct (net _ _) as [st|msg]; simpl; rewrite ?Hst; done.
Qed.

(** X27. The headers of the test request of the lite server, name by name.
    [X-Webhook-Secret] is the stored secret when there is one, whatever
    the webhook's own headers say. Any other name, and [X-Webhook-Secret]
    when no secret is stored, is taken from the webhook's own headers when
    they have it, and otherwise is [application/json] for [Content-Type],
    the server's name for [User-Agent], and absent. *)
Theorem lite_test_headers now accountId webhook name :
  req_headers (TestRoute.lite_request now accountId webhook) !! name
  = match truthy (wh_secret webhook) with
    | Some secret =>
        if bool_decide (name = TestRoute.x_webhook_secret) then Some secret
        else
          match default ∅ (wh_headers webhook) !! name with
          | Some v => Some v
          | None =>
              if bool_decide (name = TestRoute.content_type)
              then Some TestRoute.application_json
              else if bool_decide (name = TestRoute.user_agent)
                   then Some "WhatsApp-Gateway-Lite/1.0"%string
                   else None
          end
    | None =>
        match default ∅ (wh_headers webhook) !! name with
        | Some v => Some v
        | None =>
            if bool_decide (name = TestRoute.content_type)
            then Some TestRoute.application_json
            else if bool_decide (name = TestRoute.user_agent)
                 then Some "WhatsApp-Gateway-Lite/1.0"%string
                 else None
        end
    end.
Proof.
  unfold TestRoute.lite_request, TestRoute.add_secret. simpl.
  assert (forall own : gmap string string,
            (own ∪ <[TestRoute.user_agent := "WhatsApp-Gateway-Lite/1.0"%string]>
                     {[TestRoute.content_type := TestRoute.application_json]})
              !! name
            = match own !! name with
              | Some v => Some v
              | None =>
                  if bool_decide (name = TestRoute.content_type)
                  then Some TestRoute.application_json
                  else if bool_decide (name = TestRoute.user_agent)
                       then Some "WhatsApp-Gateway-Lite/1.0"%string
                       else None
              end) as Hdef.
  { intros own. rewrite lookup_union.
    destruct (own !! name) as [v|]; simpl.
    - by destruct (_ !! name).
    - rewrite (left_id None _).
      destruct (bool_decide_reflect (name = TestRoute.content_type)) as [->|Hc].
      + rewrite lookup_insert_ne by done. apply lookup_singleton_eq.
      + destruct (bool_decide_reflect (name = TestRoute.user_agent))
          as [->|Hu].
        * apply lookup_insert_eq.
        * rewrite lookup_insert_ne by done. by apply lookup_singleton_ne. }
  destruct (truthy (wh_secret webhook)) as [secret|]; [|apply Hdef].
  destruct (bool_decide_reflect (name = TestRoute.x_webhook_secret))
    as [->|Hx].
  - apply lookup_insert_eq.
  - rewrite lookup_insert_ne by done. apply Hdef.
Qed.

(** ** Per-number settings *)

Section NumberSettingsFacts.

Import NumberSettings.

Implicit Types (rs : list Row) (r row : Row).

Lemma matches_spec accountId phone r :
  matches accountId phone r = true
  <-> (account_id r, phone_number r) = (accountId, phone).
Proof.
  unfold matches. rewrite andb_true_iff, !String.eqb_eq. split.
  - by intros [-> ->].
  - by intros [= -> ->].
Qed.

Lemma filter_matches_none accountId phone rs :
  (accountId, phone) ∉ ((fun r => (account_id r, phone_number r)) <$> rs) ->
  List.filter (matches accountId phone) rs = [].
Proof.
  induction rs as [|r rs IH]; [done|]. rewrite fmap_cons.
  intros [Hr Hrs]%not_elem_of_cons. cbn [List.filter].
  destruct (matches accountId phone r) eqn:E; [|by apply IH].
  apply matches_spec in E. congruence.
Qed.




End NumberSettingsFacts.



(** X29. The per-number switch fails open. [isWebhookEnabledForNumber]
    answers [false] only when the settings it reads, from the cache or
    from the table, are a row whose [webhook_enabled] is [false]: a number
    without a row, a flag that is [NULL] and a table that answers with an
    error all count as enabled. In the last case, with nothing cached,
    nothing is cached either, so the next call asks the table again. *)
Theorem number_settings_fail_open now accountId phoneNumber t
    (c : CacheManager.State NumberSettings.Settings) :
  let key :=
    NumberSettings.cacheKey accountId (Phone.keep_digits phoneNumber) in
  let result :=
    NumberSettings.isWebhookEnabledForNumber now accountId phoneNumber (t, c) in
  (result.1 = false ->
   (exists item r,
      JsMap.get key (CacheManager.cache c) = Some item
      /\ now <= CacheManager.expiry item
      /\ CacheManager.value item = NumberSettings.Stored r
      /\ NumberSettings.webhook_enabled r = Some false)
   \/ (exists rs r,
         t = NumberSettings.Rows rs /\ r ∈ rs
         /\ NumberSettings.account_id r = accountId
         /\ NumberSettings.phone_number r = Phone.keep_digits phoneNumber
         /\ NumberSettings.webhook_enabled r = Some false))
  /\ (forall e,
        t = NumberSettings.Unavailable e -> code e <> "PGRST116"%string ->
        JsMap.get key (CacheManager.cache c) = None ->
        result.1 = true
        /\ result.2.1 = t
        /\ CacheManager.cache result.2.2 = CacheManager.cache c).
Proof.
  intros key result. unfold result, NumberSettings.isWebhookEnabledForNumber,
    NumberSettings.getNumberSettings. fold key.
  unfold CacheManager.get. split.
  - destruct (JsMap.get key (CacheManager.cache c)) as [item|] eqn:Hget.
    + destruct (Z.ltb_spec (CacheManager.expiry item) now) as [Hexp|Hlive].
      * cbn [fst snd].
        destruct t as [rs|e]; unfold NumberSettings.select_single.
        -- destruct (List.filter _ rs) as [|r [|r' l]] eqn:Hf; simpl;
             try done.
           intros Hflag. right. exists rs, r.
           assert (r ∈ List.filter
                     (NumberSettings.matches accountId
                        (Phone.keep_digits phoneNumber)) rs) as Hin
             by (rewrite Hf; left).
           apply list_elem_of_In, filter_In in Hin as [Hin Hm].
           apply matches_spec in Hm. injection Hm as Ha Hp.
           split; [done|]. split; [by apply list_elem_of_In|].
           split; [done|]. split; [done|].
           destruct (NumberSettings.webhook_enabled r) as [[]|]; done.
        -- simpl. by destruct (negb _).
      * cbn [fst snd]. intros Hflag. left. exists item.
        destruct (CacheManager.value item) as [r|] eqn:Hv; [|done].
        exists r. split; [done|]. split; [lia|]. split; [done|].
        simpl in Hflag.
        destruct (NumberSettings.webhook_enabled r) as [[]|]; done.
    + destruct t as [rs|e]; unfold NumberSettings.select_single.
      * destruct (List.filter _ rs) as [|r [|r' l]] eqn:Hf; simpl; try done.
        intros Hflag. right. exists rs, r.
        assert (r ∈ List.filter
                  (NumberSettings.matches accountId
                     (Phone.keep_digits phoneNumber)) rs) as Hin
          by (rewrite Hf; left).
        apply list_elem_of_In, filter_In in Hin as [Hin Hm].
        apply matches_spec in Hm. injection Hm as Ha Hp.
        split; [done|]. split; [by apply list_elem_of_In|].
        split; [done|]. split; [done|].
        destruct (NumberSettings.webhook_enabled r) as [[]|]; done.
      * simpl. by destruct (negb _).
  - intros e -> Hcode Hnone. rewrite Hnone. simpl.
    rewrite (proj2 (String.eqb_neq _ _)) by done. done.
Qed.

(** ** The files of a session *)

Section SessionFilesFacts.

Import SessionFiles.

Variable base64 : string -> string.

(** Induction on a listing and what is below it. *)
Lemma Entry_nested_ind (P : Entry -> Prop) :
  (forall name content, P (File name content)) ->
  (forall name, P (Unreadable name)) ->
  (forall name, P (Directory name None)) ->
  (forall name entries, Forall P entries ->
                        P (Directory name (Some entries))) ->
  forall entry, P entry.
Proof.
  intros HF HU HN HD. fix IH 1. intros [name content|name|name [entries|]].
  - apply HF.
  - apply HU.
  - apply HD. induction entries as [|e es IHes]; constructor; [apply IH|].
    exact IHes.
  - apply HN.
Qed.

(** The recursive call in [visit] is the function itself. *)
Lemma visit_directory dir rel name listing acc :
  visit base64 dir rel (Directory name listing) acc
  = if String.eqb name "Default" || essential_name name
       || inside_essential dir
    then (_collectSessionFiles base64 (join dir name)
            (join_relative rel name) listing acc, false)
    else (acc, false).
Proof.
  cbn [visit]. destruct (_ || _ || _); [|done]. f_equal.
  destruct listing as [entries|]; [|done]. simpl.
  revert acc. induction entries as [|e es IH]; intros acc; [done|].
  cbn [entries_loop]. destruct (MAX_TOTAL <? totalSize acc); [done|].
  destruct (visit base64 _ _ e acc) as [acc' []]; [done|]. apply IH.
Qed.

Lemma entries_loop_budget dir rel es :
  Forall (fun e => forall dir rel acc,
            within_budget acc (visit base64 dir rel e acc).1) es ->
  forall acc,
    within_budget acc (entries_loop base64 dir rel es acc)
    /\ (MAX_TOTAL < totalSize acc ->
        entries_loop base64 dir rel es acc = acc).
Proof.
  induction 1 as [|e es He _ IH]; intros acc.
  - cbn [entries_loop]. split; [|done].
    unfold within_budget, MAX_TOTAL, MAX_FILE. split; [lia|]. split; [lia|done].
  - cbn [entries_loop].
    destruct (Z.ltb_spec MAX_TOTAL (totalSize acc)) as [Hover|Hroom].
    { split; [|done]. unfold within_budget.
      unfold MAX_TOTAL, MAX_FILE. split; [lia|]. split; [lia|done]. }
    split; [|lia].
    specialize (He dir rel acc).
    destruct (visit base64 dir rel e acc) as [acc1 threw].
    cbn [fst] in He. destruct He as (H1 & H2 & H3).
    unfold within_budget, MAX_TOTAL, MAX_FILE in *.
    destruct threw; [split; [lia|split; [lia|exact H3]]|].
    destruct (IH acc1) as [(H4 & H5 & H6) Hstop].
    split; [lia|]. split; [|by etrans].
    destruct (Z.lt_ge_cases (10 * 1024 * 1024) (totalSize acc1))
      as [Hover1|Hroom1].
    + rewrite (Hstop Hover1). lia.
    + lia.
Qed.

Lemma visit_budget entry :
  forall dir rel acc, within_budget acc (visit base64 dir rel entry acc).1.
Proof.
  assert (forall acc, within_budget acc acc) as Hrefl.
  { intros acc. unfold within_budget, MAX_TOTAL, MAX_FILE. split; [lia|]. split; [lia|done]. }
  induction entry as [name content|name|name|name entries IH]
    using Entry_nested_ind; intros dir rel acc.
  - cbn [visit]. destruct (negb _); [apply Hrefl|].
    destruct (lock_file name); [apply Hrefl|].
    destruct (Z.eqb_spec (Z.of_nat (String.length content)) 0) as [|Hnz];
      [apply Hrefl|].
    destruct (Z.ltb_spec MAX_FILE (Z.of_nat (String.length content)))
      as [|Hsmall]; [apply Hrefl|].
    cbn [orb fst]. unfold within_budget, MAX_TOTAL, MAX_FILE in *.
    cbn [totalSize files].
    split; [lia|]. split; [lia|]. rewrite dom_insert. apply union_subseteq_r.
  - cbn [visit]. destruct (negb _); [apply Hrefl|].
    destruct (lock_file name); apply Hrefl.
  - rewrite visit_directory. destruct (_ || _ || _); apply Hrefl.
  - rewrite visit_directory. destruct (_ || _ || _); [|apply Hrefl].
    cbn [fst _collectSessionFiles]. by apply entries_loop_budget.
Qed.

End SessionFilesFacts.

(** X30. The budget of a session save. Whatever the directory holds,
    [_collectSessionFiles] returns, what it had collected before is still
    there, and the total size has grown, but to no more than the budget of
    10 MB plus one file of at most 3 MB: from an empty collection, 13 MB at
    most. Called with the budget already exceeded it collects nothing. A
    directory that cannot be listed, at the top or below, and a file that
    cannot be read end the walk of their directory without an error. *)
Theorem collect_session_files_bounded (base64 : string -> string)
    dir rel listing acc :
  let acc' := SessionFiles._collectSessionFiles base64 dir rel listing acc in
  SessionFiles.totalSize acc <= SessionFiles.totalSize acc'
  /\ SessionFiles.totalSize acc'
     <= Z.max (SessionFiles.totalSize acc) (10 * 1024 * 1024)
        + 3 * 1024 * 1024
  /\ (SessionFiles.totalSize acc = 0 ->
      SessionFiles.totalSize acc' <= 13 * 1024 * 1024)
  /\ (10 * 1024 * 1024 < SessionFiles.totalSize acc -> acc' = acc)
  /\ dom (SessionFiles.files acc) ⊆ dom (SessionFiles.files acc')
  /\ SessionFiles._collectSessionFiles base64 dir rel None acc = acc.
Proof.
  intros acc'. unfold acc'. destruct listing as [entries|].
  - destruct (entries_loop_budget base64 dir rel entries) with (acc := acc)
      as [(H1 & H2 & H3) Hstop].
    { apply Forall_forall. intros e _. apply visit_budget. }
    cbn [SessionFiles._collectSessionFiles].
    unfold SessionFiles.MAX_TOTAL, SessionFiles.MAX_FILE in *.
    split; [lia|]. split; [lia|]. split; [lia|]. split; [exact Hstop|].
    split; [exact H3|done].
  - cbn [SessionFiles._collectSessionFiles].
    split; [lia|]. split; [lia|]. split; [lia|]. done.
Qed.
